(** * criticality_score: the dependency-analysis pipeline of the distro collectors

    A shallow embedding of the Go sources
      - pkg/collector/alpine/alpine.go      (module [Alpine])
      - pkg/collector/centos/centos.go      (module [Centos])
      - pkg/gitmetricsync/gitmetricsync.go  (module [GitMetricSync])
      - the deps.dev enricher, package collector_depsdev (module [DepsDev])
      - the GitHub enricher, package githubmetrics (module [GithubMetrics])
      - cmd/database-migrator/main.go       (module [Migrator])
    followed by the properties of the closure engine, the PageRank engine,
    the parsers, the persister and the enrichers.

    Conventions.  A Go string is a byte string and is modelled as [string]
    (a list of 8-bit characters), so [String.length] is Go's [len].  A Go
    map is a [gmap]; a [map[string]bool] read at a missing key yields
    [false].  A Go [int] is a 64-bit two's complement integer, modelled as
    a [Z] wrapped by [wrap64] after each increment.  A [float64] is either
    Rocq's primitive binary64 [float] or, for the algebra of PageRank, an
    exact rational; the code is written once over the operations it uses. *)

From Stdlib Require Import ZArith List String Ascii Lia QArith Qcanon Floats Uint63.
From stdpp Require Import gmap strings list fin_maps pretty.

Local Open Scope string_scope.
Local Open Scope list_scope.
Local Open Scope nat_scope.

(** * Part I: the model *)

(** ** Go runtime and library functions *)

(** [m[k]] on a [map[string]bool]: the zero value [false] when [k] is absent. *)
Definition bool_at (m : gmap string bool) (k : string) : bool :=
  default false (m !! k).

(** [m[k]] on a [map[string]int]: the zero value [0] when [k] is absent. *)
Definition int_at (m : gmap string Z) (k : string) : Z :=
  default 0%Z (m !! k).

(** Two's complement wrap-around of a 64-bit [int]. *)
Definition wrap64 (z : Z) : Z :=
  ((z + 2 ^ 63) mod 2 ^ 64 - 2 ^ 63)%Z.

(** [n++] on an [int]. *)
Definition int_incr (n : Z) : Z := wrap64 (n + 1).

(** A [for _, x := range l { ... }] loop whose body may fail to return
    (here: exhaust its recursion budget); the state is threaded through. *)
Fixpoint for_range {A S : Type} (body : A → S → option S) (l : list A) (s : S)
  : option S :=
  match l with
  | [] => Some s
  | x :: l' =>
      match body x s with
      | Some s' => for_range body l' s'
      | None => None
      end
  end.

(** [s[:n]] and [s[n:]].  Go panics when [n > len(s)]; every use below is
    guarded by a length test or takes [n] from [strings.Index]. *)
Fixpoint str_take (n : nat) (s : string) : string :=
  match n, s with
  | S n', String c s' => String c (str_take n' s')
  | _, _ => EmptyString
  end.

Fixpoint str_drop (n : nat) (s : string) : string :=
  match n, s with
  | S n', String _ s' => str_drop n' s'
  | _, _ => s
  end.

(** [strings.HasPrefix(s, p)] and the rest of [s] after the prefix [p]. *)
Fixpoint strip_prefix (p s : string) : option string :=
  match p, s with
  | EmptyString, _ => Some s
  | String a p', String b s' =>
      if Ascii.eqb a b then strip_prefix p' s' else None
  | String _ _, EmptyString => None
  end.

(** [strings.Index(s, substr)]: the index of the first instance of
    [substr] in [s], or [-1]. *)
Fixpoint index_from (i : Z) (substr s : string) : Z :=
  match strip_prefix substr s with
  | Some _ => i
  | None =>
      match s with
      | EmptyString => (-1)%Z
      | String _ s' => index_from (i + 1) substr s'
      end
  end.

Definition Index (s substr : string) : Z := index_from 0 substr s.

(** [strings.Split(s, sep)] for a non-empty [sep]: the pieces between the
    non-overlapping instances of [sep], scanning from the left.  [skip]
    counts the bytes of a separator still to be passed over and [cur] is
    the piece being read. *)
Fixpoint split_aux (sep : string) (skip : nat) (cur : string) (s : string)
  : list string :=
  match s with
  | EmptyString => [cur]
  | String c s' =>
      match skip with
      | S k => split_aux sep k cur s'
      | O =>
          match strip_prefix sep s with
          | Some _ => cur :: split_aux sep (String.length sep - 1) EmptyString s'
          | None => split_aux sep 0 (cur +:+ String c EmptyString) s'
          end
      end
  end.

Definition Split (s sep : string) : list string := split_aux sep 0 EmptyString s.

(** The white space of [strings.Fields] on ASCII input:
    tab, line feed, vertical tab, form feed, carriage return, space. *)
Definition asciiSpace (c : ascii) : bool :=
  let n := nat_of_ascii c in
  (n =? 9) || (n =? 10) || (n =? 11) || (n =? 12) || (n =? 13) || (n =? 32).

(** [strings.Fields(s)]: the maximal runs of non-space bytes.  (On input
    with non-ASCII runes Go also splits at Unicode spaces such as U+00A0;
    an APKINDEX is ASCII.) *)
Fixpoint fields_aux (cur : string) (s : string) : list string :=
  match s with
  | EmptyString => if String.eqb cur EmptyString then [] else [cur]
  | String c s' =>
      if asciiSpace c
      then (if String.eqb cur EmptyString then fields_aux EmptyString s'
            else cur :: fields_aux EmptyString s')
      else fields_aux (cur +:+ String c EmptyString) s'
  end.

Definition Fields (s : string) : list string := fields_aux EmptyString s.

(** The line feed, byte 10. *)
Definition lineFeed : string := String (ascii_of_nat 10) EmptyString.

(** The longest prefix of [s] whose bytes satisfy [p], and the rest: what a
    greedy character-class repetition of a regular expression consumes. *)
Fixpoint span (p : ascii → bool) (s : string) : string * string :=
  match s with
  | EmptyString => (EmptyString, EmptyString)
  | String c s' =>
      if p c then let '(a, b) := span p s' in (String c a, b)
      else (EmptyString, s)
  end.

(** The arithmetic of [float64] that PageRank uses. *)
Class Float64Ops (F : Type) := {
  f_zero : F;
  f_one : F;
  f_of_int : Z → F;
  f_add : F → F → F;
  f_sub : F → F → F;
  f_mul : F → F → F;
  f_div : F → F → F
}.

(** IEEE 754 binary64, as the Go program computes. *)
#[export] Instance float_ops : Float64Ops float := {
  f_zero := 0%float;
  f_one := 1%float;
  f_of_int z := PrimFloat.of_uint63 (Uint63.of_Z z);
  f_add := PrimFloat.add;
  f_sub := PrimFloat.sub;
  f_mul := PrimFloat.mul;
  f_div := PrimFloat.div
}.

(** Exact rational arithmetic: the same program without rounding. *)
#[export] Instance Qc_ops : Float64Ops Qc := {
  f_zero := 0%Qc;
  f_one := 1%Qc;
  f_of_int z := Q2Qc (inject_Z z);
  f_add := Qcplus;
  f_sub := Qcminus;
  f_mul := Qcmult;
  f_div := Qcdiv
}.

(** [m[k]] on a [map[string]float64]. *)
Definition rank_at {F : Type} `{Float64Ops F} (m : gmap string F) (k : string) : F :=
  default f_zero (m !! k).

(** ** The relationships table *)

Inductive DbError :=
| UniqueViolation   (* SQLSTATE 23505 *)
| OtherDbError.

(** The rows [(frompackage, topackage)] of a [<distro>_relationships] table. *)
Definition Relationships : Type := list (string * string).

(** Modelled from the spec: the [<distro>_relationships] table and its
    [UNIQUE(frompackage, topackage)] constraint, whose schema is not part of
    the sources.  [INSERT INTO <distro>_relationships (frompackage,
    topackage) VALUES ($1, $2)] adds the row, or fails with a unique
    violation and leaves the table as it is.  The table has no other
    constraint: any pair of strings is accepted. *)
Definition execInsert (db : Relationships) (frompackage topackage : string)
  : Relationships * option DbError :=
  if decide ((frompackage, topackage) ∈ db)
  then (db, Some UniqueViolation)
  else (db ++ [(frompackage, topackage)], None).

(** [isUniqueViolation(err)] *)
Definition isUniqueViolation (err : DbError) : bool :=
  match err with
  | UniqueViolation => true
  | OtherDbError => false
  end.

(** The mutable state of one closure computation: the [visited] map, which
    all recursive calls share, and the [deps] slice that is returned. *)
Definition VisitState : Type := gmap string bool * list string.

(** ** What the two collectors have word for word in common

    [calculatePageRank], [storeDependenciesInDatabase] and the loops of
    [Collect] are the same text in alpine.go and centos.go (up to the
    receiver and the table name); they are written once, over the record
    type and its [Depends] field. *)
Section Collector.
Context {PackageInfo : Type}.
Variable Depends : PackageInfo → list string.

(** [_, exists := pkgInfoMap[depName]] *)
Definition exists_in (pkgInfoMap : gmap string PackageInfo) (depName : string) : bool :=
  bool_decide (is_Some (pkgInfoMap !! depName)).

(** The first inner loop of [calculatePageRank]: [depNum], the number of
    entries of [Depends] that are packages of the index. *)
Definition depNum (pkgInfoMap : gmap string PackageInfo) (pkgInfo : PackageInfo) : Z :=
  foldl (λ n depName, if exists_in pkgInfoMap depName then int_incr n else n)
        0%Z (Depends pkgInfo).

Section PageRank.
Context {F : Type} `{Float64Ops F}.

(** The state of [calculatePageRank], instrumented: a map of ranks, and
    the log of the integer divisors [k] of every division [x / float64(k)]
    executed so far, in execution order. *)
Definition RankState : Type := gmap string F * list Z.

(** [pageRank[pkgName] = 1.0 / float64(numPackages)] *)
Definition initRank (numPackages : Z) (st : RankState) (pkgName : string) : RankState :=
  (<[pkgName := f_div f_one (f_of_int numPackages)]> st.1, st.2 ++ [numPackages]).

(** [newPageRank[pkgName] = (1 - dampingFactor) / float64(numPackages)] *)
Definition baseRank (numPackages : Z) (dampingFactor : F) (st : RankState)
    (pkgName : string) : RankState :=
  (<[pkgName := f_div (f_sub f_one dampingFactor) (f_of_int numPackages)]> st.1,
   st.2 ++ [numPackages]).

(** The body of the loop [for pkgName, pkgInfo := range pkgInfoMap]:
    count the in-index dependencies, then give each of them its share
    [dampingFactor * (pageRank[pkgName] / float64(depNum))]. *)
Definition shareRank (pkgInfoMap : gmap string PackageInfo) (dampingFactor : F)
    (pageRank : gmap string F) (st : RankState) (entry : string * PackageInfo)
  : RankState :=
  let '(pkgName, pkgInfo) := entry in
  let depNum := depNum pkgInfoMap pkgInfo in
  foldl (λ (st : RankState) depName,
           if exists_in pkgInfoMap depName
           then (<[depName := f_add (rank_at st.1 depName)
                                (f_mul dampingFactor
                                   (f_div (rank_at pageRank pkgName) (f_of_int depNum)))]> st.1,
                 st.2 ++ [depNum])
           else st)
        st (Depends pkgInfo).

(** One round of the loop [for i := 0; i < iterations; i++]. *)
Definition rankRound (pkgInfoMap : gmap string PackageInfo) (numPackages : Z)
    (dampingFactor : F) (st : RankState) : RankState :=
  let entries := map_to_list pkgInfoMap in
  let newPageRank := foldl (baseRank numPackages dampingFactor) (∅, st.2) entries.*1 in
  foldl (shareRank pkgInfoMap dampingFactor st.1) newPageRank entries.

(** [calculatePageRank(pkgInfoMap, iterations, dampingFactor)], with the
    log of divisors.  The range loops run in the order of [map_to_list];
    Go leaves the order unspecified, and it only affects rounding. *)
Definition calculatePageRank_log (pkgInfoMap : gmap string PackageInfo)
    (iterations : Z) (dampingFactor : F) : RankState :=
  let numPackages := Z.of_nat (size pkgInfoMap) in
  let pageRank := foldl (initRank numPackages) (∅, []) (map_to_list pkgInfoMap).*1 in
  Nat.iter (Z.to_nat iterations) (rankRound pkgInfoMap numPackages dampingFactor) pageRank.

Definition calculatePageRank (pkgInfoMap : gmap string PackageInfo)
    (iterations : Z) (dampingFactor : F) : gmap string F :=
  (calculatePageRank_log pkgInfoMap iterations dampingFactor).1.

End PageRank.

(** [countMap[dep]++] *)
Definition countDep (countMap : gmap string Z) (dep : string) : gmap string Z :=
  <[dep := int_incr (int_at countMap dep)]> countMap.

(** The loop [for _, deps := range depMap { for _, dep := range deps {
    countMap[dep]++ } }], over the entries of [depMap] in the order the
    range yields them. *)
Definition buildCountMap (depMapEntries : list (string * list string)) : gmap string Z :=
  foldl (λ countMap entry, foldl countDep countMap entry.2) ∅ depMapEntries.

(** [storeDependenciesInDatabase(pkgName, dependencies)]: one insert per
    entry of [dependencies], returning at the first error. *)
Fixpoint storeDependenciesInDatabase (db : Relationships) (pkgName : string)
    (dependencies : list string) : Relationships * option DbError :=
  match dependencies with
  | [] => (db, None)
  | dep :: rest =>
      match execInsert db pkgName dep with
      | (db', None) => storeDependenciesInDatabase db' pkgName rest
      | (db', Some err) => (db', Some err)
      end
  end.

(** The loop of [Collect] that persists the edges: after an error of one
    package the loop goes on with the next one, silently for a unique
    violation and after a printed line for any other error. *)
Definition storeAllDependencies (db : Relationships)
    (entries : list (string * PackageInfo)) : Relationships :=
  foldl (λ db entry,
           match storeDependenciesInDatabase db entry.1 (Depends entry.2) with
           | (db', Some err) => if isUniqueViolation err then db' else db'
           | (db', None) => db'
           end)
        db entries.

End Collector.

(** ** pkg/collector/alpine/alpine.go *)
Module Alpine.

Record PackageInfo := mkPackageInfo {
  DependsCount : Z;
  Description : string;
  Homepage : string;
  PageRank : float;
  Version : string;
  PackageName : string;
  Depends : list string
}.

(** The zero value of the struct ([var pkg PackageInfo]). *)
Definition zeroPackageInfo : PackageInfo :=
  mkPackageInfo 0 "" "" 0%float "" "" [].

Definition set_PackageName (v : string) (p : PackageInfo) : PackageInfo :=
  mkPackageInfo (DependsCount p) (Description p) (Homepage p) (PageRank p)
                (Version p) v (Depends p).

Definition set_Version (v : string) (p : PackageInfo) : PackageInfo :=
  mkPackageInfo (DependsCount p) (Description p) (Homepage p) (PageRank p)
                v (PackageName p) (Depends p).

Definition set_Description (v : string) (p : PackageInfo) : PackageInfo :=
  mkPackageInfo (DependsCount p) v (Homepage p) (PageRank p)
                (Version p) (PackageName p) (Depends p).

Definition set_Homepage (v : string) (p : PackageInfo) : PackageInfo :=
  mkPackageInfo (DependsCount p) (Description p) v (PageRank p)
                (Version p) (PackageName p) (Depends p).

Definition set_Depends (v : list string) (p : PackageInfo) : PackageInfo :=
  mkPackageInfo (DependsCount p) (Description p) (Homepage p) (PageRank p)
                (Version p) (PackageName p) v.

Definition set_metrics (count : Z) (rank : float) (p : PackageInfo) : PackageInfo :=
  mkPackageInfo count (Description p) (Homepage p) rank
                (Version p) (PackageName p) (Depends p).

(** [func (pkg *PackageInfo) GetAllDependencies(packages, visited, deps)].
    Go's recursion has no bound of its own; [fuel] is the recursion depth
    allowed, and [None] means it was exhausted. *)
Fixpoint GetAllDependencies (fuel : nat) (packages : gmap string PackageInfo)
    (pkg : PackageInfo) (st : VisitState) : option VisitState :=
  match fuel with
  | O => None
  | S fuel' =>
      let '(visited, deps) := st in
      if bool_at visited (PackageName pkg) then Some (visited, deps)
      else
        let visited := <[PackageName pkg := true]> visited in
        let deps := deps ++ [PackageName pkg] in
        for_range
          (λ depName st,
             match packages !! depName with
             | Some depPkg => GetAllDependencies fuel' packages depPkg st
             | None => Some st
             end)
          (Depends pkg) (visited, deps)
  end.

(** The body of the loop over the fields of a [D:] line: cut the token
    after its first [:] and before its first [=]. *)
Definition normalizeDep (dep : string) : string :=
  let dep :=
    let idx := Index dep ":" in
    if negb (idx =? -1)%Z then str_drop (Z.to_nat (idx + 1)) dep else dep in
  let dep :=
    let idx := Index dep "=" in
    if negb (idx =? -1)%Z then str_take (Z.to_nat idx) dep else dep in
  dep.

(** The body of the loop over the lines of an entry: the [switch line[0:2]]. *)
Definition parseLine (pkg : PackageInfo) (line : string) : PackageInfo :=
  if (String.length line <? 2) then pkg
  else
    let key := str_take 2 line in
    let value := str_drop 2 line in
    if String.eqb key "P:" then set_PackageName value pkg
    else if String.eqb key "V:" then set_Version value pkg
    else if String.eqb key "D:" then
      foldl (λ pkg dep, set_Depends (Depends pkg ++ [normalizeDep dep]) pkg)
            pkg (Fields value)
    else if String.eqb key "T:" then set_Description value pkg
    else if String.eqb key "U:" then set_Homepage value pkg
    else pkg.

Definition newline : string := String (ascii_of_nat 10) EmptyString.

(** One blank-line-separated entry of the APKINDEX. *)
Definition parseEntry (entry : string) : PackageInfo :=
  foldl parseLine zeroPackageInfo (Split entry newline).

(** [if pkg.PackageName != "" { packageList[pkg.PackageName] = pkg }] *)
Definition addPackage (packageList : gmap string PackageInfo) (pkg : PackageInfo)
  : gmap string PackageInfo :=
  if String.eqb (PackageName pkg) "" then packageList
  else <[PackageName pkg := pkg]> packageList.

(** [getPackageList], from the decompressed and concatenated index text
    [data] on (the download and the gzip reader are outside the model). *)
Definition getPackageList (data : string) : gmap string PackageInfo :=
  foldl addPackage ∅ (parseEntry <$> Split data (newline +:+ newline)).

(** [closure(p)] as [Collect] computes it: a fresh [visited] map and an
    empty [deps].  The recursion depth never exceeds the number of
    packages, so that many levels (and one) are allowed. *)
Definition closure (packages : gmap string PackageInfo) (pkg : PackageInfo)
  : option (list string) :=
  snd <$> GetAllDependencies (S (size packages)) packages pkg (∅, []).

(** [depMap[pkgName] = deps] for every entry of the index.  Each key is
    assigned once, so the map does not depend on the order of the range. *)
Definition buildDepMap (pkgInfoMap : gmap string PackageInfo)
  : gmap string (list string) :=
  map_imap (λ _ pkgInfo, closure pkgInfoMap pkgInfo) pkgInfoMap.

Definition calculatePageRank {F : Type} `{Float64Ops F} :=
  calculatePageRank (F := F) Depends.

Definition storeDependenciesInDatabase := storeDependenciesInDatabase.

(** The damping factor [0.85] as a float64. *)
Definition damping : float := 0x1.b333333333333p-1%float.

(** [Collect], from the parsed index on: closures, counts, PageRank, the
    metrics written back into the index, and the edges persisted to
    [alpine_relationships] (the package rows are assumed to be stored
    without error; otherwise [Collect] returns before the edges). *)
Definition Collect (pkgInfoMap : gmap string PackageInfo) (db : Relationships)
  : gmap string PackageInfo * Relationships :=
  let depMap := buildDepMap pkgInfoMap in
  let countMap := buildCountMap (map_to_list depMap) in
  let pagerank := calculatePageRank pkgInfoMap 20 damping in
  let pkgInfoMap :=
    map_imap (λ pkgName pkgInfo,
                Some (set_metrics (int_at countMap pkgName)
                                  (rank_at pagerank pkgName) pkgInfo))
             pkgInfoMap in
  (pkgInfoMap, storeAllDependencies Depends db (map_to_list pkgInfoMap)).

End Alpine.

(** ** centos.go: the inner XML of a package, before it is parsed *)
Module CentosXml.

(** [strings.Join(elems, sep)] *)
Definition Join (elems : list string) (sep : string) : string :=
  match elems with
  | [] => EmptyString
  | first :: rest => foldl (λ acc elem, acc +:+ sep +:+ elem) first rest
  end.

(** [if len(line) > 2 { lines[i] = line[2:] }] *)
Definition trimLine (line : string) : string :=
  if (2 <? String.length line) then str_drop 2 line else line.

(** The argument [getDependencies] hands to [parsePackageXML] for the
    inner XML [xml] of a package: two bytes cut off every line that has
    more than two, the lines joined again, and [trimmedXML[1:]].  Go
    panics when it slices the empty string from 1 on: [None]. *)
Definition trimPackageXML (xml : string) : option string :=
  let lines := trimLine <$> Split xml lineFeed in
  let trimmedXML := Join lines lineFeed in
  if (1 <=? String.length trimmedXML) then Some (str_drop 1 trimmedXML) else None.

End CentosXml.


(** ** pkg/collector/centos/centos.go *)
Module Centos.

Record PackageInfo := mkPackageInfo {
  Depends : list string;
  DependsCount : Z;
  Description : string;
  GitRepo : string;
  Homepage : string;
  Name : string;
  PageRank : float;
  URL : string;
  Version : string
}.

Definition zeroPackageInfo : PackageInfo :=
  mkPackageInfo [] 0 "" "" "" "" 0%float "" "".

Definition set_Name (v : string) (p : PackageInfo) : PackageInfo :=
  mkPackageInfo (Depends p) (DependsCount p) (Description p) (GitRepo p)
                (Homepage p) v (PageRank p) (URL p) (Version p).

Definition set_Description (v : string) (p : PackageInfo) : PackageInfo :=
  mkPackageInfo (Depends p) (DependsCount p) v (GitRepo p)
                (Homepage p) (Name p) (PageRank p) (URL p) (Version p).

Definition set_URL (v : string) (p : PackageInfo) : PackageInfo :=
  mkPackageInfo (Depends p) (DependsCount p) (Description p) (GitRepo p)
                (Homepage p) (Name p) (PageRank p) v (Version p).

Definition set_Version (v : string) (p : PackageInfo) : PackageInfo :=
  mkPackageInfo (Depends p) (DependsCount p) (Description p) (GitRepo p)
                (Homepage p) (Name p) (PageRank p) (URL p) v.

Definition set_Depends (v : list string) (p : PackageInfo) : PackageInfo :=
  mkPackageInfo v (DependsCount p) (Description p) (GitRepo p)
                (Homepage p) (Name p) (PageRank p) (URL p) (Version p).

Definition set_metrics (count : Z) (rank : float) (p : PackageInfo) : PackageInfo :=
  mkPackageInfo (Depends p) count (Description p) (GitRepo p)
                (Homepage p) (Name p) rank (URL p) (Version p).

(** [func (cc *CentosCollector) getAllDep(pkgName, visited, deps)]; the
    receiver's field [cc.PkgInfoMap] is the argument [PkgInfoMap]. *)
Fixpoint getAllDep (fuel : nat) (PkgInfoMap : gmap string PackageInfo)
    (pkgName : string) (st : VisitState) : option VisitState :=
  match fuel with
  | O => None
  | S fuel' =>
      let '(visited, deps) := st in
      if bool_at visited pkgName then Some (visited, deps)
      else
        let visited := <[pkgName := true]> visited in
        let deps := deps ++ [pkgName] in
        match PkgInfoMap !! pkgName with
        | Some pkg =>
            for_range (λ depName st, getAllDep fuel' PkgInfoMap depName st)
              (Depends pkg) (visited, deps)
        | None => Some (visited, deps)
        end
  end.

(** What [encoding/xml] hands to [parsePackageXML]: the start elements the
    switch looks at, each with what [DecodeElement] reads from it, any
    other token, or an error of the decoder. *)
Inductive XmlToken :=
| StartName (text : string)
| StartDescription (text : string)
| StartUrl (text : string)
| StartVersion (epoch ver rel : string)
| StartEntry (name : string)
| OtherToken
| TokenError.

(** The [description] case: [if len(description) > 255 { description =
    description[:254] }]. *)
Definition capDescription (description : string) : string :=
  if (255 <? String.length description) then str_take 254 description
  else description.

(** [parsePackageXML], on the token stream of the package element
    ([None]: the decoder's error is returned). *)
Fixpoint parseTokens (pkgInfo : PackageInfo) (depends : list string)
    (toks : list XmlToken) : option PackageInfo :=
  match toks with
  | [] => Some (set_Depends depends pkgInfo)
  | tok :: toks' =>
      match tok with
      | StartName name => parseTokens (set_Name name pkgInfo) depends toks'
      | StartDescription description =>
          parseTokens (set_Description (capDescription description) pkgInfo) depends toks'
      | StartUrl url => parseTokens (set_URL url pkgInfo) depends toks'
      | StartVersion epoch ver rel =>
          parseTokens (set_Version (epoch +:+ ":" +:+ ver +:+ "-" +:+ rel) pkgInfo)
                      depends toks'
      | StartEntry name => parseTokens pkgInfo (depends ++ [name]) toks'
      | OtherToken => parseTokens pkgInfo depends toks'
      | TokenError => None
      end
  end.

Definition parsePackageXML (toks : list XmlToken) : option PackageInfo :=
  parseTokens zeroPackageInfo [] toks.

(** [if _, exists := cc.PkgInfoMap[pkgInfo.Name]; !exists {
    cc.PkgInfoMap[pkgInfo.Name] = pkgInfo }] *)
Definition addPackage (PkgInfoMap : gmap string PackageInfo) (pkgInfo : PackageInfo)
  : gmap string PackageInfo :=
  match PkgInfoMap !! Name pkgInfo with
  | Some _ => PkgInfoMap
  | None => <[Name pkgInfo := pkgInfo]> PkgInfoMap
  end.

(** What the decoder of [getDependencies] meets in primary.xml, token by
    token; the end of the list is [io.EOF]. *)
Inductive DocToken :=
| PackageElement (type : string) (xml : string) (toks : list XmlToken)
    (* a start element [package] that [DecodeElement] decodes: its [type]
       attribute, its inner XML, and the tokens that the decoder of
       [parsePackageXML] yields on the text handed to it *)
| PackageElementError
    (* a start element [package] on which [DecodeElement] fails *)
| DocOther
    (* any other token *)
| DocError.
    (* [decoder.Token] fails with an error other than [io.EOF] *)

(** How a call ends: [return nil] with the map it leaves, [return err],
    or a run-time panic. *)
Inductive Outcome (A : Type) :=
| Returns (a : A)
| ReturnsError
| Panics.

Arguments Returns {A} a.
Arguments ReturnsError {A}.
Arguments Panics {A}.

(** [getDependencies], from the decompressed document on (the download
    and the gzip reader are outside the model).  [DecodeElement] runs on
    every [package] element before its type is looked at; for a package
    of type [rpm] the inner XML is cut line by line and sliced from 1 on,
    which panics on the empty text, before [parsePackageXML] reads it. *)
Fixpoint getDependencies (PkgInfoMap : gmap string PackageInfo)
    (doc : list DocToken) : Outcome (gmap string PackageInfo) :=
  match doc with
  | [] => Returns PkgInfoMap
  | DocError :: _ => ReturnsError
  | DocOther :: rest => getDependencies PkgInfoMap rest
  | PackageElementError :: _ => ReturnsError
  | PackageElement type xml toks :: rest =>
      if String.eqb type "rpm" then
        match CentosXml.trimPackageXML xml with
        | None => Panics
        | Some _ =>
            match parsePackageXML toks with
            | Some pkgInfo => getDependencies (addPackage PkgInfoMap pkgInfo) rest
            | None => ReturnsError
            end
        end
      else getDependencies PkgInfoMap rest
  end.

(** Every name a traversal can meet: the keys and all required names. *)
Definition names (m : gmap string PackageInfo) : gset string :=
  dom m ∪ map_fold (λ _ pkg acc, list_to_set (Depends pkg) ∪ acc) ∅ m.

(** [closure(p)] as [Collect] computes it.  The recursion depth never
    exceeds the number of names of the index. *)
Definition closure (PkgInfoMap : gmap string PackageInfo) (pkgName : string)
  : option (list string) :=
  snd <$> getAllDep (S (size (names PkgInfoMap))) PkgInfoMap pkgName (∅, []).

Definition buildDepMap (PkgInfoMap : gmap string PackageInfo)
  : gmap string (list string) :=
  map_imap (λ pkgName _, closure PkgInfoMap pkgName) PkgInfoMap.

Definition calculatePageRank {F : Type} `{Float64Ops F} :=
  calculatePageRank (F := F) Depends.

Definition storeDependenciesInDatabase := storeDependenciesInDatabase.

Definition damping : float := 0x1.b333333333333p-1%float.

(** [Collect], from the parsed index on (see [Alpine.Collect]). *)
Definition Collect (PkgInfoMap : gmap string PackageInfo) (db : Relationships)
  : gmap string PackageInfo * Relationships :=
  let depMap := buildDepMap PkgInfoMap in
  let countMap := buildCountMap (map_to_list depMap) in
  let pagerank := calculatePageRank PkgInfoMap 20 damping in
  let PkgInfoMap :=
    map_imap (λ pkgName pkgInfo,
                Some (set_metrics (int_at countMap pkgName)
                                  (rank_at pagerank pkgName) pkgInfo))
             PkgInfoMap in
  (PkgInfoMap, storeAllDependencies Depends db (map_to_list PkgInfoMap)).

End Centos.

(** ** pkg/gitmetricsync/gitmetricsync.go *)
Module GitMetricSync.

(** [\s] of Go's regexp: tab, line feed, form feed, carriage return, space. *)
Definition reSpace (c : ascii) : bool :=
  let n := nat_of_ascii c in
  (n =? 9) || (n =? 10) || (n =? 12) || (n =? 13) || (n =? 32).

(** The character class [[^/\s]]. *)
Definition segChar (c : ascii) : bool :=
  negb (nat_of_ascii c =? 47) && negb (reSpace c).

(** The part of [https?://github\.com/([^/\s]+/[^/\s]+)] after the scheme,
    matched at the start of [s]: the capture group.  Each class repetition
    is greedy, and giving back bytes can never help a later piece: the
    byte after a shorter run is itself not a [/]. *)
Definition matchPath (s : string) : option string :=
  match strip_prefix "://github.com/" s with
  | None => None
  | Some r =>
      let '(owner, r1) := span segChar r in
      if String.eqb owner "" then None
      else
        match strip_prefix "/" r1 with
        | None => None
        | Some r2 =>
            let '(repo, _) := span segChar r2 in
            if String.eqb repo "" then None
            else Some (owner +:+ "/" +:+ repo)
        end
  end.

(** The whole expression matched at the start of [s]: the match and its
    capture group.  [s?] first tries to take an [s]. *)
Definition matchHere (s : string) : option (string * string) :=
  match strip_prefix "http" s with
  | None => None
  | Some s1 =>
      let with_s :=
        match strip_prefix "s" s1 with
        | Some s2 => matchPath s2
        | None => None
        end in
      match with_s with
      | Some g => Some ("https://github.com/" +:+ g, g)
      | None =>
          match matchPath s1 with
          | Some g => Some ("http://github.com/" +:+ g, g)
          | None => None
          end
      end
  end.

(** [githubRegex.FindStringSubmatch(link)]: the leftmost match and its
    group, or [nil]. *)
Fixpoint FindStringSubmatch (link : string) : list string :=
  match matchHere link with
  | Some (whole, g) => [whole; g]
  | None =>
      match link with
      | EmptyString => []
      | String _ rest => FindStringSubmatch rest
      end
  end.

(** The body of the first loop of [syncGitMetrics]. *)
Definition normalizeLink (normalizedLinks : gmap string bool) (link : string)
  : gmap string bool :=
  let matches := FindStringSubmatch link in
  if (1 <? length matches) then
    let normalizedLink := "https://github.com/" +:+ nth 1 matches "" in
    if negb (String.eqb normalizedLink "") then <[normalizedLink := true]> normalizedLinks
    else normalizedLinks
  else normalizedLinks.

(** The key under which [link] is synchronised, if it has one. *)
Definition canonical (link : string) : option string :=
  fst <$> head (map_to_list (normalizeLink ∅ link)).

Section Sync.
(** The deps.dev query of [syncGitMetrics] is a network call. *)
Variable queryDepsDev : string → string → string → Z.

(** [syncGitMetrics(db, gitLinks)] on the table [git_metrics], a map from
    [git_link] (the primary key) to [depsdev_count].  The statements are
    taken to succeed; a failing one is logged and skipped. *)
Definition syncGitMetrics (git_metrics : gmap string Z) (gitLinks : gmap string bool)
  : gmap string Z :=
  let normalizedLinks := foldl normalizeLink ∅ (map_to_list gitLinks).*1 in
  let dbLinks : gmap string bool := (λ _, true) <$> git_metrics in
  let git_metrics :=
    foldl (λ t link, if negb (bool_at normalizedLinks link) then delete link t else t)
          git_metrics (map_to_list dbLinks).*1 in
  foldl (λ t link,
           if negb (bool_at dbLinks link) then
             let parts := Split link "/" in
             if (5 <=? length parts) then
               <[link := queryDepsDev "github" (nth 3 parts "") (nth 4 parts "")]> t
             else t
           else t)
        git_metrics (map_to_list normalizedLinks).*1.

End Sync.

End GitMetricSync.

(** ** What an enricher does that the outside can see *)
Inductive Event :=
| EvRequest              (* a call of the GitHub API *)
| EvSleep (d : Z)        (* [time.Sleep(d)], [d] in nanoseconds *)
| EvPrint                (* a line on standard output *)
| EvUpdate.              (* the [UPDATE] of the row of [git_metrics] *)

Definition isRequest (e : Event) : bool :=
  match e with EvRequest => true | _ => false end.

Definition isSleep (e : Event) : bool :=
  match e with EvSleep _ => true | _ => false end.

(** The number of API calls in a trace. *)
Definition requests (evs : list Event) : nat := length (List.filter isRequest evs).

(** The number of sleeps in a trace. *)
Definition sleeps (evs : list Event) : nat := length (List.filter isSleep evs).

(** ** package collector_depsdev *)
Module DepsDev.

(** What [client.Repositories.GetContents] answers: the names of the files
    of the repository root ([file.Name] may be [nil]), or an error with
    the status code of the response, if there is a response, and the text
    of the error. *)
Inductive Contents :=
| ContentsOk (names : list (option string))
| ContentsErr (status : option Z) (message : string).

Definition isDigit (c : ascii) : bool :=
  let n := nat_of_ascii c in (48 <=? n) && (n <=? 57).

(** [rate reset in (\d+)m(\d+)s] matched at the start of [s]: the two groups. *)
Definition matchReset (s : string) : option (string * string) :=
  match strip_prefix "rate reset in " s with
  | None => None
  | Some r =>
      let '(minutes, r1) := span isDigit r in
      if String.eqb minutes "" then None
      else
        match strip_prefix "m" r1 with
        | None => None
        | Some r2 =>
            let '(seconds, r3) := span isDigit r2 in
            if String.eqb seconds "" then None
            else
              match strip_prefix "s" r3 with
              | None => None
              | Some _ => Some (minutes, seconds)
              end
        end
  end.

(** [re.FindStringSubmatch(body)]: the groups of the leftmost match. *)
Fixpoint findReset (body : string) : option (string * string) :=
  match matchReset body with
  | Some g => Some g
  | None =>
      match body with
      | EmptyString => None
      | String _ rest => findReset rest
      end
  end.

(** [strconv.Atoi] on a string of decimal digits, its error dropped: the
    number, or the largest [int] when the number does not fit. *)
Definition Atoi (digits : string) : Z :=
  let n := fold_left (λ acc c, (acc * 10 + Z.of_nat (nat_of_ascii c - 48))%Z)
                     (list_ascii_of_string digits) 0%Z in
  Z.min n (2 ^ 63 - 1).

(** [time.Duration(minutes)*time.Minute + time.Duration(seconds)*time.Second] *)
Definition waitTime (minutes seconds : Z) : Z :=
  wrap64 (wrap64 (minutes * 60000000000) + wrap64 (seconds * 1000000000)).

(** The [switch *file.Name] of [getProjectType]: the first marker file. *)
Fixpoint classify (names : list (option string)) : string :=
  match names with
  | [] => ""
  | None :: rest => classify rest
  | Some name :: rest =>
      if String.eqb name "package.json" then "npm"
      else if String.eqb name "setup.py" then "pypi"
      else if String.eqb name "Cargo.toml" then "cargo"
      else if String.eqb name "pom.xml" then "maven"
      else if String.eqb name "build.gradle" then "gradle"
      else if String.eqb name "go.mod" then "go"
      else classify rest
  end.

(** [getProjectType(owner, repo)] against a server that answers the
    successive calls with [answers]: the project type and the trace.
    [goto attempt] starts over with the next answer; [None] when the
    answers run out while the function still retries. *)
Fixpoint getProjectType (answers : list Contents) : option (string * list Event) :=
  match answers with
  | [] => None
  | ContentsOk names :: _ => Some (classify names, [EvRequest])
  | ContentsErr status message :: rest =>
      let giveUp := Some ("", [EvRequest; EvPrint]) in
      match status with
      | Some code =>
          if (code =? 403)%Z then
            match findReset message with
            | Some (minutes, seconds) =>
                let d := waitTime (Atoi minutes) (Atoi seconds) in
                match getProjectType rest with
                | Some (type, evs) =>
                    Some (type, [EvRequest; EvPrint; EvPrint; EvSleep d] ++ evs)
                | None => None
                end
            | None => Some ("", [EvRequest; EvPrint; EvPrint])
            end
          else giveUp
      | None => giveUp
      end
  end.

(** The body of the loop of [Run] for one link whose project type is
    known to be [projectType]: whether the link is processed further
    ([getLatestVersion] and [queryDepsDev]) or skipped. *)
Definition processed (projectType : string) : bool :=
  negb (String.eqb projectType "").

End DepsDev.

(** ** package githubmetrics *)
Module GithubMetrics.

(** An error of the GitHub client: the typed [*github.RateLimitError],
    with the time left until [Rate.Reset] when it is handled (in
    nanoseconds, negative when the reset lies in the past), or any other. *)
Inductive GhError :=
| RateLimitError (untilReset : Z)
| OtherError.

(** [handleRateLimitError(err)], with what it prints. *)
Definition handleRateLimitError (err : GhError) : Z * list Event :=
  match err with
  | RateLimitError untilReset => (untilReset, [EvPrint])
  | OtherError => (0%Z, [])
  end.

(** One of the three fetches of [Run]: the call, and after a rate-limit
    error with a positive wait, the sleep and the second call.  [first]
    and [second] are the server's answers to the two calls. *)
Definition fetch {A : Type} (first second : GhError + A) : (GhError + A) * list Event :=
  match first with
  | inr v => (inr v, [EvRequest])
  | inl err =>
      let '(wait, printed) := handleRateLimitError err in
      if (0 <? wait)%Z
      then (second, [EvRequest] ++ printed ++ [EvSleep wait; EvRequest])
      else (inl err, [EvRequest] ++ printed)
  end.

Record GitHubStats := mkGitHubStats {
  StarCount : Z;
  ForkCount : Z;
  CreatedSince : Z;
  UpdatedSince : Z;
  ContributorCount : Z;
  CommitFrequency : Z
}.

(** What [Repositories.Get] returns, as far as [Run] reads it. *)
Record Repository := mkRepository {
  StargazersCount : Z;
  ForksCount : Z;
  CreatedAt : Z;
  UpdatedAt : Z
}.

(** The server's answers to the (at most six) calls of one [Run]. *)
Record Answers := mkAnswers {
  repo1 : GhError + Repository;
  repo2 : GhError + Repository;
  contributors1 : GhError + Z;   (* the number of contributors listed *)
  contributors2 : GhError + Z;
  commits1 : GhError + Z;        (* the number of commits listed *)
  commits2 : GhError + Z
}.

(** [Run(ctx, db, owner, repo, config)]: the statistics handed to
    [updateDatabase], and the trace. *)
Definition Run (a : Answers) : GitHubStats * list Event :=
  let '(repoInfo, ev1) := fetch (repo1 a) (repo2 a) in
  let '(star, fork, created, updated, ev1) :=
    match repoInfo with
    | inr r => (StargazersCount r, ForksCount r, CreatedAt r, UpdatedAt r, ev1)
    | inl _ => (0, 0, 0, 0, ev1 ++ [EvPrint])%Z
    end in
  let '(contributors, ev2) := fetch (contributors1 a) (contributors2 a) in
  let '(contributorCount, ev2) :=
    match contributors with
    | inr n => (n, ev2)
    | inl _ => (0%Z, ev2 ++ [EvPrint])
    end in
  let '(commits, ev3) := fetch (commits1 a) (commits2 a) in
  let '(commitFrequency, ev3) :=
    match commits with
    | inr n => ((n ÷ 52)%Z, ev3)
    | inl _ => (0%Z, ev3 ++ [EvPrint])
    end in
  (mkGitHubStats star fork created updated contributorCount commitFrequency,
   ev1 ++ ev2 ++ ev3 ++ [EvUpdate]).

End GithubMetrics.

(** ** The vocabulary of the properties *)

(** Both closure functions are the same depth-first traversal, over two
    different successor functions.  The traversal is stated once, over an
    arbitrary successor function [succ]; the two Go functions are shown
    below to be instances of it. *)
Section TraversalDefs.
Variable succ : string → list string.

Fixpoint dfs (fuel : nat) (p : string) (st : VisitState) : option VisitState :=
  match fuel with
  | O => None
  | S fuel' =>
      if bool_at st.1 p then Some st
      else for_range (dfs fuel') (succ p) (<[p := true]> st.1, st.2 ++ [p])
  end.

Definition edge (u v : string) : Prop := v ∈ succ u.

(** What one call of the traversal guarantees about the state it returns. *)
Record dfs_post (p : string) (st st' : VisitState) : Prop := {
  post_mono : ∀ k, bool_at st.1 k = true → bool_at st'.1 k = true;
  post_root : bool_at st'.1 p = true;
  post_deps : ∃ new, st'.2 = st.2 ++ new ∧ NoDup new ∧
                ∀ k, k ∈ new ↔ bool_at st.1 k = false ∧ bool_at st'.1 k = true;
  post_closed : ∀ u w, bool_at st.1 u = false → bool_at st'.1 u = true →
                edge u w → bool_at st'.1 w = true;
  post_sound : ∀ u, bool_at st.1 u = false → bool_at st'.1 u = true →
                rtc edge p u
}.

(** What a loop of traversals from the names of [l] guarantees. *)
Record loop_post (l : list string) (st st' : VisitState) : Prop := {
  loop_mono : ∀ k, bool_at st.1 k = true → bool_at st'.1 k = true;
  loop_roots : ∀ w, w ∈ l → bool_at st'.1 w = true;
  loop_deps : ∃ new, st'.2 = st.2 ++ new ∧ NoDup new ∧
                ∀ k, k ∈ new ↔ bool_at st.1 k = false ∧ bool_at st'.1 k = true;
  loop_closed : ∀ u w, bool_at st.1 u = false → bool_at st'.1 u = true →
                edge u w → bool_at st'.1 w = true;
  loop_sound : ∀ u, bool_at st.1 u = false → bool_at st'.1 u = true →
                ∃ r, r ∈ l ∧ rtc edge r u
}.

(** The names of a finite universe [U] that are not yet visited. *)
Definition unvisited (U : gset string) (visited : gmap string bool) : nat :=
  size (filter (λ k, bool_at visited k = false) U).

End TraversalDefs.

(** Every key of an Alpine index is the name of the record stored under it
    ([getPackageList] stores [pkg] at [packageList[pkg.PackageName]]). *)
Definition alpine_keyed (packages : gmap string Alpine.PackageInfo) : Prop :=
  ∀ k pkg, packages !! k = Some pkg → Alpine.PackageName pkg = k.

(** The out-neighbours [GetAllDependencies] follows: the depends tokens
    that are packages of the index. *)
Definition alpine_succ (packages : gmap string Alpine.PackageInfo) (u : string)
  : list string :=
  match packages !! u with
  | Some pkg => List.filter (exists_in packages) (Alpine.Depends pkg)
  | None => []
  end.

(** The out-neighbours [getAllDep] follows: every required name. *)
Definition centos_succ (m : gmap string Centos.PackageInfo) (u : string)
  : list string :=
  match m !! u with
  | Some pkg => Centos.Depends pkg
  | None => []
  end.

(** The intra-index graph [G = (V, E)] of the specification:
    [E = {(u, v) | v ∈ depends(u) ∧ v ∈ V}]. *)
Definition in_index_edge {PackageInfo : Type} (Depends : PackageInfo → list string)
    (m : gmap string PackageInfo) (u v : string) : Prop :=
  ∃ pkg, m !! u = Some pkg ∧ v ∈ Depends pkg ∧ is_Some (m !! v).

(** The edges of the raw graph: [v] is listed by the package [u], whether
    [v] is a package of the index or not. *)
Definition listed_edge {PackageInfo : Type} (Depends : PackageInfo → list string)
    (m : gmap string PackageInfo) (u v : string) : Prop :=
  ∃ pkg, m !! u = Some pkg ∧ v ∈ Depends pkg.

(** A Go slice has an [int] length, and a Go map an [int] size. *)
Definition representable {PackageInfo : Type} (Depends : PackageInfo → list string)
    (m : gmap string PackageInfo) : Prop :=
  (Z.of_nat (size m) < 2 ^ 63)%Z ∧
  ∀ k pkg, m !! k = Some pkg → (Z.of_nat (length (Depends pkg)) < 2 ^ 63)%Z.

(** The number of occurrences of [v] in [l]. *)
Definition occ (v : string) (l : list string) : Z :=
  Z.of_nat (length (List.filter (String.eqb v) l)).

(** The total number of occurrences of [v] in the lists of [entries]. *)
Definition occurrences (v : string) (entries : list (string * list string)) : Z :=
  foldr (λ entry n, (occ v entry.2 + n)%Z) 0%Z entries.

(** The edges [storeAllDependencies] tries to insert, in order. *)
Definition listed_edges {PackageInfo : Type} (Depends : PackageInfo → list string)
    (entries : list (string * PackageInfo)) : Relationships :=
  flat_map (λ entry, pair entry.1 <$> Depends entry.2) entries.

(** The sum of the ranks of a map. *)
Definition rank_sum (m : gmap string Qc) : Qc :=
  map_fold (λ _ x acc, (x + acc)%Qc) 0%Qc m.


(** ** The inputs of the scenarios, and further vocabulary *)

Definition alpinePkg (name : string) (depends : list string) : Alpine.PackageInfo :=
  Alpine.mkPackageInfo 0 "" "" 0%float "" name depends.

Definition centosPkg (name : string) (depends : list string) : Centos.PackageInfo :=
  Centos.mkPackageInfo depends 0 "" "" "" name 0%float "" "".

(** S2: the cycle [{A→B, B→A}]. *)
Definition alpineCycle : gmap string Alpine.PackageInfo :=
  <["A" := alpinePkg "A" ["B"]]> (<["B" := alpinePkg "B" ["A"]]> ∅).

Definition centosCycle : gmap string Centos.PackageInfo :=
  <["A" := centosPkg "A" ["B"]]> (<["B" := centosPkg "B" ["A"]]> ∅).

(** The same cycle, as the text of an APKINDEX. *)
Definition cycleText : string :=
  "P:A" +:+ Alpine.newline +:+ "D:B" +:+ Alpine.newline +:+ Alpine.newline +:+
  "P:B" +:+ Alpine.newline +:+ "D:A" +:+ Alpine.newline.

(** S1: the chain [{A→B}], as the text of an APKINDEX. *)
Definition chainText : string :=
  "P:A" +:+ Alpine.newline +:+ "D:B" +:+ Alpine.newline +:+ Alpine.newline +:+
  "P:B" +:+ Alpine.newline.

(** S4: a record whose depends line lists [B] twice. *)
Definition twiceText : string :=
  "P:A" +:+ Alpine.newline +:+ "D:B B" +:+ Alpine.newline +:+ Alpine.newline +:+
  "P:B" +:+ Alpine.newline.

(** S3: the dangling edge [{A→X}], [X] not in the index. *)
Definition alpineDangling : gmap string Alpine.PackageInfo :=
  <["A" := alpinePkg "A" ["X"]]> ∅.

Definition centosDangling : gmap string Centos.PackageInfo :=
  <["A" := centosPkg "A" ["X"]]> ∅.

(** The byte [c] does not occur in [s]. *)
Fixpoint no_byte (c : ascii) (s : string) : bool :=
  match s with
  | EmptyString => true
  | String b s' => negb (Ascii.eqb c b) && no_byte c s'
  end.

(** A string of [n] copies of the byte [c]. *)
Fixpoint repeat_byte (c : ascii) (n : nat) : string :=
  match n with
  | O => EmptyString
  | S n' => String c (repeat_byte c n')
  end.

(** An APKINDEX with one entry, whose description [T:] has 300 bytes. *)
Definition longDescription : string := repeat_byte "x" 300.

Definition longEntry : string :=
  "P:a" +:+ Alpine.newline +:+ "T:" +:+ longDescription +:+ Alpine.newline.

(** The records of the index text, in the order of the text. *)
Definition alpineRecords (data : string) : list Alpine.PackageInfo :=
  Alpine.parseEntry <$> Split data (Alpine.newline +:+ Alpine.newline).

(** The records of the [rpm] packages, in the order of the document. *)
Definition centosRecords (doc : list Centos.DocToken) : list Centos.PackageInfo :=
  omap (λ tok, match tok with
               | Centos.PackageElement type _ toks =>
                   if String.eqb type "rpm" then Centos.parsePackageXML toks else None
               | _ => None
               end) doc.

Definition named_alpine (k : string) (pkg : Alpine.PackageInfo) : bool :=
  String.eqb (Alpine.PackageName pkg) k.

Definition named_centos (k : string) (pkg : Centos.PackageInfo) : bool :=
  String.eqb (Centos.Name pkg) k.

(** An APKINDEX with two entries of the same name. *)
Definition duplicateEntries : string :=
  "P:a" +:+ Alpine.newline +:+ "V:1" +:+ Alpine.newline +:+ Alpine.newline +:+
  "P:a" +:+ Alpine.newline +:+ "V:2" +:+ Alpine.newline.

(** The inner XML of a package with the name [name] and the URL [url],
    as primary.xml lays it out: a line feed, then one line for each
    element, indented by two spaces. *)
Definition innerXml (name url : string) : string :=
  lineFeed +:+ "  <name>" +:+ name +:+ "</name>" +:+ lineFeed +:+
  "  <url>" +:+ url +:+ "</url>" +:+ lineFeed.

(** An [rpm] package with the name [name] and the URL [url]. *)
Definition rpmPackage (name url : string) : Centos.DocToken :=
  Centos.PackageElement "rpm" (innerXml name url)
    [Centos.StartName name; Centos.StartUrl url].

(** Two [rpm] packages named [a], with the URLs [first] and [second]. *)
Definition duplicatePackages : list Centos.DocToken :=
  [Centos.DocOther; rpmPackage "a" "first"; rpmPackage "a" "second"].

(** The log of divisors holds no number below 1. *)
Definition positive_log {F : Type} (st : RankState (F := F)) : Prop :=
  Forall (λ k, 1 ≤ k)%Z st.2.

(** Every byte of [s] satisfies [p]. *)
Fixpoint all_bytes (p : ascii → bool) (s : string) : bool :=
  match s with
  | EmptyString => true
  | String c s' => p c && all_bytes p s'
  end.

(** [s] starts with a byte that does not satisfy [p], or is empty. *)
Definition stops (p : ascii → bool) (s : string) : bool :=
  match s with
  | EmptyString => true
  | String c _ => negb (p c)
  end.

(** An owner or a repository name: not empty, no [/] and no white space. *)
Definition isSegment (s : string) : bool :=
  negb (String.eqb s "") && all_bytes GitMetricSync.segChar s.

(** The links of the package tables: the repository [O/R], once with and
    once without [.git]. *)
Definition twoLinks : gmap string bool :=
  <["https://github.com/O/R.git" := true]> (<["https://github.com/O/R" := true]> ∅).

(** An answer after which [getProjectType] sleeps and starts over: status
    403 and a message that holds [rate reset in <digits>m<digits>s]. *)
Definition retryable (a : DepsDev.Contents) : bool :=
  match a with
  | DepsDev.ContentsErr (Some code) message =>
      (code =? 403)%Z && bool_decide (is_Some (DepsDev.findReset message))
  | _ => false
  end.

(** The line [Final error fetching ...] that [githubmetrics.Run] prints
    when the answer a request ends with is an error. *)
Definition finalError {A : Type} (answer : GithubMetrics.GhError + A) : list Event :=
  match answer with
  | inl _ => [EvPrint]
  | inr _ => []
  end.

(** Three answers to [getProjectType]: rate-limited twice, then the files. *)
Definition limitedTwice : list DepsDev.Contents :=
  [DepsDev.ContentsErr (Some 403%Z) "403 API rate limit exceeded [rate reset in 1m2s]";
   DepsDev.ContentsErr (Some 403%Z) "403 API rate limit exceeded [rate reset in 0m5s]";
   DepsDev.ContentsOk [Some "README.md"; Some "go.mod"]].

(** The rational [n], for a natural number [n]. *)
Definition cnt (n : nat) : Qc := Q2Qc (inject_Z (Z.of_nat n)).

(** Every rank of the map is at least zero. *)
Definition nonneg_ranks (m : gmap string Qc) : Prop :=
  ∀ k v, m !! k = Some v → (0 ≤ v)%Qc.

Section MassVocabulary.
Context {PackageInfo : Type}.
Variable Depends : PackageInfo → list string.
Variable m : gmap string PackageInfo.

(** The out-degree of a package inside the index. *)
Definition outDegree (pkg : PackageInfo) : nat :=
  length (List.filter (exists_in m) (Depends pkg)).

(** No package of the index is dangling. *)
Definition no_dangling : Prop :=
  ∀ k pkg, m !! k = Some pkg → 0 < outDegree pkg.

(** What a package passes on in one round: [d * PR[p]], unless it is
    dangling. *)
Definition passed (d : Qc) (pageRank : gmap string Qc) (entry : string * PackageInfo) : Qc :=
  if decide (outDegree entry.2 = 0) then 0%Qc else (d * rank_at pageRank entry.1)%Qc.

Definition passed_sum (d : Qc) (pageRank : gmap string Qc)
    (entries : list (string * PackageInfo)) : Qc :=
  foldr (λ entry acc, (passed d pageRank entry + acc)%Qc) 0%Qc entries.

(** The sum of the ranks of the keys of [entries]. *)
Definition key_sum (pageRank : gmap string Qc) (entries : list (string * PackageInfo)) : Qc :=
  foldr (λ entry acc, (rank_at pageRank entry.1 + acc)%Qc) 0%Qc entries.

End MassVocabulary.

(** The rational number a finite float64 stands for. *)
Definition float_value (x : float) : option Q :=
  match Prim2SF x with
  | S754_zero _ => Some 0%Q
  | S754_finite s mant e =>
      Some ((if s then -1 else 1) * inject_Z (Zpos mant) * Qpower 2 e)%Q
  | _ => None
  end.

(** The sum of the ranks of a binary64 run, taken without rounding; none
    when a rank is infinite or not a number. *)
Definition float_sum (ranks : gmap string float) : option Q :=
  foldr (λ entry acc,
           match float_value entry.2, acc with
           | Some x, Some total => Some (x + total)%Q
           | _, _ => None
           end)
        (Some 0%Q) (map_to_list ranks).

(** The mass of the ranks in binary64 after 20 rounds with the damping
    factor 0.85, the loops run in the order of [map_to_list]: within
    [1e-6] of 1 when no package is dangling, at most 1 otherwise. *)
Definition mass_within_bounds {PackageInfo : Type} (Depends : PackageInfo → list string)
    (m : gmap string PackageInfo) : Prop :=
  ∃ total,
    float_sum (calculatePageRank (F := float) Depends m 20 Alpine.damping) = Some total ∧
    (no_dangling Depends m →
     (1 - (1 # 1000000) < total)%Q ∧ (total < 1 + (1 # 1000000))%Q) ∧
    (¬ no_dangling Depends m → (total <= 1)%Q).

(** * Part I, continued: the rest of the pipeline *)

(** ** More of Go's [strings] *)

(** [strings.HasPrefix(s, prefix)] *)
Definition HasPrefix (s prefix : string) : bool :=
  match strip_prefix prefix s with
  | Some _ => true
  | None => false
  end.

(** [strings.HasSuffix(s, suffix)]:
    [len(s) >= len(suffix) && s[len(s)-len(suffix):] == suffix] *)
Definition HasSuffix (s suffix : string) : bool :=
  (String.length suffix <=? String.length s) &&
  String.eqb (str_drop (String.length s - String.length suffix) s) suffix.

(** [strings.TrimSuffix(s, suffix)] *)
Definition TrimSuffix (s suffix : string) : string :=
  if HasSuffix s suffix then str_take (String.length s - String.length suffix) s
  else s.

(** ** package collector_depsdev: [Run] and [getLatestVersion] *)
Module DepsDevRun.

(** One element of [result.Versions], as far as [getLatestVersion] reads
    it: [VersionKey.Version], and [PublishedAt] as an instant, counted in
    nanoseconds from the zero [time.Time] (a missing [publishedAt]
    decodes to the zero time, 0). *)
Record VersionInfo := mkVersionInfo {
  Version : string;
  PublishedAt : Z
}.

(** The body of the loop of [getLatestVersion]:
    [if version.PublishedAt.After(latestDate) { ... }]. *)
Definition latestStep (st : string * Z) (version : VersionInfo) : string * Z :=
  let '(latestVersion, latestDate) := st in
  if (latestDate <? PublishedAt version)%Z
  then (Version version, PublishedAt version)
  else (latestVersion, latestDate).

(** [getLatestVersion(owner, repo, projectType)], from the answer of
    deps.dev on: [None] when the request fails, else the versions the body
    decodes to (none when it is not the expected JSON; the status code is
    not looked at). *)
Definition getLatestVersion (response : option (list VersionInfo)) : string :=
  match response with
  | None => ""
  | Some versions => (foldl latestStep ("", 0%Z) versions).1
  end.

(** The head of the loop body of [Run]: the owner and the repository a
    link is looked up under, or [None] when the link is skipped. *)
Definition linkTarget (link : string) : option (string * string) :=
  if HasPrefix link "https://github.com/" then
    let parts := Split link "/" in
    if (5 <=? length parts) then
      let owner := nth 3 parts "" in
      let repo := nth 4 parts "" in
      let repo := if HasSuffix repo ".git" then TrimSuffix repo ".git" else repo in
      Some (owner, repo)
    else None
  else None.

Section Run.
(** What the network answers: the successive answers of GitHub's
    [GetContents] for an owner and a repository, the answer of deps.dev
    for the versions of a package of a system, and the [dependentCount] of
    a version when deps.dev answers 200 with a body that decodes. *)
Variable contents : string → string → list DepsDev.Contents.
Variable packageVersions : string → string → option (list VersionInfo).
Variable dependentCount : string → string → string → option Z.

(** [updateDatabase(link, projectName, dependentCount)]:
    [UPDATE git_metrics SET depsdev_count = $1 WHERE git_link = $2]. *)
Definition updateDatabase (git_metrics : gmap string Z) (link : string) (count : Z)
  : gmap string Z :=
  alter (λ _, count) link git_metrics.

(** [queryDepsDev(link, projectType, projectName, version)] *)
Definition queryDepsDev (git_metrics : gmap string Z)
    (link projectType projectName version : string) : gmap string Z :=
  match dependentCount projectType projectName version with
  | Some count => updateDatabase git_metrics link count
  | None => git_metrics
  end.

(** The body of the loop [for _, link := range gitLinks]; [None] when
    [getProjectType] retries without end. *)
Definition runLink (link : string) (git_metrics : gmap string Z)
  : option (gmap string Z) :=
  match linkTarget link with
  | Some (owner, repo) =>
      match DepsDev.getProjectType (contents owner repo) with
      | Some (projectType, _) =>
          if negb (String.eqb projectType "") then
            let latestVersion := getLatestVersion (packageVersions projectType repo) in
            if negb (String.eqb latestVersion "") then
              Some (queryDepsDev git_metrics link projectType repo latestVersion)
            else Some git_metrics
          else Some git_metrics
      | None => None
      end
  | None => Some git_metrics
  end.

(** [Run], on the table [git_metrics] (from [git_link] to
    [depsdev_count]): the links are read first, then processed in turn. *)
Definition Run (git_metrics : gmap string Z) : option (gmap string Z) :=
  for_range runLink (map_to_list git_metrics).*1 git_metrics.

End Run.

End DepsDevRun.

(** ** The package tables: [updateOrInsertDatabase] *)
Module PackageTable.

(** A row of [alpine_packages] or [centos_packages], with the columns
    the collectors write. *)
Record Row := mkRow {
  package : string;
  depends_count : Z;
  description : string;
  homepage : string;
  page_rank : float;
  version : string
}.

Definition Table : Type := list Row.

(** [SELECT EXISTS(SELECT 1 FROM <distro>_packages WHERE package = $1)] *)
Definition selectExists (t : Table) (pkgName : string) : bool :=
  existsb (λ r, String.eqb (package r) pkgName) t.

Section Statements.
(** The constraints of the table on the values of a row (widths of the
    columns and the like).  The schema is not part of the sources, so the
    statements are modelled for any such constraint: a statement that
    would write a row the table does not accept fails and changes
    nothing. *)
Variable accepts : Row → bool.

(** [INSERT INTO <distro>_packages (package, depends_count, description,
    homepage, page_rank, version) VALUES ($1, $2, $3, $4, $5, $6)] *)
Definition execInsert (t : Table) (row : Row) : Table * option DbError :=
  if accepts row then (t ++ [row], None) else (t, Some OtherDbError).

(** [UPDATE <distro>_packages SET depends_count = $1, description = $2,
    homepage = $3, page_rank = $4, version = $5 WHERE package = $6] *)
Definition execUpdate (t : Table) (row : Row) : Table * option DbError :=
  if selectExists t (package row) && negb (accepts row) then (t, Some OtherDbError)
  else ((λ r, if String.eqb (package r) (package row) then row else r) <$> t, None).

Context {PackageInfo : Type}.
(** The values a collector writes for a package: the arguments of its two
    statements. *)
Variable toRow : string → PackageInfo → Row.

(** The body of the loop of [updateOrInsertDatabase]. *)
Definition upsert (t : Table) (pkgName : string) (pkgInfo : PackageInfo)
  : Table * option DbError :=
  let exists_ := selectExists t pkgName in
  if negb exists_ then execInsert t (toRow pkgName pkgInfo)
  else execUpdate t (toRow pkgName pkgInfo).

(** [updateOrInsertDatabase(pkgInfoMap)], over the entries of the map in
    the order the range yields them: it returns at the first error, with
    the rows written so far in place. *)
Fixpoint updateOrInsertDatabase (t : Table) (entries : list (string * PackageInfo))
  : Table * option DbError :=
  match entries with
  | [] => (t, None)
  | (pkgName, pkgInfo) :: rest =>
      match upsert t pkgName pkgInfo with
      | (t', None) => updateOrInsertDatabase t' rest
      | (t', Some err) => (t', Some err)
      end
  end.

End Statements.

(** The arguments of the statements of the Alpine collector. *)
Definition alpineRow (pkgName : string) (pkgInfo : Alpine.PackageInfo) : Row :=
  mkRow pkgName (Alpine.DependsCount pkgInfo) (Alpine.Description pkgInfo)
        (Alpine.Homepage pkgInfo) (Alpine.PageRank pkgInfo) (Alpine.Version pkgInfo).

(** The arguments of the statements of the CentOS collector: the
    [homepage] column gets [pkgInfo.URL]. *)
Definition centosRow (pkgName : string) (pkgInfo : Centos.PackageInfo) : Row :=
  mkRow pkgName (Centos.DependsCount pkgInfo) (Centos.Description pkgInfo)
        (Centos.URL pkgInfo) (Centos.PageRank pkgInfo) (Centos.Version pkgInfo).

End PackageTable.

(** ** cmd/database-migrator/main.go *)
Module Migrator.

(** An entry of the directory [migrations], as far as [main] looks at it:
    its name, whether it is a directory, and whether
    [migrations/<name>/migration.sql] exists and is not a directory. *)
Record DirEntry := mkDirEntry {
  EntryName : string;
  IsDir : bool;
  hasMigrationFile : bool
}.

Record MigrationItem := mkMigrationItem {
  Version : string;
  Name : string;
  FileName : string
}.

(** [\d{n}] at the start of [s]: the [n] digits and the rest. *)
Fixpoint takeDigits (n : nat) (s : string) : option (string * string) :=
  match n with
  | O => Some (EmptyString, s)
  | S n' =>
      match s with
      | String c s' =>
          if DepsDev.isDigit c then
            match takeDigits n' s' with
            | Some (digits, rest) => Some (String c digits, rest)
            | None => None
            end
          else None
      | EmptyString => None
      end
  end.

(** [reg.FindStringSubmatch(name)] for
    [^(\d{4}_\d{2}_\d{2}_\d{2})_(.+)$]: the two groups, or [None] when the
    name does not match.  [.] stands for any byte but a line feed, and
    without the multi-line flag [$] is the end of the name. *)
Definition matchName (name : string) : option (string * string) :=
  match takeDigits 4 name with
  | Some (year, r1) =>
    match strip_prefix "_" r1 with
    | Some r2 =>
      match takeDigits 2 r2 with
      | Some (month, r3) =>
        match strip_prefix "_" r3 with
        | Some r4 =>
          match takeDigits 2 r4 with
          | Some (day, r5) =>
            match strip_prefix "_" r5 with
            | Some r6 =>
              match takeDigits 2 r6 with
              | Some (number, r7) =>
                match strip_prefix "_" r7 with
                | Some rest =>
                    if negb (String.eqb rest "") && no_byte (ascii_of_nat 10) rest
                    then Some (year +:+ "_" +:+ month +:+ "_" +:+ day +:+ "_" +:+ number,
                               rest)
                    else None
                | None => None
                end
              | None => None
              end
            | None => None
            end
          | None => None
          end
        | None => None
        end
      | None => None
      end
    | None => None
    end
  | None => None
  end.

(** The body of the loop over the directory: the migration of an entry,
    or [None] when the entry is passed over. *)
Definition migrationOf (file : DirEntry) : option MigrationItem :=
  if negb (IsDir file) then None
  else if negb (hasMigrationFile file) then None
  else
    match matchName (EntryName file) with
    | Some (version, name) =>
        Some (mkMigrationItem version name
                ("migrations/" +:+ EntryName file +:+ "/migration.sql"))
    | None => None
    end.


(** The loop [for i, migration := range migrations { if migration.Version
    == lastVersion { fromIdx = i + 1; break } }], from the index [i] on;
    [fromIdx] stays 0 when no version is equal. *)
Fixpoint findFrom (i : nat) (migrations : list MigrationItem) (lastVersion : string)
  : nat :=
  match migrations with
  | [] => 0
  | migration :: rest =>
      if String.eqb (Version migration) lastVersion then i + 1
      else findFrom (i + 1) rest lastVersion
  end.

(** The rows [(version, name)] of [_migrations_history], by [id]. *)
Definition History : Type := list (string * string).

(** [SELECT version FROM _migrations_history ORDER BY id DESC LIMIT 1],
    and the empty string when there is no row (or no table). *)
Definition lastVersionOf (history : History) : string :=
  match last history with
  | Some (version, _) => version
  | None => ""
  end.

Section Main.
(** [os.ReadFile], whether the database executes the text of a migration,
    and whether it stores the row of a migration in the history. *)
Variable readFile : string → option string.
Variable execOk : string → bool.
Variable recordOk : MigrationItem → bool.

(** The state of the database: the history, and the files whose text was
    executed, in order. *)
Definition Db : Type := History * list string.

(** The loop [for i := fromIdx; i < len(migrations); i++], over the
    migrations that are left: [main] returns at the first failure. *)
Fixpoint applyMigrations (todo : list MigrationItem) (db : Db) : Db :=
  match todo with
  | [] => db
  | migration :: rest =>
      match readFile (FileName migration) with
      | None => db
      | Some file =>
          if execOk file then
            let db := (db.1, db.2 ++ [FileName migration]) in
            if recordOk migration
            then applyMigrations rest
                   (db.1 ++ [(Version migration, Name migration)], db.2)
            else db
          else db
      end
  end.

(** [main], from the migrations found and the history on; [confirm] is
    the line the user types. *)
Definition main (migrations : list MigrationItem) (history : History)
    (confirm : string) : Db :=
  let lastVersion := lastVersionOf history in
  let fromIdx := findFrom 0 migrations lastVersion in
  if negb (String.eqb lastVersion "") && (fromIdx =? 0) then (history, [])
  else if fromIdx =? length migrations then (history, [])
  else if negb (String.eqb confirm "y") then (history, [])
  else applyMigrations (drop fromIdx migrations) (history, []).

End Main.

End Migrator.

(** ** [generateDependencyGraph]

    The function is the same text in alpine.go and centos.go, up to the
    receiver; it is written once, over the record type and the two fields
    it reads. *)
Module DotGraph.

Definition quote : string := String (ascii_of_nat 34) EmptyString.

Section Graph.
Context {PackageInfo : Type}.
Variable Depends : PackageInfo → list string.
Variable Description : PackageInfo → string.

(** [fmt.Sprintf("  %d [label=\"%s\"];\n", index, label)], where [label]
    is [fmt.Sprintf("%s@%s", pkgName, pkgInfo.Description)]. *)
Definition nodeLine (index : Z) (pkgName : string) (pkgInfo : PackageInfo) : string :=
  "  " +:+ pretty index +:+ " [label=" +:+ quote +:+
  (pkgName +:+ "@" +:+ Description pkgInfo) +:+ quote +:+ "];" +:+ lineFeed.

(** [fmt.Sprintf("  %d -> %d;\n", pkgIndex, depIndex)] *)
Definition edgeLine (pkgIndex depIndex : Z) : string :=
  "  " +:+ pretty pkgIndex +:+ " -> " +:+ pretty depIndex +:+ ";" +:+ lineFeed.

(** The state of the first loop: [packageIndices], [index], and the
    strings written so far. *)
Definition NodeState : Type := gmap string Z * Z * list string.

(** The body of the first loop. *)
Definition nodeStep (st : NodeState) (entry : string * PackageInfo) : NodeState :=
  let '(packageIndices, index, out) := st in
  (<[entry.1 := index]> packageIndices, int_incr index,
   out ++ [nodeLine index entry.1 entry.2]).

(** The body of the second loop. *)
Definition edgeStep (packageIndices : gmap string Z) (out : list string)
    (entry : string * PackageInfo) : list string :=
  let pkgIndex := int_at packageIndices entry.1 in
  foldl (λ out depName,
           match packageIndices !! depName with
           | Some depIndex => out ++ [edgeLine pkgIndex depIndex]
           | None => out
           end)
        out (Depends entry.2).

(** [generateDependencyGraph(pkgInfoMap, outputPath)]: the strings handed
    to [writer.WriteString], in order; the file holds them one after the
    other.  The two loops range over the map, each in an order of its own
    that Go leaves open: [nodeOrder] and [edgeOrder] are the entries of
    [pkgInfoMap] in the order of the first and of the second loop. *)
Definition generateDependencyGraph (nodeOrder edgeOrder : list (string * PackageInfo))
  : list string :=
  let '(packageIndices, _, out) :=
    foldl nodeStep (∅, 0%Z, ["digraph {" +:+ lineFeed]) nodeOrder in
  foldl (edgeStep packageIndices) out edgeOrder ++ ["}" +:+ lineFeed].

End Graph.

End DotGraph.

(** ** pkg/gitmetricsync/gitmetricsync.go: [fetchGitLinks] and [Run] *)
Module GitMetricSyncRun.

(** [githubRegex.MatchString(s)] for
    [https?://github\.com/[^\s/]+/[^\s/]+], the expression of
    [syncGitMetrics] without its group: whether it matches somewhere. *)
Definition MatchString (s : string) : bool :=
  match GitMetricSync.FindStringSubmatch s with
  | [] => false
  | _ :: _ => true
  end.

(** The body of the loop over the rows of one table; a [git_link] is
    [None] when the column is NULL. *)
Definition addLink (gitLinks : gmap string bool) (gitLink : option string)
  : gmap string bool :=
  match gitLink with
  | Some s => if MatchString s then <[s := true]> gitLinks else gitLinks
  | None => gitLinks
  end.

(** [fetchGitLinks(db)], from the [git_link] columns of the tables
    [debian_packages] and [arch_packages], in this order. *)
Definition fetchGitLinks (tables : list (list (option string))) : gmap string bool :=
  foldl (λ gitLinks rows, foldl addLink gitLinks rows) ∅ tables.

(** [Run(configPath)], from the open database on. *)
Definition Run (queryDepsDev : string → string → string → Z)
    (git_metrics : gmap string Z) (debian_packages arch_packages : list (option string))
  : gmap string Z :=
  let gitLinks := fetchGitLinks [debian_packages; arch_packages] in
  GitMetricSync.syncGitMetrics queryDepsDev git_metrics gitLinks.

End GitMetricSyncRun.


(** ** Further inputs and vocabulary *)

(** Two runs of the persister: [A] lists [B], and later [B] and [C]. *)
Definition firstRun : list (string * Alpine.PackageInfo) :=
  [("A", alpinePkg "A" ["B"])].

Definition secondRun : list (string * Alpine.PackageInfo) :=
  [("A", alpinePkg "A" ["B"; "C"])].

(** The records of [A] and [B] after [Collect] ran on the cycle. *)
Definition alpineCycleAfter (k : string) : Alpine.PackageInfo :=
  default Alpine.zeroPackageInfo ((Alpine.Collect alpineCycle []).1 !! k).

Definition centosCycleAfter (k : string) : Centos.PackageInfo :=
  default Centos.zeroPackageInfo ((Centos.Collect centosCycle []).1 !! k).

(** A byte that is not white space for [strings.Fields]. *)
Definition nonSpace (c : ascii) : bool := negb (asciiSpace c).

(** A dependency token without [=] and without white space. *)
Definition cleanToken (t : string) : bool :=
  no_byte "=" t && all_bytes nonSpace t.

Definition isUpdate (e : Event) : bool :=
  match e with EvUpdate => true | _ => false end.

(** The number of database updates in a trace. *)
Definition updates (evs : list Event) : nat := length (List.filter isUpdate evs).

(** A network in which every repository holds a [go.mod], every package
    has the versions [v1] and [v2], and every version has 7 dependents. *)
Definition goContents (owner repo : string) : list DepsDev.Contents :=
  [DepsDev.ContentsOk [Some "README.md"; Some "go.mod"]].

Definition twoVersions (projectType repo : string)
  : option (list DepsDevRun.VersionInfo) :=
  Some [DepsDevRun.mkVersionInfo "v1" 5; DepsDevRun.mkVersionInfo "v2" 9].

Definition sevenDependents (projectType projectName version : string) : option Z :=
  Some 7%Z.

(** A table with one row, for the repository [O/R]. *)
Definition oneRow : gmap string Z := <["https://github.com/O/R" := 0%Z]> ∅.

(** A table that accepts every row, and the rows of the cycle of S2 in it. *)
Definition acceptAll (row : PackageTable.Row) : bool := true.

Definition cycleRows : PackageTable.Table :=
  (PackageTable.updateOrInsertDatabase acceptAll PackageTable.alpineRow []
     (map_to_list alpineCycle)).1.

(** The row of a migration in the history. *)
Definition historyRow (migration : Migrator.MigrationItem) : string * string :=
  (Migrator.Version migration, Migrator.Name migration).





(** The decoder of [parsePackageXML] reports no error on these tokens. *)
Definition decodes (toks : list Centos.XmlToken) : bool :=
  forallb (λ tok, match tok with Centos.TokenError => false | _ => true end) toks.

(** A token of the document after which [getDependencies] reads on. *)
Definition passes (tok : Centos.DocToken) : bool :=
  match tok with
  | Centos.PackageElement type xml toks =>
      negb (String.eqb type "rpm") || (negb (String.eqb xml "") && decodes toks)
  | Centos.DocOther => true
  | Centos.PackageElementError => false
  | Centos.DocError => false
  end.

(** How [getDependencies] ends at a token after which it does not read on. *)
Definition endsAt (tok : Centos.DocToken) : Centos.Outcome (gmap string Centos.PackageInfo) :=
  match tok with
  | Centos.PackageElement _ xml _ =>
      if String.eqb xml "" then Centos.Panics else Centos.ReturnsError
  | _ => Centos.ReturnsError
  end.


(** * Part II: the properties *)

(** ** The depth-first traversal *)
Section Traversal.
Variable succ : string → list string.

Lemma bool_at_insert (v : gmap string bool) p k :
  bool_at (<[p := true]> v) k = if decide (p = k) then true else bool_at v k.
Proof.
  unfold bool_at. rewrite lookup_insert. by case_decide.
Qed.

Lemma unvisited_mono U (v v' : gmap string bool) :
  (∀ k, bool_at v k = true → bool_at v' k = true) →
  unvisited U v' ≤ unvisited U v.
Proof.
  intros Hm. apply subseteq_size. intros k.
  rewrite !elem_of_filter. intros [Hk ?]. split; [|done].
  destruct (bool_at v k) eqn:E; [|done]. by rewrite (Hm k E) in Hk.
Qed.

Lemma unvisited_insert U (v : gmap string bool) p :
  p ∈ U → bool_at v p = false →
  unvisited U (<[p := true]> v) < unvisited U v.
Proof.
  intros HU Hp. apply subset_size. apply strict_spec_alt; split.
  - intros k. rewrite !elem_of_filter, bool_at_insert.
    intros [Hk ?]. split; [|done]. by destruct (decide (p = k)).
  - intros Heq. assert (p ∈ filter (λ k, bool_at v k = false) U) as Hin
      by (apply elem_of_filter; done).
    rewrite <- Heq in Hin. apply elem_of_filter in Hin as [Hin _].
    rewrite bool_at_insert in Hin. by case_decide.
Qed.

Lemma loop_post_nil st : loop_post succ [] st st.
Proof.
  split; try done.
  - intros w Hw. by apply elem_of_nil in Hw.
  - exists []. rewrite app_nil_r. split; [done|]. split; [constructor|].
    intros k. split; [by intros ?%elem_of_nil|]. intros [? ?]; congruence.
  - intros u w ? ?; congruence.
  - intros u ? ?; congruence.
Qed.

Lemma loop_post_cons w l st st1 st' :
  dfs_post succ w st st1 → loop_post succ l st1 st' → loop_post succ (w :: l) st st'.
Proof.
  intros [Hm0 Hr0 (new0 & Hd0 & Hn0 & Hk0) Hc0 Hs0]
         [Hm1 Hr1 (new1 & Hd1 & Hn1 & Hk1) Hc1 Hs1].
  split.
  - eauto.
  - intros x [->|Hx]%elem_of_cons; eauto.
  - exists (new0 ++ new1). split; [by rewrite Hd1, Hd0, app_assoc|].
    split.
    + apply NoDup_app. split; [done|]. split; [|done].
      intros k Hin0 Hin1. apply Hk0 in Hin0 as [_ Hv]. apply Hk1 in Hin1 as [Hu _].
      congruence.
    + intros k. rewrite elem_of_app, Hk0, Hk1. split.
      * intros [[? ?]|[Hu ?]]; [eauto|]. split; [|done].
        destruct (bool_at st.1 k) eqn:E; [|done]. by rewrite (Hm0 k E) in Hu.
      * intros [? ?]. destruct (bool_at st1.1 k) eqn:E; eauto.
  - intros u x Hu Hv He. destruct (bool_at st1.1 u) eqn:E; eauto.
  - intros u Hu Hv. destruct (bool_at st1.1 u) eqn:E.
    + exists w. split; [left|]. eauto.
    + destruct (Hs1 u E Hv) as (r & Hr & Hreach). exists r. split; [by right|done].
Qed.

Lemma dfs_post_visited p st : bool_at st.1 p = true → dfs_post succ p st st.
Proof.
  intros Hp. split; try done.
  - exists []. rewrite app_nil_r. split; [done|]. split; [constructor|].
    intros k. split; [by intros ?%elem_of_nil|]. intros [? ?]; congruence.
  - intros u w ? ?; congruence.
  - intros u ? ?; congruence.
Qed.

Lemma dfs_post_enter p st st' :
  bool_at st.1 p = false →
  loop_post succ (succ p) (<[p := true]> st.1, st.2 ++ [p]) st' →
  dfs_post succ p st st'.
Proof.
  intros Hp [Hm Hr (new & Hd & Hn & Hk) Hc Hs]. simpl in *.
  assert (bool_at st'.1 p = true) as Hp'
    by (apply Hm; rewrite bool_at_insert; by case_decide).
  split.
  - intros k Hv. apply Hm. rewrite bool_at_insert. by case_decide.
  - done.
  - exists (p :: new). split; [by rewrite Hd, <- app_assoc|]. split.
    + constructor; [|done]. intros [Hu _]%Hk.
      rewrite bool_at_insert in Hu. by case_decide.
    + intros k. rewrite elem_of_cons, Hk, bool_at_insert. split.
      * intros [->|[Hu ?]]; [done|]. by case_decide.
      * intros [? ?]. case_decide; [left; done|right; done].
  - intros u w Hu Hv He. destruct (decide (p = u)) as [->|Hne].
    + by apply Hr.
    + apply (Hc u w); [|done..]. rewrite bool_at_insert. by case_decide.
  - intros u Hu Hv. destruct (decide (p = u)) as [->|Hne]; [done|].
    destruct (Hs u) as (r & Hr' & Hreach); [|done|].
    + rewrite bool_at_insert. by case_decide.
    + by eapply rtc_l.
Qed.

(** A finite set of names closed under [succ]: the traversal never leaves
    it, and every call that enters a name visits one more of its names. *)
Variable U : gset string.
Hypothesis U_closed : ∀ u w, u ∈ U → w ∈ succ u → w ∈ U.

Lemma for_range_dfs_spec fuel :
  (∀ p st, p ∈ U → unvisited U st.1 < fuel →
     ∃ st', dfs succ fuel p st = Some st' ∧ dfs_post succ p st st') →
  ∀ l st, (∀ w, w ∈ l → w ∈ U) → unvisited U st.1 < fuel →
     ∃ st', for_range (dfs succ fuel) l st = Some st' ∧ loop_post succ l st st'.
Proof.
  intros IH l. induction l as [|w l IHl]; intros st Hl Hfuel.
  - exists st. split; [done|apply loop_post_nil].
  - destruct (IH w st) as (st1 & Hrun & Hpost); [apply Hl; left|done|].
    destruct (IHl st1) as (st' & Hrun' & Hpost').
    + intros x Hx. apply Hl. by right.
    + pose proof (unvisited_mono U st.1 st1.1 (post_mono _ _ _ _ Hpost)). lia.
    + exists st'. simpl. rewrite Hrun. split; [done|].
      by eapply loop_post_cons.
Qed.

Lemma dfs_spec fuel : ∀ p st,
  p ∈ U → unvisited U st.1 < fuel →
  ∃ st', dfs succ fuel p st = Some st' ∧ dfs_post succ p st st'.
Proof.
  induction fuel as [|fuel IH]; intros p st Hp Hfuel; [lia|].
  simpl. destruct (bool_at st.1 p) eqn:E.
  - exists st. split; [done|by apply dfs_post_visited].
  - destruct (for_range_dfs_spec fuel IH (succ p)
                (<[p := true]> st.1, st.2 ++ [p])) as (st' & Hrun & Hpost).
    + intros w Hw. by eapply U_closed.
    + simpl. pose proof (unvisited_insert U st.1 p Hp E). lia.
    + exists st'. split; [done|by apply dfs_post_enter].
Qed.

(** Started with nothing visited and with more fuel than [U] has names,
    the traversal returns each name reachable from the root once, and
    nothing else. *)
Lemma dfs_from_empty fuel p :
  p ∈ U → size U < fuel →
  ∃ st', dfs succ fuel p (∅, []) = Some st' ∧ NoDup st'.2 ∧
         ∀ x, x ∈ st'.2 ↔ rtc (edge succ) p x.
Proof.
  intros Hp Hfuel.
  destruct (dfs_spec fuel p (∅, [])) as (st' & Hrun & Hpost); [done|..].
  { unfold unvisited. simpl.
    pose proof (subseteq_size (filter (λ k, bool_at ∅ k = false) U) U) as Hle.
    specialize (Hle ltac:(intros k [_ ?]%elem_of_filter; done)). lia. }
  exists st'. split; [done|].
  destruct Hpost as [_ Hroot (new & Hdeps & Hnodup & Hnew) Hcl Hsound].
  simpl in *. subst new. split; [done|].
  intros x. rewrite Hnew. split.
  - intros [? ?]. by apply Hsound.
  - intros Hreach. split; [done|].
    assert (∀ a b, rtc (edge succ) a b →
              bool_at st'.1 a = true → bool_at st'.1 b = true) as Hinv.
    { clear -Hcl. intros a b Hab. induction Hab as [|u w z Hedge _ IH]; [done|].
      intros Hu. apply IH. by apply (Hcl u w). }
    by apply (Hinv p x).
Qed.

End Traversal.

(** The budget only bounds the recursion: a larger one changes no result. *)
Lemma for_range_ext {A S : Type} (f g : A → S → option S) l :
  (∀ x s r, x ∈ l → f x s = Some r → g x s = Some r) →
  ∀ s r, for_range f l s = Some r → for_range g l s = Some r.
Proof.
  induction l as [|x l IH]; intros Hfg s r; [done|]. simpl.
  destruct (f x s) as [s'|] eqn:E; [|done].
  rewrite (Hfg x s s'); [|left|done]. apply IH.
  intros y t q Hy. apply Hfg. by right.
Qed.

Lemma dfs_fuel_mono succ fuel fuel' p st r :
  fuel ≤ fuel' → dfs succ fuel p st = Some r → dfs succ fuel' p st = Some r.
Proof.
  revert fuel' p st r. induction fuel as [|fuel IH]; intros fuel' p st r Hle; [done|].
  destruct fuel' as [|fuel']; [lia|]. simpl.
  destruct (bool_at st.1 p); [done|].
  apply for_range_ext. intros x s q _. apply IH. lia.
Qed.

(** ** The Alpine closure is the traversal of the intra-index graph *)

Lemma alpine_loop_refines packages fuel :
  alpine_keyed packages →
  (∀ pkg st, packages !! Alpine.PackageName pkg = Some pkg →
     Alpine.GetAllDependencies fuel packages pkg st
     = dfs (alpine_succ packages) fuel (Alpine.PackageName pkg) st) →
  ∀ l st,
    for_range (λ depName st,
        match packages !! depName with
        | Some depPkg => Alpine.GetAllDependencies fuel packages depPkg st
        | None => Some st
        end) l st
    = for_range (dfs (alpine_succ packages) fuel)
        (List.filter (exists_in packages) l) st.
Proof.
  intros Hk IH l. induction l as [|d l IHl]; intros st; [done|].
  simpl. unfold exists_in at 1. destruct (packages !! d) as [depPkg|] eqn:E.
  - rewrite bool_decide_eq_true_2 by eauto. simpl.
    pose proof (Hk _ _ E) as Hname. rewrite IH by (by rewrite Hname).
    rewrite Hname. destruct (dfs _ _ _ _); [apply IHl|done].
  - rewrite bool_decide_eq_false_2 by (intros [? ?]; congruence). apply IHl.
Qed.

Lemma GetAllDependencies_dfs packages fuel :
  alpine_keyed packages →
  ∀ pkg st, packages !! Alpine.PackageName pkg = Some pkg →
    Alpine.GetAllDependencies fuel packages pkg st
    = dfs (alpine_succ packages) fuel (Alpine.PackageName pkg) st.
Proof.
  intros Hk. induction fuel as [|fuel IH]; intros pkg [visited deps] Hin; [done|].
  simpl. destruct (bool_at visited (Alpine.PackageName pkg)); [done|].
  rewrite (alpine_loop_refines packages fuel Hk IH).
  replace (alpine_succ packages (Alpine.PackageName pkg))
    with (List.filter (exists_in packages) (Alpine.Depends pkg)); [done|].
  unfold alpine_succ. by rewrite Hin.
Qed.

Lemma alpine_edge packages u v :
  edge (alpine_succ packages) u v ↔ in_index_edge Alpine.Depends packages u v.
Proof.
  unfold edge, alpine_succ, in_index_edge, exists_in. split.
  - destruct (packages !! u) as [pkg|]; [|by intros ?%elem_of_nil].
    rewrite list_elem_of_In, filter_In, <- list_elem_of_In, bool_decide_eq_true.
    intros [? ?]. by exists pkg.
  - intros (pkg & -> & Hin & Hv).
    rewrite list_elem_of_In, filter_In, <- list_elem_of_In, bool_decide_eq_true.
    done.
Qed.

Lemma alpine_succ_in_dom packages u w :
  u ∈ dom packages → w ∈ alpine_succ packages u → w ∈ dom packages.
Proof.
  intros _ Hw. apply alpine_edge in Hw as (pkg & _ & _ & Hw). by apply elem_of_dom.
Qed.

Lemma alpine_closure_spec packages pkg :
  alpine_keyed packages → packages !! Alpine.PackageName pkg = Some pkg →
  ∃ deps, Alpine.closure packages pkg = Some deps ∧ NoDup deps ∧
          ∀ x, x ∈ deps ↔
               rtc (in_index_edge Alpine.Depends packages) (Alpine.PackageName pkg) x.
Proof.
  intros Hk Hin. unfold Alpine.closure. rewrite GetAllDependencies_dfs by done.
  destruct (dfs_from_empty (alpine_succ packages) (dom packages)
              (alpine_succ_in_dom packages) (S (size packages))
              (Alpine.PackageName pkg)) as (st' & -> & Hnodup & Hreach).
  - apply elem_of_dom. eauto.
  - rewrite size_dom. lia.
  - exists st'.2. split; [done|]. split; [done|]. intros x. rewrite Hreach.
    split; apply rtc_subrel; intros u v; apply alpine_edge.
Qed.

Lemma alpine_closure_fuel packages pkg fuel deps :
  alpine_keyed packages → packages !! Alpine.PackageName pkg = Some pkg →
  Alpine.closure packages pkg = Some deps → size packages < fuel →
  snd <$> Alpine.GetAllDependencies fuel packages pkg (∅, []) = Some deps.
Proof.
  intros Hk Hin. unfold Alpine.closure. rewrite !GetAllDependencies_dfs by done.
  destruct (dfs _ (S _) _ _) as [st'|] eqn:E; [|done]. intros [= <-] Hfuel.
  apply (dfs_fuel_mono _ _ fuel) in E; [|lia]. by rewrite E.
Qed.

(** ** The CentOS closure is the traversal of the raw requires graph *)

Lemma getAllDep_dfs m fuel :
  ∀ p st, Centos.getAllDep fuel m p st = dfs (centos_succ m) fuel p st.
Proof.
  induction fuel as [|fuel IH]; intros p [visited deps]; [done|].
  simpl. destruct (bool_at visited p); [done|].
  replace (centos_succ m p) with (default [] (Centos.Depends <$> m !! p))
    by (unfold centos_succ; by destruct (m !! p)).
  destruct (m !! p) as [pkg|]; [|done]. simpl.
  generalize (<[p:=true]> visited, deps ++ [p]).
  induction (Centos.Depends pkg) as [|d l IHl]; intros st; [done|].
  simpl. rewrite IH. destruct (dfs _ _ _ _); [apply IHl|done].
Qed.

Lemma centos_edge m u v :
  edge (centos_succ m) u v ↔ listed_edge Centos.Depends m u v.
Proof.
  unfold edge, centos_succ, listed_edge. split.
  - destruct (m !! u) as [pkg|]; [|by intros ?%elem_of_nil]. intros ?. by exists pkg.
  - by intros (pkg & -> & Hin).
Qed.

Lemma requires_in_names m u pkg w :
  m !! u = Some pkg → w ∈ Centos.Depends pkg → w ∈ Centos.names m.
Proof.
  intros Hu Hw. unfold Centos.names. apply elem_of_union_r. revert u pkg Hu Hw.
  apply (map_fold_weak_ind
           (λ acc m, ∀ u pkg, m !! u = Some pkg → w ∈ Centos.Depends pkg → w ∈ acc)).
  - intros u pkg Hu. by rewrite lookup_empty in Hu.
  - intros i x m' r Hi IH u pkg Hu Hw.
    destruct (decide (i = u)) as [->|Hne].
    + rewrite lookup_insert_eq in Hu. injection Hu as ->.
      apply elem_of_union_l. by apply elem_of_list_to_set.
    + rewrite lookup_insert_ne in Hu by done. apply elem_of_union_r. eauto.
Qed.

Lemma centos_succ_in_names m u w :
  u ∈ Centos.names m → w ∈ centos_succ m u → w ∈ Centos.names m.
Proof.
  intros _ Hw. apply centos_edge in Hw as (pkg & Hu & Hw).
  by apply requires_in_names with u pkg.
Qed.

Lemma centos_closure_spec m p :
  is_Some (m !! p) →
  ∃ deps, Centos.closure m p = Some deps ∧ NoDup deps ∧
          ∀ x, x ∈ deps ↔ rtc (listed_edge Centos.Depends m) p x.
Proof.
  intros Hin. unfold Centos.closure. rewrite getAllDep_dfs.
  destruct (dfs_from_empty (centos_succ m) (Centos.names m)
              (centos_succ_in_names m) (S (size (Centos.names m))) p)
    as (st' & -> & Hnodup & Hreach).
  - apply elem_of_union_l. by apply elem_of_dom.
  - lia.
  - exists st'.2. split; [done|]. split; [done|]. intros x. rewrite Hreach.
    split; apply rtc_subrel; intros u v; apply centos_edge.
Qed.

Lemma centos_closure_fuel m p fuel deps :
  Centos.closure m p = Some deps → size (Centos.names m) < fuel →
  snd <$> Centos.getAllDep fuel m p (∅, []) = Some deps.
Proof.
  unfold Centos.closure. rewrite !getAllDep_dfs.
  destruct (dfs _ (S _) _ _) as [st'|] eqn:E; [|done]. intros [= <-] Hfuel.
  apply (dfs_fuel_mono _ _ fuel) in E; [|lia]. by rewrite E.
Qed.


(** ** The index [getPackageList] builds is keyed by package name *)

Lemma addPackage_keyed packageList pkg :
  alpine_keyed packageList → alpine_keyed (Alpine.addPackage packageList pkg).
Proof.
  intros Hk k p. unfold Alpine.addPackage.
  destruct (String.eqb _ _); [apply Hk|].
  rewrite lookup_insert. case_decide as E; [|apply Hk].
  intros [= <-]. done.
Qed.

Lemma foldl_addPackage_keyed pkgs packageList :
  alpine_keyed packageList → alpine_keyed (foldl Alpine.addPackage packageList pkgs).
Proof.
  revert packageList. induction pkgs as [|pkg pkgs IH]; intros packageList Hk; [done|].
  simpl. apply IH. by apply addPackage_keyed.
Qed.

Lemma getPackageList_keyed data : alpine_keyed (Alpine.getPackageList data).
Proof.
  apply foldl_addPackage_keyed. intros k pkg Hk. by rewrite lookup_empty in Hk.
Qed.

(** A keyed index can be recognised by running through its entries. *)
Lemma alpine_keyed_check (packages : gmap string Alpine.PackageInfo) :
  forallb (λ entry, String.eqb (Alpine.PackageName entry.2) entry.1)
          (map_to_list packages) = true →
  alpine_keyed packages.
Proof.
  rewrite forallb_forall. intros Hall k pkg Hk.
  apply elem_of_map_to_list, list_elem_of_In, Hall in Hk.
  by apply String.eqb_eq in Hk.
Qed.

(** ** Counting: [countMap] holds the number of occurrences *)

Lemma int_incr_small n : (0 ≤ n < 2 ^ 63 - 1)%Z → int_incr n = (n + 1)%Z.
Proof.
  intros Hn. unfold int_incr, wrap64.
  rewrite Z.mod_small by lia. lia.
Qed.

Lemma occ_nonneg v l : (0 ≤ occ v l)%Z.
Proof. unfold occ. lia. Qed.

Lemma occ_cons v d l :
  occ v (d :: l) = ((if String.eqb v d then 1 else 0) + occ v l)%Z.
Proof.
  unfold occ. simpl. destruct (String.eqb v d); simpl; lia.
Qed.

Lemma occ_elem v l : v ∈ l → (1 ≤ occ v l)%Z.
Proof.
  induction 1 as [x l|x y l _ IH]; rewrite occ_cons.
  - rewrite String.eqb_refl. pose proof (occ_nonneg x l). lia.
  - destruct (String.eqb x y); lia.
Qed.

Lemma occ_not_elem v l : v ∉ l → occ v l = 0%Z.
Proof.
  induction l as [|d l IH]; [done|]. rewrite not_elem_of_cons, occ_cons.
  intros [Hne Hl]. rewrite IH by done.
  destruct (String.eqb_spec v d); [done|lia].
Qed.

Lemma occ_NoDup v l : NoDup l → (occ v l ≤ 1)%Z.
Proof.
  induction 1 as [|d l Hd _ IH]; [done|]. rewrite occ_cons.
  destruct (String.eqb_spec v d) as [->|]; [|lia].
  rewrite occ_not_elem by done. lia.
Qed.

Lemma int_at_countDep cm d v :
  int_at (countDep cm d) v
  = if String.eqb v d then int_incr (int_at cm d) else int_at cm v.
Proof.
  unfold countDep, int_at at 1. rewrite lookup_insert.
  destruct (String.eqb_spec v d) as [->|Hne].
  - by rewrite decide_True.
  - by rewrite decide_False by done.
Qed.

Lemma foldl_countDep_spec l : ∀ cm,
  (∀ v, 0 ≤ int_at cm v ∧ int_at cm v + occ v l < 2 ^ 63)%Z →
  ∀ v, int_at (foldl countDep cm l) v = (int_at cm v + occ v l)%Z.
Proof.
  induction l as [|d l IH]; intros cm Hcm v.
  - simpl. unfold occ. simpl. lia.
  - simpl. rewrite IH.
    + rewrite int_at_countDep, occ_cons.
      destruct (String.eqb_spec v d) as [->|Hne]; [|lia].
      specialize (Hcm d). rewrite occ_cons, String.eqb_refl in Hcm.
      pose proof (occ_nonneg d l). rewrite int_incr_small by lia. lia.
    + intros w. specialize (Hcm w). rewrite occ_cons in Hcm.
      pose proof (occ_nonneg w l). rewrite int_at_countDep.
      destruct (String.eqb_spec w d) as [Heq|Hne]; [|lia].
      subst d. rewrite int_incr_small by lia. lia.
Qed.

Lemma occurrences_cons v e entries :
  occurrences v (e :: entries) = (occ v e.2 + occurrences v entries)%Z.
Proof. done. Qed.

Lemma occurrences_nonneg v entries : (0 ≤ occurrences v entries)%Z.
Proof.
  induction entries as [|e entries IH]; [done|].
  rewrite occurrences_cons. pose proof (occ_nonneg v e.2). lia.
Qed.

Lemma foldl_buildCountMap_spec entries : ∀ cm,
  (∀ v, 0 ≤ int_at cm v ∧ int_at cm v + occurrences v entries < 2 ^ 63)%Z →
  ∀ v, int_at (foldl (λ countMap entry, foldl countDep countMap entry.2) cm entries) v
       = (int_at cm v + occurrences v entries)%Z.
Proof.
  induction entries as [|e entries IH]; intros cm Hcm v.
  - simpl. lia.
  - cbn [foldl].
    assert (∀ w, int_at (foldl countDep cm e.2) w = (int_at cm w + occ w e.2)%Z) as Hstep.
    { apply foldl_countDep_spec. intros w. specialize (Hcm w).
      rewrite occurrences_cons in Hcm. pose proof (occurrences_nonneg w entries). lia. }
    rewrite IH.
    + rewrite Hstep, occurrences_cons. lia.
    + intros w. rewrite Hstep. specialize (Hcm w). rewrite occurrences_cons in Hcm.
      pose proof (occ_nonneg w e.2). lia.
Qed.

Lemma occurrences_bound v entries :
  Forall (λ e : string * list string, NoDup e.2) entries →
  (occurrences v entries ≤ Z.of_nat (length entries))%Z.
Proof.
  induction 1 as [|e entries He _ IH]; [done|].
  rewrite occurrences_cons. pose proof (occ_NoDup v e.2 He). simpl length. lia.
Qed.

Lemma occurrences_elem v k l entries :
  (k, l) ∈ entries → v ∈ l → (1 ≤ occurrences v entries)%Z.
Proof.
  intros Hin Hv. induction entries as [|e entries IH]; [by apply elem_of_nil in Hin|].
  rewrite occurrences_cons. apply elem_of_cons in Hin as [<-|Hin].
  - pose proof (occ_elem v l Hv). pose proof (occurrences_nonneg v entries).
    simpl. lia.
  - pose proof (occ_nonneg v e.2). specialize (IH Hin). lia.
Qed.

(** Whatever the order in which the range yields the entries of [depMap]:
    when every list is duplicate-free and there are fewer than [2^63] of
    them, [countMap[v]] is the number of lists that contain [v]. *)
Lemma buildCountMap_spec entries v :
  Forall (λ e : string * list string, NoDup e.2) entries →
  (Z.of_nat (length entries) < 2 ^ 63)%Z →
  int_at (buildCountMap entries) v = occurrences v entries.
Proof.
  intros Hnd Hlen. unfold buildCountMap. rewrite foldl_buildCountMap_spec.
  - unfold int_at. rewrite lookup_empty. simpl. lia.
  - intros w. unfold int_at. rewrite lookup_empty. simpl.
    pose proof (occurrences_bound w entries Hnd). lia.
Qed.


(** ** Depends-counts of the packages of the index *)

Lemma depMap_count_pos {A : Type} (f : string → A → option (list string))
    (m : gmap string A) (k : string) (entries : list (string * list string)) :
  (∀ k a, m !! k = Some a → ∃ deps, f k a = Some deps ∧ NoDup deps ∧ k ∈ deps) →
  (Z.of_nat (size m) < 2 ^ 63)%Z →
  is_Some (m !! k) →
  entries ≡ₚ map_to_list (map_imap f m) →
  (1 ≤ int_at (buildCountMap entries) k)%Z.
Proof.
  intros Hf Hsize [a Ha] Hperm.
  assert (∀ k' l, (k', l) ∈ entries → ∃ a', m !! k' = Some a' ∧ f k' a' = Some l) as Hent.
  { intros k' l Hin. rewrite Hperm in Hin. apply elem_of_map_to_list in Hin.
    rewrite map_lookup_imap in Hin. destruct (m !! k') as [a'|]; [|done]. eauto. }
  rewrite buildCountMap_spec.
  - destruct (Hf k a Ha) as (deps & Hd & _ & Hk).
    apply occurrences_elem with k deps; [|done].
    rewrite Hperm. apply elem_of_map_to_list. rewrite map_lookup_imap, Ha. done.
  - apply Forall_forall. intros [k' l] Hin.
    destruct (Hent k' l Hin) as (a' & Ha' & Hl).
    destruct (Hf k' a' Ha') as (deps & Hd & Hnd & _). simpl. congruence.
  - rewrite Hperm, length_map_to_list.
    pose proof (subseteq_size _ _ (dom_imap_subseteq f m)) as Hle.
    rewrite !size_dom in Hle. lia.
Qed.

Lemma alpine_closure_self packages k pkg :
  alpine_keyed packages → packages !! k = Some pkg →
  ∃ deps, Alpine.closure packages pkg = Some deps ∧ NoDup deps ∧ k ∈ deps.
Proof.
  intros Hk Hin. pose proof (Hk _ _ Hin) as Hname. subst k.
  destruct (alpine_closure_spec packages pkg Hk Hin) as (deps & Hc & Hnd & Hreach).
  exists deps. split; [done|]. split; [done|]. by apply Hreach.
Qed.

Lemma centos_closure_self m k (pkg : Centos.PackageInfo) :
  m !! k = Some pkg →
  ∃ deps, Centos.closure m k = Some deps ∧ NoDup deps ∧ k ∈ deps.
Proof.
  intros Hin.
  destruct (centos_closure_spec m k) as (deps & Hc & Hnd & Hreach); [eauto|].
  exists deps. split; [done|]. split; [done|]. by apply Hreach.
Qed.

Lemma alpine_DependsCount_pos packages db k pkg' :
  alpine_keyed packages → (Z.of_nat (size packages) < 2 ^ 63)%Z →
  (Alpine.Collect packages db).1 !! k = Some pkg' →
  (1 ≤ Alpine.DependsCount pkg')%Z.
Proof.
  intros Hk Hsize. unfold Alpine.Collect. cbn [fst].
  rewrite map_lookup_imap. destruct (packages !! k) as [pkg|] eqn:E; [|done].
  intros [= <-]. cbn [Alpine.set_metrics Alpine.DependsCount].
  apply (depMap_count_pos (λ _ pkgInfo, Alpine.closure packages pkgInfo) packages);
    [|done|eauto|done].
  intros k' a Ha. by apply alpine_closure_self.
Qed.

Lemma centos_DependsCount_pos m db k pkg' :
  (Z.of_nat (size m) < 2 ^ 63)%Z →
  (Centos.Collect m db).1 !! k = Some pkg' →
  (1 ≤ Centos.DependsCount pkg')%Z.
Proof.
  intros Hsize. unfold Centos.Collect. cbn [fst].
  rewrite map_lookup_imap. destruct (m !! k) as [pkg|] eqn:E; [|done].
  intros [= <-]. cbn [Centos.set_metrics Centos.DependsCount].
  apply (depMap_count_pos (λ pkgName _, Centos.closure m pkgName) m);
    [|done|eauto|done].
  intros k' a Ha. by apply centos_closure_self with a.
Qed.

(** In the raw graph only packages of the index have out-edges, so a
    package of the index reached through listed names is reached through
    packages of the index. *)
Lemma listed_rtc_in_index {PackageInfo : Type} (Depends : PackageInfo → list string)
    (m : gmap string PackageInfo) p x :
  rtc (listed_edge Depends m) p x → is_Some (m !! x) →
  rtc (in_index_edge Depends m) p x.
Proof.
  induction 1 as [|u v w Huv Hvw IH]; [done|]. intros Hw.
  destruct Huv as (pkg & Hu & Hv).
  assert (is_Some (m !! v)) as Hvin.
  { destruct Hvw as [|v' w' z (pkg' & Hv' & _) _]; [done|eauto]. }
  eapply rtc_l; [|by apply IH]. by exists pkg.
Qed.

Lemma in_index_rtc_listed {PackageInfo : Type} (Depends : PackageInfo → list string)
    (m : gmap string PackageInfo) p x :
  rtc (in_index_edge Depends m) p x → rtc (listed_edge Depends m) p x.
Proof.
  apply rtc_subrel. intros u v (pkg & ? & ? & _). by exists pkg.
Qed.

(** C9.  For every index, cyclic or not, the depth-first closure of a
    package of the index terminates: the recursion depth stays within
    the number of names, any larger budget returns the same list, and no
    name occurs twice in the list.  This holds for [GetAllDependencies]
    of the Alpine collector, on every index keyed by package name and so
    on every index [getPackageList] builds, and for [getAllDep] of the
    CentOS collector. *)
Theorem closure_terminates_without_repetition :
  (∀ (packages : gmap string Alpine.PackageInfo) (pkg : Alpine.PackageInfo),
     alpine_keyed packages →
     packages !! Alpine.PackageName pkg = Some pkg →
     ∃ deps, Alpine.closure packages pkg = Some deps ∧ NoDup deps ∧
       ∀ fuel, size packages < fuel →
         snd <$> Alpine.GetAllDependencies fuel packages pkg (∅, []) = Some deps)
  ∧
  (∀ (data : string) (pkgName : string) (pkg : Alpine.PackageInfo),
     Alpine.getPackageList data !! pkgName = Some pkg →
     ∃ deps, Alpine.closure (Alpine.getPackageList data) pkg = Some deps ∧ NoDup deps)
  ∧
  (∀ (m : gmap string Centos.PackageInfo) (pkgName : string),
     is_Some (m !! pkgName) →
     ∃ deps, Centos.closure m pkgName = Some deps ∧ NoDup deps ∧
       ∀ fuel, size (Centos.names m) < fuel →
         snd <$> Centos.getAllDep fuel m pkgName (∅, []) = Some deps).
Proof.
  split; [|split].
  - intros packages pkg Hk Hin.
    destruct (alpine_closure_spec packages pkg Hk Hin) as (deps & Hc & Hnd & _).
    exists deps. split; [done|]. split; [done|].
    intros fuel Hfuel. by apply alpine_closure_fuel.
  - intros data k pkg Hin.
    pose proof (getPackageList_keyed data) as Hk.
    pose proof (Hk _ _ Hin) as Hname. rewrite <- Hname in Hin.
    destruct (alpine_closure_spec _ pkg Hk Hin) as (deps & Hc & Hnd & _).
    by exists deps.
  - intros m p Hin.
    destruct (centos_closure_spec m p Hin) as (deps & Hc & Hnd & _).
    exists deps. split; [done|]. split; [done|].
    intros fuel Hfuel. by apply centos_closure_fuel.
Qed.

(** The cycle of S2 is an instance, for both collectors. *)
Lemma closure_terminates_on_cycle :
  (∃ deps, Alpine.closure alpineCycle (alpinePkg "A" ["B"]) = Some deps ∧ NoDup deps ∧
     ∀ fuel, size alpineCycle < fuel →
       snd <$> Alpine.GetAllDependencies fuel alpineCycle (alpinePkg "A" ["B"]) (∅, [])
       = Some deps)
  ∧
  (∃ deps, Alpine.closure (Alpine.getPackageList cycleText) (alpinePkg "A" ["B"])
           = Some deps ∧ NoDup deps)
  ∧
  (∃ deps, Centos.closure centosCycle "A" = Some deps ∧ NoDup deps ∧
     ∀ fuel, size (Centos.names centosCycle) < fuel →
       snd <$> Centos.getAllDep fuel centosCycle "A" (∅, []) = Some deps).
Proof.
  split; [|split].
  - apply (proj1 closure_terminates_without_repetition).
    + apply alpine_keyed_check. vm_compute. reflexivity.
    + vm_compute. reflexivity.
  - apply (proj1 (proj2 closure_terminates_without_repetition) cycleText "A").
    vm_compute. reflexivity.
  - apply (proj2 (proj2 closure_terminates_without_repetition)).
    vm_compute. eauto.
Defined.

(** C4.  The claim fails on the CentOS collector.  For the index
    [{A requires X}] with [X] not in the index, [getAllDep] marks [X] as
    visited and appends it before it looks it up in [PkgInfoMap], so the
    closure of [A] is [[A; X]] and not [[A]].  [GetAllDependencies] of
    the Alpine collector looks a name up before it recurses, and gives
    [[A]] on the same index.  Both collectors give [A] the count [1]. *)
Theorem centos_closure_leaves_index :
  centosDangling !! "X" = None ∧
  Centos.closure centosDangling "A" = Some ["A"; "X"] ∧
  Centos.DependsCount <$> (Centos.Collect centosDangling []).1 !! "A" = Some 1%Z ∧
  alpineDangling !! "X" = None ∧
  Alpine.closure alpineDangling (alpinePkg "A" ["X"]) = Some ["A"] ∧
  Alpine.DependsCount <$> (Alpine.Collect alpineDangling []).1 !! "A" = Some 1%Z.
Proof. vm_compute. done. Qed.

(** X30.  What the two closures list, for a package [p] of the index:
    - [GetAllDependencies] of the Alpine collector lists exactly the
      packages of the index reachable from [p] through depends tokens
      that are in the index;
    - [getAllDep] of the CentOS collector lists exactly the names
      reachable from [p] through required names, in the index or not;
      the packages of the index it lists are exactly those reachable
      inside the index;
    - in both, [p] itself is listed and the [DependsCount] that
      [Collect] gives [p] is at least [1];
    - for [{A depends X}] with [X] not in the index, the Alpine list of
      [A] is [[A]], the CentOS list is [[A; X]], and both collectors
      give [A] the count [1]. *)
Theorem closure_is_reachability :
  (∀ (packages : gmap string Alpine.PackageInfo) (pkg : Alpine.PackageInfo),
     alpine_keyed packages → (Z.of_nat (size packages) < 2 ^ 63)%Z →
     packages !! Alpine.PackageName pkg = Some pkg →
     ∃ deps, Alpine.closure packages pkg = Some deps ∧
       (∀ x, x ∈ deps ↔
             rtc (in_index_edge Alpine.Depends packages) (Alpine.PackageName pkg) x) ∧
       Alpine.PackageName pkg ∈ deps ∧
       ∀ db, ∃ pkg', (Alpine.Collect packages db).1 !! Alpine.PackageName pkg = Some pkg' ∧
                     (1 ≤ Alpine.DependsCount pkg')%Z)
  ∧
  (∀ (m : gmap string Centos.PackageInfo) (p : string),
     (Z.of_nat (size m) < 2 ^ 63)%Z → is_Some (m !! p) →
     ∃ deps, Centos.closure m p = Some deps ∧
       (∀ x, x ∈ deps ↔ rtc (listed_edge Centos.Depends m) p x) ∧
       (∀ x, is_Some (m !! x) →
             (x ∈ deps ↔ rtc (in_index_edge Centos.Depends m) p x)) ∧
       p ∈ deps ∧
       ∀ db, ∃ pkg', (Centos.Collect m db).1 !! p = Some pkg' ∧
                     (1 ≤ Centos.DependsCount pkg')%Z)
  ∧
  (Alpine.closure alpineDangling (alpinePkg "A" ["X"]) = Some ["A"] ∧
   Alpine.DependsCount <$> (Alpine.Collect alpineDangling []).1 !! "A" = Some 1%Z ∧
   Centos.closure centosDangling "A" = Some ["A"; "X"] ∧
   Centos.DependsCount <$> (Centos.Collect centosDangling []).1 !! "A" = Some 1%Z).
Proof.
  split; [|split].
  - intros packages pkg Hk Hsize Hin.
    destruct (alpine_closure_spec packages pkg Hk Hin) as (deps & Hc & _ & Hreach).
    exists deps. split; [done|]. split; [done|]. split; [by apply Hreach|].
    intros db.
    destruct ((Alpine.Collect packages db).1 !! Alpine.PackageName pkg) as [pkg'|] eqn:E.
    + exists pkg'. split; [done|]. by eapply alpine_DependsCount_pos.
    + unfold Alpine.Collect in E. cbn [fst] in E.
      rewrite map_lookup_imap, Hin in E. done.
  - intros m p Hsize Hin.
    destruct (centos_closure_spec m p Hin) as (deps & Hc & _ & Hreach).
    exists deps. split; [done|]. split; [done|]. split; [|split; [by apply Hreach|]].
    + intros x Hx. rewrite Hreach. split.
      * intros Hr. by apply listed_rtc_in_index.
      * apply in_index_rtc_listed.
    + intros db. destruct ((Centos.Collect m db).1 !! p) as [pkg'|] eqn:E.
      * exists pkg'. split; [done|]. by eapply centos_DependsCount_pos.
      * unfold Centos.Collect in E. cbn [fst] in E.
        rewrite map_lookup_imap in E. destruct Hin as [pkg Hp].
        rewrite Hp in E. done.
  - vm_compute. done.
Qed.

(** The cycle of S2 is an instance, for both collectors. *)
Lemma closure_is_reachability_on_cycle :
  (∃ deps, Alpine.closure alpineCycle (alpinePkg "A" ["B"]) = Some deps ∧
     (∀ x, x ∈ deps ↔ rtc (in_index_edge Alpine.Depends alpineCycle) "A" x) ∧
     "A" ∈ deps ∧
     ∀ db, ∃ pkg', (Alpine.Collect alpineCycle db).1 !! "A" = Some pkg' ∧
                   (1 ≤ Alpine.DependsCount pkg')%Z)
  ∧
  (∃ deps, Centos.closure centosCycle "A" = Some deps ∧
     (∀ x, x ∈ deps ↔ rtc (listed_edge Centos.Depends centosCycle) "A" x) ∧
     (∀ x, is_Some (centosCycle !! x) →
           (x ∈ deps ↔ rtc (in_index_edge Centos.Depends centosCycle) "A" x)) ∧
     "A" ∈ deps ∧
     ∀ db, ∃ pkg', (Centos.Collect centosCycle db).1 !! "A" = Some pkg' ∧
                   (1 ≤ Centos.DependsCount pkg')%Z).
Proof.
  split.
  - apply (proj1 closure_is_reachability alpineCycle (alpinePkg "A" ["B"])).
    + apply alpine_keyed_check. vm_compute. reflexivity.
    + vm_compute. reflexivity.
    + vm_compute. reflexivity.
  - apply (proj1 (proj2 closure_is_reachability) centosCycle "A").
    + vm_compute. reflexivity.
    + vm_compute. eauto.
Defined.


(** ** The persister *)

Lemma storeDependencies_fresh deps : ∀ db f,
  NoDup deps → (∀ d, d ∈ deps → (f, d) ∉ db) →
  storeDependenciesInDatabase db f deps = (db ++ (pair f <$> deps), None).
Proof.
  induction deps as [|d deps IH]; intros db f Hnd Hfresh; simpl.
  - by rewrite app_nil_r.
  - apply NoDup_cons in Hnd as [Hd Hnd].
    unfold execInsert. rewrite decide_False by (apply Hfresh; left).
    rewrite IH; [by rewrite <- app_assoc|done|].
    intros d' Hd'. rewrite elem_of_app, list_elem_of_singleton.
    intros [Hin|[= ->]]; [|done]. revert Hin. apply Hfresh. by right.
Qed.

Lemma storeDependencies_added deps : ∀ db f,
  ∃ added, (storeDependenciesInDatabase db f deps).1 = db ++ added ∧
           ∀ row, row ∈ added → row.1 = f ∧ row.2 ∈ deps.
Proof.
  induction deps as [|d deps IH]; intros db f; cbn [storeDependenciesInDatabase].
  - exists []. split; [by rewrite app_nil_r|]. intros row Hin. by apply elem_of_nil in Hin.
  - unfold execInsert. case_decide as Hin.
    + exists []. split; [by rewrite app_nil_r|]. intros row Hrow. by apply elem_of_nil in Hrow.
    + destruct (IH (db ++ [(f, d)]) f) as (added & Hrows & Hadded).
      exists ((f, d) :: added). split.
      * rewrite Hrows, <- app_assoc. done.
      * intros row [->|Hrow]%elem_of_cons; [split; [done|left]|].
        destruct (Hadded row Hrow) as [? ?]. split; [done|by right].
Qed.

Section Persister.
Context {PackageInfo : Type}.
Variable Depends : PackageInfo → list string.

Lemma storeAll_cons db entry entries :
  storeAllDependencies Depends db (entry :: entries)
  = storeAllDependencies Depends
      (storeDependenciesInDatabase db entry.1 (Depends entry.2)).1 entries.
Proof.
  unfold storeAllDependencies. cbn [foldl].
  destruct (storeDependenciesInDatabase db entry.1 (Depends entry.2)) as [db' [err|]];
    [by destruct (isUniqueViolation err)|done].
Qed.

Lemma storeAll_added entries : ∀ db,
  ∃ added, storeAllDependencies Depends db entries = db ++ added ∧
           ∀ row, row ∈ added → ∃ pkg, (row.1, pkg) ∈ entries ∧ row.2 ∈ Depends pkg.
Proof.
  induction entries as [|[k pkg] entries IH]; intros db.
  - exists []. split; [by rewrite app_nil_r|]. intros row Hin. by apply elem_of_nil in Hin.
  - rewrite storeAll_cons. cbn [fst snd].
    destruct (storeDependencies_added (Depends pkg) db k) as (added1 & -> & Hadded1).
    destruct (IH (db ++ added1)) as (added2 & -> & Hadded2).
    exists (added1 ++ added2). split; [by rewrite app_assoc|].
    intros row [Hrow|Hrow]%elem_of_app.
    + destruct (Hadded1 row Hrow) as [Hk Ht]. exists pkg. split; [|done].
      rewrite Hk. left.
    + destruct (Hadded2 row Hrow) as (pkg' & ? & ?). exists pkg'. split; [by right|done].
Qed.

Lemma storeAll_fresh entries : ∀ db,
  NoDup entries.*1 →
  (∀ k pkg, (k, pkg) ∈ entries → NoDup (Depends pkg)) →
  (∀ row, row ∈ db → row.1 ∉ entries.*1) →
  storeAllDependencies Depends db entries = db ++ listed_edges Depends entries.
Proof.
  induction entries as [|[k pkg] entries IH]; intros db Hkeys Hnd Hdb.
  - simpl. by rewrite app_nil_r.
  - rewrite storeAll_cons. simpl. apply NoDup_cons in Hkeys as [Hk Hkeys].
    rewrite storeDependencies_fresh.
    + simpl. rewrite IH; [by rewrite <- app_assoc|done|..].
      * intros k' pkg' Hin. apply (Hnd k' pkg'). by right.
      * intros row. rewrite elem_of_app. intros [Hrow|Hrow].
        -- intros Hin. apply (Hdb row Hrow). by right.
        -- apply list_elem_of_fmap in Hrow as (d & -> & _). done.
    + apply (Hnd k pkg). left.
    + intros d _ Hin. apply (Hdb _ Hin). left.
Qed.

Lemma elem_of_listed_edges entries row :
  row ∈ listed_edges Depends entries ↔
  ∃ pkg, (row.1, pkg) ∈ entries ∧ row.2 ∈ Depends pkg.
Proof.
  unfold listed_edges. rewrite list_elem_of_In, in_flat_map. split.
  - intros ([k pkg] & Hin & Hrow). apply list_elem_of_In in Hin.
    apply list_elem_of_In, list_elem_of_fmap in Hrow as (d & -> & Hd).
    by exists pkg.
  - intros (pkg & Hin & Hd). exists (row.1, pkg). split; [by apply list_elem_of_In|].
    apply list_elem_of_In, list_elem_of_fmap. exists row.2. by destruct row.
Qed.

(** The entries [Collect] persists are those of the index with the
    metrics filled in by [g], which leaves [Depends] as it is. *)
Variable g : string → PackageInfo → PackageInfo.
Hypothesis g_Depends : ∀ k pkg, Depends (g k pkg) = Depends pkg.

Lemma annotated_entry (m : gmap string PackageInfo) k pkg' :
  (k, pkg') ∈ map_to_list (map_imap (λ k pkg, Some (g k pkg)) m) ↔
  ∃ pkg, m !! k = Some pkg ∧ pkg' = g k pkg.
Proof.
  rewrite elem_of_map_to_list, map_lookup_imap.
  destruct (m !! k) as [pkg|]; simpl.
  - split; [intros [= <-]; eauto|intros (? & [= <-] & ->); done].
  - split; [done|]. by intros (? & ? & _).
Qed.

Lemma collect_added (m : gmap string PackageInfo) db :
  ∃ added,
    storeAllDependencies Depends db
      (map_to_list (map_imap (λ k pkg, Some (g k pkg)) m)) = db ++ added ∧
    ∀ row, row ∈ added → listed_edge Depends m row.1 row.2.
Proof.
  destruct (storeAll_added (map_to_list (map_imap (λ k pkg, Some (g k pkg)) m)) db)
    as (added & Hrows & Hadded).
  exists added. split; [done|]. intros row Hrow.
  destruct (Hadded row Hrow) as (pkg' & Hent & Ht).
  apply annotated_entry in Hent as (pkg & Hk & ->).
  rewrite g_Depends in Ht. by exists pkg.
Qed.

Lemma collect_added_fresh (m : gmap string PackageInfo) db :
  (∀ k pkg, m !! k = Some pkg → NoDup (Depends pkg)) →
  (∀ row, row ∈ db → m !! row.1 = None) →
  ∃ added,
    storeAllDependencies Depends db
      (map_to_list (map_imap (λ k pkg, Some (g k pkg)) m)) = db ++ added ∧
    ∀ row, row ∈ added ↔ listed_edge Depends m row.1 row.2.
Proof.
  intros Hnd Hdb.
  exists (listed_edges Depends (map_to_list (map_imap (λ k pkg, Some (g k pkg)) m))).
  split.
  - apply storeAll_fresh.
    + apply NoDup_fst_map_to_list.
    + intros k pkg' Hent. apply annotated_entry in Hent as (pkg & Hk & ->).
      rewrite g_Depends. eauto.
    + intros row Hrow Hin. apply list_elem_of_fmap in Hin as ([k pkg'] & Hk & Hent).
      cbn [fst] in Hk. apply annotated_entry in Hent as (pkg & Hm & _).
      specialize (Hdb row Hrow). rewrite Hk in Hdb. congruence.
  - intros row. rewrite elem_of_listed_edges. split.
    + intros (pkg' & Hent & Ht). apply annotated_entry in Hent as (pkg & Hk & ->).
      rewrite g_Depends in Ht. by exists pkg.
    + intros (pkg & Hk & Ht). exists (g row.1 pkg). split.
      * apply annotated_entry. eauto.
      * by rewrite g_Depends.
Qed.

End Persister.

(** C1, as the claim states it, fails: for the index [{A depends X}] with
    [X] not in the index, [Collect] on an empty table persists the edge
    [(A, X)], for both collectors. *)
Lemma persisted_edge_leaves_index :
  (Alpine.Collect alpineDangling []).2 = [("A", "X")] ∧
  alpineDangling !! "X" = None ∧
  (Centos.Collect centosDangling []).2 = [("A", "X")] ∧
  centosDangling !! "X" = None.
Proof. vm_compute. done. Qed.

(** C1, amended.  Every edge [Collect] adds to the relationships table
    has a package of the index as its source and one of that package's
    depends tokens as its target; the target is not looked up in the
    index.  When no depends list holds a token twice and the table holds
    no edge from a package of the index, an empty table in particular,
    the edges [Collect] adds are exactly the pairs of a package of the
    index and one of its depends tokens, in the index or not (an insert
    failing for no other reason than the unique constraint). *)
Theorem persister_stores_listed_edges :
  (∀ (m : gmap string Alpine.PackageInfo) db,
     ∃ added, (Alpine.Collect m db).2 = db ++ added ∧
              ∀ row, row ∈ added → listed_edge Alpine.Depends m row.1 row.2)
  ∧
  (∀ (m : gmap string Alpine.PackageInfo) db,
     (∀ k pkg, m !! k = Some pkg → NoDup (Alpine.Depends pkg)) →
     (∀ row, row ∈ db → m !! row.1 = None) →
     ∃ added, (Alpine.Collect m db).2 = db ++ added ∧
              ∀ row, row ∈ added ↔ listed_edge Alpine.Depends m row.1 row.2)
  ∧
  (∀ (m : gmap string Centos.PackageInfo) db,
     ∃ added, (Centos.Collect m db).2 = db ++ added ∧
              ∀ row, row ∈ added → listed_edge Centos.Depends m row.1 row.2)
  ∧
  (∀ (m : gmap string Centos.PackageInfo) db,
     (∀ k pkg, m !! k = Some pkg → NoDup (Centos.Depends pkg)) →
     (∀ row, row ∈ db → m !! row.1 = None) →
     ∃ added, (Centos.Collect m db).2 = db ++ added ∧
              ∀ row, row ∈ added ↔ listed_edge Centos.Depends m row.1 row.2).
Proof.
  split; [|split; [|split]].
  - intros m db. unfold Alpine.Collect. cbn [snd]. by apply collect_added.
  - intros m db Hnd Hdb. unfold Alpine.Collect. cbn [snd]. by apply collect_added_fresh.
  - intros m db. unfold Centos.Collect. cbn [snd]. by apply collect_added.
  - intros m db Hnd Hdb. unfold Centos.Collect. cbn [snd]. by apply collect_added_fresh.
Qed.

Lemma depends_NoDup_check {PackageInfo : Type} (Depends : PackageInfo → list string)
    (m : gmap string PackageInfo) :
  forallb (λ entry, bool_decide (NoDup (Depends entry.2))) (map_to_list m) = true →
  ∀ k pkg, m !! k = Some pkg → NoDup (Depends pkg).
Proof.
  rewrite forallb_forall. intros Hall k pkg Hk.
  apply elem_of_map_to_list, list_elem_of_In, Hall in Hk.
  by apply bool_decide_eq_true in Hk.
Qed.

(** The dangling edge of S3 is an instance: on a table that holds an
    edge from a name outside the index, the edges added are those listed,
    [(A, X)] among them. *)
Lemma persister_stores_dangling_edge :
  (∃ added, (Alpine.Collect alpineDangling [("Z", "A")]).2 = [("Z", "A")] ++ added ∧
            ∀ row, row ∈ added ↔ listed_edge Alpine.Depends alpineDangling row.1 row.2)
  ∧
  (∃ added, (Centos.Collect centosDangling [("Z", "A")]).2 = [("Z", "A")] ++ added ∧
            ∀ row, row ∈ added ↔ listed_edge Centos.Depends centosDangling row.1 row.2).
Proof.
  split.
  - apply (proj1 (proj2 persister_stores_listed_edges) alpineDangling [("Z", "A")]).
    + apply depends_NoDup_check. vm_compute. reflexivity.
    + intros row Hrow. apply list_elem_of_singleton in Hrow as ->. vm_compute. reflexivity.
  - apply (proj2 (proj2 (proj2 persister_stores_listed_edges)) centosDangling [("Z", "A")]).
    + apply depends_NoDup_check. vm_compute. reflexivity.
    + intros row Hrow. apply list_elem_of_singleton in Hrow as ->. vm_compute. reflexivity.
Defined.

(** ** The parsers *)

(** *** Dependency tokens *)

Lemma index_from_byte c a b : ∀ i,
  no_byte c a = true →
  index_from i (String c EmptyString) (a +:+ String c b) = (i + Z.of_nat (String.length a))%Z.
Proof.
  induction a as [|x a IH]; intros i Ha.
  - change (EmptyString +:+ String c b) with (String c b). simpl.
    rewrite Ascii.eqb_refl. lia.
  - simpl in Ha. apply andb_true_iff in Ha as [Hx Ha].
    change (String x a +:+ String c b) with (String x (a +:+ String c b)).
    cbn [index_from strip_prefix]. apply negb_true_iff in Hx. rewrite Hx.
    rewrite IH by done. cbn [String.length]. lia.
Qed.

Lemma str_drop_append a b : str_drop (String.length a) (a +:+ b) = b.
Proof. induction a as [|x a IH]; [by destruct b|done]. Qed.

Lemma str_take_append a b : str_take (String.length a) (a +:+ b) = a.
Proof.
  induction a as [|x a IH]; [by destruct b|].
  change (String x a +:+ b) with (String x (a +:+ b)). simpl. by rewrite IH.
Qed.

(** What the cut of a dependency token does: of [ns:name=version] it
    keeps what stands between the first [:] and the first [=] after it,
    whatever bytes that is. *)
Lemma normalizeDep_cut ns name version :
  no_byte ":" ns = true → no_byte "=" name = true →
  Alpine.normalizeDep (ns +:+ ":" +:+ name +:+ "=" +:+ version) = name.
Proof.
  intros Hns Hname. unfold Alpine.normalizeDep, Index.
  change (ns +:+ ":" +:+ name +:+ "=" +:+ version)
    with (ns +:+ String ":" (name +:+ "=" +:+ version)).
  rewrite index_from_byte by done.
  replace (0 + Z.of_nat (String.length ns) =? -1)%Z with false
    by (symmetry; apply Z.eqb_neq; lia).
  cbn [negb].
  replace (Z.to_nat (0 + Z.of_nat (String.length ns) + 1))
    with (String.length (ns +:+ ":")).
  - change (ns +:+ String ":" (name +:+ "=" +:+ version))
      with (ns +:+ ":" +:+ (name +:+ "=" +:+ version)).
    replace (ns +:+ ":" +:+ name +:+ "=" +:+ version)
      with ((ns +:+ ":") +:+ (name +:+ "=" +:+ version)).
    + rewrite str_drop_append.
      change (name +:+ "=" +:+ version) with (name +:+ String "=" version).
      rewrite index_from_byte by done.
      replace (0 + Z.of_nat (String.length name) =? -1)%Z with false
        by (symmetry; apply Z.eqb_neq; lia).
      cbn [negb]. rewrite Z.add_0_l, Nat2Z.id. apply str_take_append.
    + clear. induction ns as [|x ns IH]; [done|].
      change (String x ns +:+ ":") with (String x (ns +:+ ":")).
      change (String x (ns +:+ ":") +:+ (name +:+ "=" +:+ version))
        with (String x ((ns +:+ ":") +:+ (name +:+ "=" +:+ version))).
      by rewrite IH.
  - clear. induction ns as [|x ns IH]; [done|].
    change (String x ns +:+ ":") with (String x (ns +:+ ":")).
    cbn [String.length]. rewrite IH. lia.
Qed.

(** C2.  The Alpine parser cuts a dependency token after its first [:] and
    before its first [=], and at no other comparison sign: on the line
    [D:libc:foo=1.2 libc:foo>=1.2] it yields the tokens [foo] and [foo>],
    where the claim expects [foo] twice. *)
Theorem normalizeDep_keeps_comparison_sign :
  Alpine.normalizeDep "libc:foo=1.2" = "foo" ∧
  Alpine.normalizeDep "libc:foo>=1.2" = "foo>" ∧
  Alpine.Depends (Alpine.parseLine Alpine.zeroPackageInfo "D:libc:foo=1.2 libc:foo>=1.2")
  = ["foo"; "foo>"].
Proof. vm_compute. done. Qed.

(** *** Descriptions *)

Lemma str_take_length n s : String.length (str_take n s) = Nat.min n (String.length s).
Proof.
  revert s. induction n as [|n IH]; intros [|c s]; simpl; try done.
  by rewrite IH.
Qed.

(** The CentOS parser keeps a description within 255 bytes: longer ones
    are cut to 254 bytes, the others (a 255-byte one too) are kept whole. *)
Lemma capDescription_length description :
  String.length (Centos.capDescription description) ≤ 255 ∧
  (255 < String.length description →
   Centos.capDescription description = str_take 254 description ∧
   String.length (Centos.capDescription description) = 254) ∧
  (String.length description ≤ 255 → Centos.capDescription description = description).
Proof.
  unfold Centos.capDescription.
  destruct (Nat.ltb_spec 255 (String.length description)) as [Hlt|Hle].
  - rewrite str_take_length. split; [lia|]. split; [|lia]. intros _. split; [done|lia].
  - split; [done|]. split; [lia|done].
Qed.

(** The Alpine parser takes the description from the [T:] line as it is. *)
Lemma alpine_description_verbatim pkg description :
  Alpine.Description (Alpine.parseLine pkg ("T:" +:+ description)) = description.
Proof. reflexivity. Qed.

(** C5.  The Alpine parser stores the [T:] field as it is: a description
    of 300 bytes reaches the index, and from there the package row, with
    300 bytes, where the claim expects 254.  (The CentOS parser cuts the
    same description to 254 bytes.) *)
Theorem alpine_description_not_truncated :
  String.length longDescription = 300 ∧
  (String.length ∘ Alpine.Description) <$> Alpine.getPackageList longEntry !! "a"
  = Some 300 ∧
  (String.length ∘ Alpine.Description) <$> (Alpine.Collect (Alpine.getPackageList longEntry) []).1 !! "a"
  = Some 300 ∧
  (String.length ∘ Centos.Description) <$>
    Centos.parsePackageXML [Centos.StartName "a"; Centos.StartDescription longDescription]
  = Some 254.
Proof. vm_compute. done. Qed.

(** *** Duplicate names *)

Lemma alpine_foldl_addPackage pkgs : ∀ packageList k,
  k ≠ "" →
  foldl Alpine.addPackage packageList pkgs !! k
  = match last (List.filter (named_alpine k) pkgs) with
    | Some pkg => Some pkg
    | None => packageList !! k
    end.
Proof.
  induction pkgs as [|pkg pkgs IH]; intros packageList k Hk; [done|].
  cbn [foldl List.filter]. rewrite IH by done. unfold named_alpine at 2.
  destruct (String.eqb_spec (Alpine.PackageName pkg) k) as [Heq|Hne].
  - rewrite last_cons. destruct (last _); [done|].
    unfold Alpine.addPackage. rewrite Heq.
    destruct (String.eqb_spec k ""); [done|]. by rewrite <- Heq, lookup_insert_eq.
  - destruct (last _); [done|]. unfold Alpine.addPackage.
    destruct (String.eqb _ _); [done|]. by rewrite lookup_insert_ne.
Qed.

Lemma centos_getDependencies_lookup doc : ∀ PkgInfoMap m k,
  Centos.getDependencies PkgInfoMap doc = Centos.Returns m →
  m !! k = match PkgInfoMap !! k with
           | Some pkg => Some pkg
           | None => head (List.filter (named_centos k) (centosRecords doc))
           end.
Proof.
  induction doc as [|tok doc IH]; intros PkgInfoMap m k; cbn [Centos.getDependencies].
  - intros [= <-]. by destruct (PkgInfoMap !! k).
  - unfold centosRecords. cbn [omap list_omap]. fold (centosRecords doc).
    destruct tok as [type xml toks| | |]; [|done|apply IH|done].
    destruct (String.eqb type "rpm"); [|apply IH].
    destruct (CentosXml.trimPackageXML xml); [|done].
    destruct (Centos.parsePackageXML toks) as [pkgInfo|]; [|done].
    intros Hrun. rewrite (IH _ _ _ Hrun). cbn [List.filter]. unfold named_centos at 2.
    unfold Centos.addPackage.
    destruct (String.eqb_spec (Centos.Name pkgInfo) k) as [Heq|Hne].
    + rewrite Heq. destruct (PkgInfoMap !! k) eqn:E; [by rewrite E|].
      by rewrite <- Heq, lookup_insert_eq.
    + destruct (PkgInfoMap !! Centos.Name pkgInfo); [done|].
      by rewrite lookup_insert_ne.
Qed.

(** C6.  Of two entries of an APKINDEX named [a], with the versions [1]
    and [2] in this order, the index of the Alpine parser keeps the
    second, where the first is to win: [getPackageList] assigns
    [packageList[pkg.PackageName]] without the test for an entry that is
    there already.  The CentOS parser has that test: of two packages
    named [a], with the URLs [first] and [second] in this order, its
    index keeps the first. *)
Lemma alpine_keeps_last_duplicate :
  Alpine.Version <$> alpineRecords duplicateEntries = ["1"; "2"] ∧
  Alpine.PackageName <$> alpineRecords duplicateEntries = ["a"; "a"] ∧
  Alpine.Version <$> Alpine.getPackageList duplicateEntries !! "a" = Some "2" ∧
  Centos.URL <$> centosRecords duplicatePackages = ["first"; "second"] ∧
  Centos.Name <$> centosRecords duplicatePackages = ["a"; "a"] ∧
  ∃ m, Centos.getDependencies ∅ duplicatePackages = Centos.Returns m ∧
       Centos.URL <$> m !! "a" = Some "first".
Proof.
  split; [vm_compute; reflexivity|]. split; [vm_compute; reflexivity|].
  split; [vm_compute; reflexivity|]. split; [vm_compute; reflexivity|].
  split; [vm_compute; reflexivity|].
  eexists. split; vm_compute; reflexivity.
Qed.

(** X31.  Which record of a name listed more than once an index keeps:
    when [getDependencies] returns without an error, its index holds for
    every name the first of the [rpm] records of that name (it inserts a
    name only if it is absent); the index of [getPackageList] holds for
    every non-empty name the last of the entries of that name (it
    assigns without a test). *)
Theorem duplicate_names_first_or_last :
  (∀ doc m k,
     Centos.getDependencies ∅ doc = Centos.Returns m →
     m !! k = head (List.filter (named_centos k) (centosRecords doc)))
  ∧
  (∀ data k,
     k ≠ "" →
     Alpine.getPackageList data !! k
     = last (List.filter (named_alpine k) (alpineRecords data))).
Proof.
  split.
  - intros doc m k Hrun.
    rewrite (centos_getDependencies_lookup _ _ _ k Hrun). by rewrite lookup_empty.
  - intros data k Hk. unfold Alpine.getPackageList.
    rewrite alpine_foldl_addPackage by done. fold (alpineRecords data).
    destruct (last _); [done|]. by rewrite lookup_empty.
Qed.

(** Both parsers on two records of the same name. *)
Lemma duplicate_names_instance :
  (∃ m, Centos.getDependencies ∅ duplicatePackages = Centos.Returns m ∧
        m !! "a" = head (List.filter (named_centos "a") (centosRecords duplicatePackages)) ∧
        Centos.URL <$> m !! "a" = Some "first")
  ∧
  (Alpine.getPackageList duplicateEntries !! "a"
   = last (List.filter (named_alpine "a") (alpineRecords duplicateEntries)) ∧
   Alpine.Version <$> Alpine.getPackageList duplicateEntries !! "a" = Some "2").
Proof.
  split.
  - eexists. split; [vm_compute; reflexivity|]. split.
    + apply (proj1 duplicate_names_first_or_last duplicatePackages).
      vm_compute. reflexivity.
    + vm_compute. reflexivity.
  - split.
    + apply (proj2 duplicate_names_first_or_last duplicateEntries "a"). discriminate.
    + vm_compute. reflexivity.
Defined.

(** ** PageRank: the divisions *)

Section RankLog.
Context {PackageInfo : Type}.
Variable Depends : PackageInfo → list string.
Context {F : Type} `{Float64Ops F}.

Lemma foldl_depNum (m : gmap string PackageInfo) l : ∀ n,
  (0 ≤ n)%Z → (n + Z.of_nat (length l) < 2 ^ 63)%Z →
  foldl (λ n depName, if exists_in m depName then int_incr n else n) n l
  = (n + Z.of_nat (length (List.filter (exists_in m) l)))%Z.
Proof.
  induction l as [|d l IH]; intros n Hn Hlen; simpl in *; [lia|].
  destruct (exists_in m d); simpl.
  - rewrite IH; rewrite int_incr_small; lia.
  - rewrite IH; lia.
Qed.

(** [depNum] is the number of in-index entries of [Depends]. *)
Lemma depNum_spec (m : gmap string PackageInfo) pkg :
  (Z.of_nat (length (Depends pkg)) < 2 ^ 63)%Z →
  depNum Depends m pkg
  = Z.of_nat (length (List.filter (exists_in m) (Depends pkg))).
Proof.
  intros Hlen. unfold depNum. rewrite foldl_depNum; lia.
Qed.

Lemma depNum_pos (m : gmap string PackageInfo) pkg depName :
  (Z.of_nat (length (Depends pkg)) < 2 ^ 63)%Z →
  depName ∈ Depends pkg → exists_in m depName = true →
  (1 ≤ depNum Depends m pkg)%Z.
Proof.
  intros Hlen Hin Hex. rewrite depNum_spec by done.
  assert (depName ∈ List.filter (exists_in m) (Depends pkg)) as Hf
    by (apply list_elem_of_In, filter_In; by rewrite <- list_elem_of_In).
  destruct (List.filter _ _); [by apply elem_of_nil in Hf|simpl; lia].
Qed.

Lemma initRank_log n keys : ∀ st : RankState (F := F),
  (keys ≠ [] → 1 ≤ n)%Z → positive_log st →
  positive_log (foldl (initRank n) st keys).
Proof.
  induction keys as [|k keys IH]; intros st Hn Hst; [done|].
  simpl. apply IH; [intros _; by apply Hn|].
  unfold positive_log, initRank. simpl. apply Forall_app. split; [done|].
  constructor; [by apply Hn|constructor].
Qed.

Lemma baseRank_log n d keys : ∀ st : RankState (F := F),
  (keys ≠ [] → 1 ≤ n)%Z → positive_log st →
  positive_log (foldl (baseRank n d) st keys).
Proof.
  induction keys as [|k keys IH]; intros st Hn Hst; [done|].
  simpl. apply IH; [intros _; by apply Hn|].
  unfold positive_log, baseRank. simpl. apply Forall_app. split; [done|].
  constructor; [by apply Hn|constructor].
Qed.

Lemma share_loop_log (m : gmap string PackageInfo) (share : F) (k : Z) l :
  ∀ st : RankState (F := F),
  (∀ dep, dep ∈ l → exists_in m dep = true → (1 ≤ k)%Z) →
  positive_log st →
  positive_log
    (foldl (λ (st : RankState (F := F)) depName,
              if exists_in m depName
              then (<[depName := f_add (rank_at st.1 depName) share]> st.1, st.2 ++ [k])
              else st) st l).
Proof.
  induction l as [|dep l IH]; intros st Hpos Hst; [done|].
  simpl. apply IH; [intros x Hx; apply Hpos; by right|].
  destruct (exists_in m dep) eqn:E; [|done].
  unfold positive_log. simpl. apply Forall_app. split; [done|].
  constructor; [apply (Hpos dep); [left|done]|constructor].
Qed.

Lemma shareRank_log (m : gmap string PackageInfo) d pageRank
    (st : RankState (F := F)) entry :
  (Z.of_nat (length (Depends entry.2)) < 2 ^ 63)%Z →
  positive_log st → positive_log (shareRank Depends m d pageRank st entry).
Proof.
  destruct entry as [pkgName pkgInfo]. cbn [snd]. intros Hlen Hst.
  unfold shareRank. apply share_loop_log; [|done].
  intros dep Hdep Hex. by eapply depNum_pos.
Qed.

Lemma foldl_shareRank_log (m : gmap string PackageInfo) d pageRank entries :
  ∀ st : RankState (F := F),
  (∀ e, e ∈ entries → (Z.of_nat (length (Depends e.2)) < 2 ^ 63)%Z) →
  positive_log st →
  positive_log (foldl (shareRank Depends m d pageRank) st entries).
Proof.
  induction entries as [|e entries IH]; intros st Hlen Hst; [done|].
  simpl. apply IH; [intros e' He'; apply Hlen; by right|].
  apply shareRank_log; [apply Hlen; left|done].
Qed.

Lemma keys_nonempty_size (m : gmap string PackageInfo) :
  (map_to_list m).*1 ≠ [] → (1 ≤ Z.of_nat (size m))%Z.
Proof.
  intros Hne. destruct (decide (size m = 0)) as [Hz|]; [|lia].
  apply map_size_empty_inv in Hz. subst m. by rewrite map_to_list_empty in Hne.
Qed.

Lemma rankRound_log (m : gmap string PackageInfo) d (st : RankState (F := F)) :
  (∀ k pkg, m !! k = Some pkg → (Z.of_nat (length (Depends pkg)) < 2 ^ 63)%Z) →
  positive_log st →
  positive_log (rankRound Depends m (Z.of_nat (size m)) d st).
Proof.
  intros Hlen Hst. unfold rankRound. apply foldl_shareRank_log.
  - intros [k pkg] He. apply elem_of_map_to_list in He. by apply (Hlen k pkg).
  - apply baseRank_log; [apply keys_nonempty_size|done].
Qed.

Lemma calculatePageRank_log_positive (m : gmap string PackageInfo) iterations d :
  (∀ k pkg, m !! k = Some pkg → (Z.of_nat (length (Depends pkg)) < 2 ^ 63)%Z) →
  positive_log (calculatePageRank_log Depends m iterations d).
Proof.
  intros Hlen. unfold calculatePageRank_log.
  induction (Z.to_nat iterations) as [|n IH]; simpl.
  - apply initRank_log; [apply keys_nonempty_size|constructor].
  - by apply rankRound_log.
Qed.

Lemma calculatePageRank_log_empty iterations d :
  calculatePageRank_log Depends (∅ : gmap string PackageInfo) iterations d = (∅, []).
Proof.
  unfold calculatePageRank_log. rewrite map_to_list_empty. simpl.
  induction (Z.to_nat iterations) as [|n IH]; [done|].
  simpl. rewrite IH. unfold rankRound. by rewrite map_to_list_empty.
Qed.

End RankLog.

(** The log of one round on the cycle of S2: two divisions by the number
    of packages for the initial ranks, two for the base ranks, and one
    division by the out-degree 1 for each of the two edges. *)
Lemma division_log_of_one_round :
  (calculatePageRank_log Alpine.Depends alpineCycle 1 Alpine.damping).2
  = [2; 2; 2; 2; 1; 1]%Z.
Proof. vm_compute. reflexivity. Qed.

(** C10.  [calculatePageRank] is a total function, and every division it
    executes has a divisor of at least 1: the log of the divisors, the
    number of packages and the out-degrees [depNum], holds no number below
    1, for any index, any number of iterations and any arithmetic; and on
    the empty index it returns the empty map with an empty log.  Both
    collectors run the same function, over their own record type. *)
Theorem calculatePageRank_never_divides_by_zero :
  ∀ (F : Type) (ops : Float64Ops F) (iterations : Z) (dampingFactor : F),
    (∀ m : gmap string Alpine.PackageInfo,
       (∀ k pkg, m !! k = Some pkg →
                 (Z.of_nat (length (Alpine.Depends pkg)) < 2 ^ 63)%Z) →
       Forall (λ k, 1 ≤ k)%Z
         (calculatePageRank_log Alpine.Depends m iterations dampingFactor).2)
    ∧
    (∀ m : gmap string Centos.PackageInfo,
       (∀ k pkg, m !! k = Some pkg →
                 (Z.of_nat (length (Centos.Depends pkg)) < 2 ^ 63)%Z) →
       Forall (λ k, 1 ≤ k)%Z
         (calculatePageRank_log Centos.Depends m iterations dampingFactor).2)
    ∧
    calculatePageRank_log Alpine.Depends ∅ iterations dampingFactor = (∅, [])
    ∧
    calculatePageRank_log Centos.Depends ∅ iterations dampingFactor = (∅, [])
    ∧
    Alpine.calculatePageRank ∅ iterations dampingFactor = ∅
    ∧
    Centos.calculatePageRank ∅ iterations dampingFactor = ∅.
Proof.
  intros F ops iterations d.
  split; [|split; [|split; [|split; [|split]]]].
  - intros m Hlen. by apply calculatePageRank_log_positive.
  - intros m Hlen. by apply calculatePageRank_log_positive.
  - apply calculatePageRank_log_empty.
  - apply calculatePageRank_log_empty.
  - unfold Alpine.calculatePageRank, calculatePageRank.
    by rewrite calculatePageRank_log_empty.
  - unfold Centos.calculatePageRank, calculatePageRank.
    by rewrite calculatePageRank_log_empty.
Qed.

Lemma depends_length_check {PackageInfo : Type} (Depends : PackageInfo → list string)
    (m : gmap string PackageInfo) :
  forallb (λ entry, (Z.of_nat (length (Depends entry.2)) <? 2 ^ 63)%Z)
          (map_to_list m) = true →
  ∀ k pkg, m !! k = Some pkg → (Z.of_nat (length (Depends pkg)) < 2 ^ 63)%Z.
Proof.
  rewrite forallb_forall. intros Hall k pkg Hk.
  apply elem_of_map_to_list, list_elem_of_In, Hall in Hk.
  by apply Z.ltb_lt in Hk.
Qed.

(** The run of [Collect] on the cycle of S2, in binary64, and on the
    dangling edge of S3, is an instance. *)
Lemma calculatePageRank_divisions_on_cycle :
  Forall (λ k, 1 ≤ k)%Z
    (calculatePageRank_log Alpine.Depends alpineCycle 20 Alpine.damping).2
  ∧
  Forall (λ k, 1 ≤ k)%Z
    (calculatePageRank_log Centos.Depends centosDangling 20 Centos.damping).2.
Proof.
  split.
  - apply (proj1 (calculatePageRank_never_divides_by_zero float float_ops 20 Alpine.damping)).
    apply depends_length_check. vm_compute. reflexivity.
  - apply (proj1 (proj2 (calculatePageRank_never_divides_by_zero
                           float float_ops 20 Centos.damping))).
    apply depends_length_check. vm_compute. reflexivity.
Defined.


(** ** Git links *)

Lemma append_cons c s t : String c s +:+ t = String c (s +:+ t).
Proof. reflexivity. Qed.

Lemma append_nil s : EmptyString +:+ s = s.
Proof. reflexivity. Qed.

Lemma append_cancel p a b : p +:+ a = p +:+ b → a = b.
Proof.
  induction p as [|c p IH]; [done|]. rewrite !append_cons. intros [= Heq]. auto.
Qed.

Lemma append_self_inv a b : a +:+ b = a → b = EmptyString.
Proof.
  induction a as [|c a IH]; [done|]. rewrite append_cons. intros [= Heq]. auto.
Qed.

Lemma strip_prefix_append p s : strip_prefix p (p +:+ s) = Some s.
Proof.
  induction p as [|c p IH]; [done|].
  rewrite append_cons. simpl. by rewrite Ascii.eqb_refl.
Qed.

Lemma span_stops p s : stops p s = true → span p s = (EmptyString, s).
Proof.
  destruct s as [|c s]; [done|]. simpl. by intros ->%negb_true_iff.
Qed.

Lemma span_append p a b :
  all_bytes p a = true → stops p b = true → span p (a +:+ b) = (a, b).
Proof.
  intros Ha Hb. induction a as [|c a IH].
  - rewrite append_nil. by apply span_stops.
  - simpl in Ha. apply andb_true_iff in Ha as [Hc Ha].
    rewrite append_cons. simpl. by rewrite Hc, IH.
Qed.

Lemma all_bytes_append p a b :
  all_bytes p a = true → all_bytes p b = true → all_bytes p (a +:+ b) = true.
Proof.
  intros Ha Hb. induction a as [|c a IH]; [done|].
  simpl in Ha. apply andb_true_iff in Ha as [Hc Ha].
  rewrite append_cons. simpl. by rewrite Hc, IH.
Qed.

Lemma append_not_empty a b : String.eqb a "" = false → String.eqb (a +:+ b) "" = false.
Proof. by destruct a. Qed.

Lemma append_empty_r a : a +:+ EmptyString = a.
Proof.
  induction a as [|c a IH]; [done|]. by rewrite append_cons, IH.
Qed.

(** The path of a link [://github.com/O/R<suffix><tail>], where [suffix]
    has no [/] and no space and [tail] is empty or starts with one: the
    group is [O/R<suffix>]. *)
Lemma matchPath_spec O R suffix tail :
  isSegment O = true → isSegment R = true →
  all_bytes GitMetricSync.segChar suffix = true →
  stops GitMetricSync.segChar tail = true →
  GitMetricSync.matchPath ("://github.com/" +:+ O +:+ "/" +:+ R +:+ suffix +:+ tail)
  = Some (O +:+ "/" +:+ R +:+ suffix).
Proof.
  unfold isSegment. rewrite !andb_true_iff, !negb_true_iff.
  intros [HO0 HO] [HR0 HR] Hs Ht. unfold GitMetricSync.matchPath.
  rewrite strip_prefix_append.
  rewrite (span_append _ O) by done. rewrite HO0.
  rewrite (strip_prefix_append "/").
  replace (R +:+ suffix +:+ tail) with ((R +:+ suffix) +:+ tail).
  - rewrite span_append; [|by apply all_bytes_append|done].
    by rewrite append_not_empty.
  - clear. induction R as [|c R IH]; [done|]. by rewrite !append_cons, IH.
Qed.

Lemma FindStringSubmatch_here link whole g :
  GitMetricSync.matchHere link = Some (whole, g) →
  GitMetricSync.FindStringSubmatch link = [whole; g].
Proof.
  intros Hm. destruct link; cbn [GitMetricSync.FindStringSubmatch]; by rewrite Hm.
Qed.

Lemma canonical_of_match link whole g :
  GitMetricSync.matchHere link = Some (whole, g) →
  GitMetricSync.canonical link = Some ("https://github.com/" +:+ g).
Proof.
  intros Hm. unfold GitMetricSync.canonical, GitMetricSync.normalizeLink.
  rewrite (FindStringSubmatch_here _ _ _ Hm). cbn [length Nat.ltb Nat.leb nth].
  change (String.eqb ("https://github.com/" +:+ g) "") with false. cbn [negb].
  by rewrite insert_empty, map_to_list_singleton.
Qed.

Lemma matchHere_https path g :
  GitMetricSync.matchPath path = Some g →
  GitMetricSync.matchHere ("https" +:+ path) = Some ("https://github.com/" +:+ g, g).
Proof.
  intros Hp. change ("https" +:+ path) with ("http" +:+ "s" +:+ path).
  unfold GitMetricSync.matchHere.
  rewrite (strip_prefix_append "http" ("s" +:+ path)).
  by rewrite (strip_prefix_append "s" path), Hp.
Qed.

Lemma matchHere_http rest g :
  GitMetricSync.matchPath ("://github.com/" +:+ rest) = Some g →
  GitMetricSync.matchHere ("http" +:+ "://github.com/" +:+ rest)
  = Some ("http://github.com/" +:+ g, g).
Proof.
  intros Hp. unfold GitMetricSync.matchHere.
  rewrite (strip_prefix_append "http"). by rewrite Hp.
Qed.

(** C3, as the claim states it, fails: the links [https://github.com/O/R.git]
    and [https://github.com/O/R] are synchronised under two different
    keys, and [git_metrics] gets a row for each. *)
Lemma git_suffix_gives_second_key :
  GitMetricSync.canonical "https://github.com/O/R.git" = Some "https://github.com/O/R.git" ∧
  GitMetricSync.canonical "https://github.com/O/R" = Some "https://github.com/O/R" ∧
  (map_to_list (GitMetricSync.syncGitMetrics (λ _ _ _, 0%Z) ∅ twoLinks)).*1
  = ["https://github.com/O/R.git"; "https://github.com/O/R"].
Proof. vm_compute. done. Qed.

(** C3, amended.  The canonical key of a link is [https://github.com/]
    followed by the owner and the repository name up to the next [/] or
    white space: the scheme [http] becomes [https] and what follows the
    repository name after a [/] is dropped, but a trailing [.git] is part
    of the name and is kept.  So for every owner [O] and repository [R],
    [https://github.com/O/R.git] and [https://github.com/O/R] are each
    their own key, and the two keys differ. *)
Theorem canonical_link_keeps_git_suffix (O R : string) :
  isSegment O = true → isSegment R = true →
  GitMetricSync.canonical ("https://github.com/" +:+ O +:+ "/" +:+ R +:+ ".git")
  = Some ("https://github.com/" +:+ O +:+ "/" +:+ R +:+ ".git") ∧
  GitMetricSync.canonical ("https://github.com/" +:+ O +:+ "/" +:+ R)
  = Some ("https://github.com/" +:+ O +:+ "/" +:+ R) ∧
  GitMetricSync.canonical ("https://github.com/" +:+ O +:+ "/" +:+ R +:+ ".git")
  ≠ GitMetricSync.canonical ("https://github.com/" +:+ O +:+ "/" +:+ R) ∧
  GitMetricSync.canonical ("http://github.com/" +:+ O +:+ "/" +:+ R)
  = Some ("https://github.com/" +:+ O +:+ "/" +:+ R) ∧
  ∀ rest, GitMetricSync.canonical ("https://github.com/" +:+ O +:+ "/" +:+ R +:+ "/" +:+ rest)
          = Some ("https://github.com/" +:+ O +:+ "/" +:+ R).
Proof.
  intros HO HR.
  pose proof (matchPath_spec O R ".git" "" HO HR eq_refl eq_refl) as Hgit.
  pose proof (matchPath_spec O R "" "" HO HR eq_refl eq_refl) as Hplain.
  rewrite !append_empty_r in Hgit. rewrite !append_empty_r in Hplain.
  assert (GitMetricSync.canonical ("https://github.com/" +:+ O +:+ "/" +:+ R +:+ ".git")
          = Some ("https://github.com/" +:+ O +:+ "/" +:+ R +:+ ".git")) as E1.
  { apply canonical_of_match with ("https://github.com/" +:+ O +:+ "/" +:+ R +:+ ".git").
    apply (matchHere_https _ _ Hgit). }
  assert (GitMetricSync.canonical ("https://github.com/" +:+ O +:+ "/" +:+ R)
          = Some ("https://github.com/" +:+ O +:+ "/" +:+ R)) as E2.
  { apply canonical_of_match with ("https://github.com/" +:+ O +:+ "/" +:+ R).
    apply (matchHere_https _ _ Hplain). }
  split; [done|]. split; [done|]. split; [|split].
  - rewrite E1, E2. intros [= Heq].
    apply append_cancel, append_cancel, append_cancel in Heq.
    rewrite <- (append_empty_r R) in Heq at 2. by apply append_cancel in Heq.
  - apply canonical_of_match with ("http://github.com/" +:+ O +:+ "/" +:+ R).
    apply (matchHere_http _ _ Hplain).
  - intros rest.
    pose proof (matchPath_spec O R "" ("/" +:+ rest) HO HR eq_refl eq_refl) as Hrest.
    rewrite append_nil, append_empty_r in Hrest.
    apply canonical_of_match with ("https://github.com/" +:+ O +:+ "/" +:+ R).
    apply (matchHere_https _ _ Hrest).
Qed.

(** The repository [torvalds/linux] is an instance. *)
Lemma canonical_link_of_linux :
  GitMetricSync.canonical ("https://github.com/" +:+ "torvalds" +:+ "/" +:+ "linux" +:+ ".git")
  = Some ("https://github.com/" +:+ "torvalds" +:+ "/" +:+ "linux" +:+ ".git") ∧
  GitMetricSync.canonical ("https://github.com/" +:+ "torvalds" +:+ "/" +:+ "linux")
  = Some ("https://github.com/" +:+ "torvalds" +:+ "/" +:+ "linux") ∧
  GitMetricSync.canonical ("https://github.com/" +:+ "torvalds" +:+ "/" +:+ "linux" +:+ ".git")
  ≠ GitMetricSync.canonical ("https://github.com/" +:+ "torvalds" +:+ "/" +:+ "linux") ∧
  GitMetricSync.canonical ("http://github.com/" +:+ "torvalds" +:+ "/" +:+ "linux")
  = Some ("https://github.com/" +:+ "torvalds" +:+ "/" +:+ "linux") ∧
  ∀ rest, GitMetricSync.canonical
            ("https://github.com/" +:+ "torvalds" +:+ "/" +:+ "linux" +:+ "/" +:+ rest)
          = Some ("https://github.com/" +:+ "torvalds" +:+ "/" +:+ "linux").
Proof.
  apply (canonical_link_keeps_git_suffix "torvalds" "linux"); reflexivity.
Defined.

(** ** Prefixes and spans *)

Lemma str_append_assoc a b c : (a +:+ b) +:+ c = a +:+ (b +:+ c).
Proof. induction a as [|x a IH]; [done|]. by rewrite !append_cons, IH. Qed.

Lemma strip_prefix_spec p : ∀ s r, strip_prefix p s = Some r → s = p +:+ r.
Proof.
  induction p as [|a p IH]; intros s r; simpl; [by intros [= ->]|].
  destruct s as [|b s]; [done|]. destruct (Ascii.eqb_spec a b) as [->|]; [|done].
  intros Hs%IH. by rewrite append_cons, Hs.
Qed.

Lemma span_spec p s : ∀ a b,
  span p s = (a, b) → s = a +:+ b ∧ all_bytes p a = true ∧ stops p b = true.
Proof.
  induction s as [|c s IH]; intros a b; cbn [span]; [by intros [= <- <-]|].
  destruct (p c) eqn:E.
  - destruct (span p s) as [a' b'] eqn:Es. intros [= <- <-].
    destruct (IH a' b' eq_refl) as (-> & Ha & Hb).
    split; [by rewrite append_cons|]. split; [|done]. simpl. by rewrite E.
  - intros [= <- <-]. split; [done|]. split; [done|]. simpl. by rewrite E.
Qed.

(** ** The wait of [getProjectType] *)

Lemma matchReset_digits s minutes seconds :
  DepsDev.matchReset s = Some (minutes, seconds) →
  all_bytes DepsDev.isDigit minutes = true ∧ all_bytes DepsDev.isDigit seconds = true.
Proof.
  unfold DepsDev.matchReset.
  destruct (strip_prefix "rate reset in " s) as [r|]; [|done].
  destruct (span DepsDev.isDigit r) as [m r1] eqn:E1.
  destruct (String.eqb m ""); [done|].
  destruct (strip_prefix "m" r1) as [r2|]; [|done].
  destruct (span DepsDev.isDigit r2) as [sec r3] eqn:E2.
  destruct (String.eqb sec ""); [done|].
  destruct (strip_prefix "s" r3); [|done]. intros [= <- <-].
  apply span_spec in E1 as (_ & ? & _). apply span_spec in E2 as (_ & ? & _). done.
Qed.

Lemma findReset_digits body minutes seconds :
  DepsDev.findReset body = Some (minutes, seconds) →
  all_bytes DepsDev.isDigit minutes = true ∧ all_bytes DepsDev.isDigit seconds = true.
Proof.
  induction body as [|c body IH]; cbn [DepsDev.findReset].
  - destruct (DepsDev.matchReset "") as [g|] eqn:E; [|done].
    intros [= ->]. by eapply matchReset_digits.
  - destruct (DepsDev.matchReset (String c body)) as [g|] eqn:E; [|done].
    intros [= ->]. by eapply matchReset_digits.
Qed.

Lemma digits_value digits : ∀ acc,
  all_bytes DepsDev.isDigit digits = true → (0 ≤ acc)%Z →
  (0 ≤ fold_left (λ acc c, acc * 10 + Z.of_nat (nat_of_ascii c - 48))
         (list_ascii_of_string digits) acc
   < (acc + 1) * 10 ^ Z.of_nat (String.length digits))%Z.
Proof.
  induction digits as [|c digits IH]; intros acc Hd Hacc.
  - simpl. lia.
  - simpl in Hd. apply andb_true_iff in Hd as [Hc Hd].
    cbn [list_ascii_of_string fold_left String.length].
    unfold DepsDev.isDigit in Hc. apply andb_true_iff in Hc as [Hlo Hhi].
    apply Nat.leb_le in Hlo, Hhi.
    specialize (IH (acc * 10 + Z.of_nat (nat_of_ascii c - 48))%Z Hd).
    rewrite Nat2Z.inj_succ, Z.pow_succ_r by lia.
    assert (0 ≤ 10 ^ Z.of_nat (String.length digits))%Z by (apply Z.pow_nonneg; lia).
    nia.
Qed.

Lemma Atoi_small digits :
  all_bytes DepsDev.isDigit digits = true → String.length digits ≤ 8 →
  (0 ≤ DepsDev.Atoi digits < 10 ^ 8)%Z.
Proof.
  intros Hd Hlen. unfold DepsDev.Atoi.
  pose proof (digits_value digits 0 Hd) as Hv.
  assert (10 ^ Z.of_nat (String.length digits) ≤ 10 ^ 8)%Z
    by (apply Z.pow_le_mono_r; lia).
  lia.
Qed.

Lemma waitTime_small minutes seconds :
  (0 ≤ minutes < 10 ^ 8)%Z → (0 ≤ seconds < 10 ^ 8)%Z →
  DepsDev.waitTime minutes seconds = ((minutes * 60 + seconds) * 10 ^ 9)%Z.
Proof.
  intros Hm Hs. unfold DepsDev.waitTime, wrap64.
  rewrite (Z.mod_small (minutes * 60000000000 + 2 ^ 63)) by lia.
  rewrite (Z.mod_small (seconds * 1000000000 + 2 ^ 63)) by lia.
  rewrite Z.mod_small by lia. lia.
Qed.


(** ** Rate limits *)

Lemma getProjectType_final a rest :
  retryable a = false →
  ∃ type evs, DepsDev.getProjectType (a :: rest) = Some (type, evs) ∧
              requests evs = 1 ∧ sleeps evs = 0 ∧
              (∀ status message, a = DepsDev.ContentsErr status message → type = "").
Proof.
  destruct a as [names|[code|] message]; simpl.
  - intros _. eexists _, _. split; [done|]. split; [done|]. split; [done|]. done.
  - destruct (code =? 403)%Z; simpl.
    + destruct (DepsDev.findReset message) as [[minutes seconds]|].
      * rewrite bool_decide_eq_true_2 by eauto. done.
      * intros _. eexists _, _. split; [done|]. split; [done|]. split; [done|]. done.
    + intros _. eexists _, _. split; [done|]. split; [done|]. split; [done|]. done.
  - intros _. eexists _, _. split; [done|]. split; [done|]. split; [done|]. done.
Qed.

Lemma getProjectType_retry a rest :
  retryable a = true →
  ∃ d, DepsDev.getProjectType (a :: rest)
       = match DepsDev.getProjectType rest with
         | Some (type, evs) => Some (type, [EvRequest; EvPrint; EvPrint; EvSleep d] ++ evs)
         | None => None
         end.
Proof.
  destruct a as [names|[code|] message]; simpl; try done.
  destruct (code =? 403)%Z; simpl; [|done].
  destruct (DepsDev.findReset message) as [[minutes seconds]|].
  - intros _. by eexists.
  - rewrite bool_decide_eq_false_2; [done|]. by intros [? ?].
Qed.

(** After [n] rate-limited answers and one that is not: [n + 1] requests
    and [n] sleeps. *)
Lemma getProjectType_retries retried : ∀ final rest,
  forallb retryable retried = true → retryable final = false →
  ∃ type evs, DepsDev.getProjectType (retried ++ final :: rest) = Some (type, evs) ∧
              requests evs = S (length retried) ∧ sleeps evs = length retried ∧
              (∀ status message, final = DepsDev.ContentsErr status message → type = "").
Proof.
  induction retried as [|a retried IH]; intros final rest Hall Hfinal.
  - by apply getProjectType_final.
  - simpl in Hall. apply andb_true_iff in Hall as [Ha Hall].
    destruct (IH final rest Hall Hfinal) as (type & evs & Hrun & Hreq & Hsl & Herr).
    destruct (getProjectType_retry a (retried ++ final :: rest) Ha) as [d Hstep].
    rewrite Hrun in Hstep. eexists _, _. split; [exact Hstep|].
    unfold requests, sleeps in *. simpl. rewrite Hreq, Hsl. done.
Qed.

(** While every answer is rate-limited, [getProjectType] does not return. *)
Lemma getProjectType_keeps_retrying answers :
  forallb retryable answers = true → DepsDev.getProjectType answers = None.
Proof.
  induction answers as [|a answers IH]; [done|]. simpl forallb.
  intros [Ha Hall]%andb_true_iff.
  destruct (getProjectType_retry a answers Ha) as [d ->]. by rewrite IH.
Qed.

Lemma fetch_cases {A : Type} (first second : GithubMetrics.GhError + A) :
  match first with
  | inl (GithubMetrics.RateLimitError wait) =>
      if (0 <? wait)%Z
      then GithubMetrics.fetch first second
           = (second, [EvRequest; EvPrint; EvSleep wait; EvRequest])
      else GithubMetrics.fetch first second = (first, [EvRequest; EvPrint])
  | _ => GithubMetrics.fetch first second = (first, [EvRequest])
  end.
Proof.
  destruct first as [[wait|]|v]; simpl; try done.
  unfold GithubMetrics.fetch. simpl. by destruct (0 <? wait)%Z.
Qed.

(** C8, as the claim states it, fails on [getProjectType]: rate-limited
    twice in a row, it sleeps twice and sends a third request. *)
Lemma getProjectType_retries_twice :
  DepsDev.getProjectType limitedTwice
  = Some ("go", [EvRequest; EvPrint; EvPrint; EvSleep 62000000000;
                 EvRequest; EvPrint; EvPrint; EvSleep 5000000000;
                 EvRequest]) ∧
  (requests <$> (snd <$> DepsDev.getProjectType limitedTwice)) = Some 3.
Proof. vm_compute. done. Qed.

Lemma getProjectType_final_logged a rest type evs :
  retryable a = false →
  DepsDev.getProjectType (a :: rest) = Some (type, evs) →
  ∀ status message, a = DepsDev.ContentsErr status message →
    type = "" ∧ EvPrint ∈ evs ∧ requests evs = 1 ∧ sleeps evs = 0.
Proof.
  intros Hfinal Hrun status message ->. cbn [DepsDev.getProjectType] in Hrun.
  destruct status as [code|]; cbn [retryable] in Hfinal.
  - destruct (code =? 403)%Z.
    + destruct (DepsDev.findReset message) as [[minutes seconds]|].
      * rewrite bool_decide_eq_true_2 in Hfinal by eauto. done.
      * injection Hrun as <- <-. split; [done|]. split; [|done]. right. left.
    + injection Hrun as <- <-. split; [done|]. split; [|done]. right. left.
  - injection Hrun as <- <-. split; [done|]. split; [|done]. right. left.
Qed.

Lemma getProjectType_retries_logged retried : ∀ final rest type evs,
  forallb retryable retried = true →
  DepsDev.getProjectType (retried ++ final :: rest) = Some (type, evs) →
  ∃ evs0 evs1, evs = evs0 ++ evs1 ∧
               DepsDev.getProjectType (final :: rest) = Some (type, evs1).
Proof.
  induction retried as [|a retried IH]; intros final rest type evs Hall Hrun.
  - by exists [], evs.
  - cbn [forallb] in Hall. apply andb_true_iff in Hall as [Ha Hall].
    destruct (getProjectType_retry a (retried ++ final :: rest) Ha) as [d Hstep].
    cbn [app] in Hrun. rewrite Hstep in Hrun.
    destruct (DepsDev.getProjectType (retried ++ final :: rest)) as [[type' evs']|] eqn:E;
      [|done].
    injection Hrun as <- <-.
    destruct (IH final rest type' evs' Hall E) as (evs0 & evs1 & -> & Hfin).
    exists ([EvRequest; EvPrint; EvPrint; EvSleep d] ++ evs0), evs1.
    split; [by rewrite <- app_assoc|done].
Qed.

Lemma Run_final_errors (a : GithubMetrics.Answers) :
  let repoInfo := GithubMetrics.fetch (GithubMetrics.repo1 a) (GithubMetrics.repo2 a) in
  let contributors :=
    GithubMetrics.fetch (GithubMetrics.contributors1 a) (GithubMetrics.contributors2 a) in
  let commits := GithubMetrics.fetch (GithubMetrics.commits1 a) (GithubMetrics.commits2 a) in
  (GithubMetrics.Run a).2
  = (repoInfo.2 ++ finalError repoInfo.1) ++
    (contributors.2 ++ finalError contributors.1) ++
    (commits.2 ++ finalError commits.1) ++ [EvUpdate]
  ∧
  (∀ err, repoInfo.1 = inl err →
     GithubMetrics.StarCount (GithubMetrics.Run a).1 = 0%Z ∧
     GithubMetrics.ForkCount (GithubMetrics.Run a).1 = 0%Z ∧
     GithubMetrics.CreatedSince (GithubMetrics.Run a).1 = 0%Z ∧
     GithubMetrics.UpdatedSince (GithubMetrics.Run a).1 = 0%Z)
  ∧
  (∀ err, contributors.1 = inl err →
     GithubMetrics.ContributorCount (GithubMetrics.Run a).1 = 0%Z)
  ∧
  (∀ err, commits.1 = inl err →
     GithubMetrics.CommitFrequency (GithubMetrics.Run a).1 = 0%Z).
Proof.
  unfold GithubMetrics.Run.
  destruct (GithubMetrics.fetch (GithubMetrics.repo1 a) _) as [[?|?] ev1];
  destruct (GithubMetrics.fetch (GithubMetrics.contributors1 a) _) as [[?|?] ev2];
  destruct (GithubMetrics.fetch (GithubMetrics.commits1 a) _) as [[?|?] ev3];
  cbn [fst snd finalError]; rewrite ?app_nil_r;
  (split; [done|]); (split; [by intros err|]); (split; by intros err).
Qed.

(** C8, amended.
    - Each of the three requests of [githubmetrics.Run] is retried at
      most once: after a typed rate-limit error whose reset lies in the
      future, [Run] prints the wait, sleeps until the reset and sends the
      request once more, and the second answer is final; after any other
      error, or when the reset has passed, it does not retry.
    - A request of [Run] that ends with an error is logged (the line
      [Final error fetching ...]) and leaves zero in its fields: the
      star count, the fork count and the two dates for the repository,
      the contributor count, the commit frequency.  The item is not
      skipped: the row is updated at the end of every run.
    - After an answer with status 403 whose message holds
      [rate reset in <m>m<s>s], [getProjectType] prints the error and
      the wait, sleeps for [Duration(m) * Minute + Duration(s) * Second],
      which is [m] minutes and [s] seconds when neither number has more
      than eight digits, and starts over.
    - It does so without a bound: [n] such answers in a row cost [n]
      sleeps and [n + 1] requests, and [getProjectType] does not return
      while such answers keep coming.
    - Any other error ends [getProjectType]: it is logged, without a
      sleep or another request, and the project type is empty, so that
      the link is skipped. *)
Theorem rate_limit_retries :
  (∀ (A : Type) (first second : GithubMetrics.GhError + A),
     requests (GithubMetrics.fetch first second).2 ≤ 2 ∧
     sleeps (GithubMetrics.fetch first second).2 ≤ 1 ∧
     (∀ wait, first = inl (GithubMetrics.RateLimitError wait) → (0 < wait)%Z →
        GithubMetrics.fetch first second
        = (second, [EvRequest; EvPrint; EvSleep wait; EvRequest])) ∧
     ((∀ wait, first = inl (GithubMetrics.RateLimitError wait) → (wait ≤ 0)%Z) →
        (GithubMetrics.fetch first second).1 = first ∧
        requests (GithubMetrics.fetch first second).2 = 1 ∧
        sleeps (GithubMetrics.fetch first second).2 = 0))
  ∧
  (∀ a,
     let repoInfo := GithubMetrics.fetch (GithubMetrics.repo1 a) (GithubMetrics.repo2 a) in
     let contributors :=
       GithubMetrics.fetch (GithubMetrics.contributors1 a) (GithubMetrics.contributors2 a) in
     let commits :=
       GithubMetrics.fetch (GithubMetrics.commits1 a) (GithubMetrics.commits2 a) in
     (GithubMetrics.Run a).2
     = (repoInfo.2 ++ finalError repoInfo.1) ++
       (contributors.2 ++ finalError contributors.1) ++
       (commits.2 ++ finalError commits.1) ++ [EvUpdate]
     ∧
     (∀ err, repoInfo.1 = inl err →
        GithubMetrics.StarCount (GithubMetrics.Run a).1 = 0%Z ∧
        GithubMetrics.ForkCount (GithubMetrics.Run a).1 = 0%Z ∧
        GithubMetrics.CreatedSince (GithubMetrics.Run a).1 = 0%Z ∧
        GithubMetrics.UpdatedSince (GithubMetrics.Run a).1 = 0%Z)
     ∧
     (∀ err, contributors.1 = inl err →
        GithubMetrics.ContributorCount (GithubMetrics.Run a).1 = 0%Z)
     ∧
     (∀ err, commits.1 = inl err →
        GithubMetrics.CommitFrequency (GithubMetrics.Run a).1 = 0%Z))
  ∧
  (∀ message minutes seconds rest,
     DepsDev.findReset message = Some (minutes, seconds) →
     DepsDev.getProjectType (DepsDev.ContentsErr (Some 403%Z) message :: rest)
     = match DepsDev.getProjectType rest with
       | Some (type, evs) =>
           Some (type,
                 [EvRequest; EvPrint; EvPrint;
                  EvSleep (DepsDev.waitTime (DepsDev.Atoi minutes) (DepsDev.Atoi seconds))]
                 ++ evs)
       | None => None
       end
     ∧
     (String.length minutes ≤ 8 → String.length seconds ≤ 8 →
      DepsDev.waitTime (DepsDev.Atoi minutes) (DepsDev.Atoi seconds)
      = ((DepsDev.Atoi minutes * 60 + DepsDev.Atoi seconds) * 10 ^ 9)%Z))
  ∧
  (∀ retried final rest,
     forallb retryable retried = true → retryable final = false →
     ∃ type evs,
       DepsDev.getProjectType (retried ++ final :: rest) = Some (type, evs) ∧
       requests evs = S (length retried) ∧ sleeps evs = length retried ∧
       (∀ status message, final = DepsDev.ContentsErr status message →
          type = "" ∧ DepsDev.processed type = false ∧
          ∃ evs0 evs1, evs = evs0 ++ evs1 ∧
            DepsDev.getProjectType (final :: rest) = Some (type, evs1) ∧
            EvPrint ∈ evs1 ∧ requests evs1 = 1 ∧ sleeps evs1 = 0))
  ∧
  (∀ answers, forallb retryable answers = true → DepsDev.getProjectType answers = None).
Proof.
  split; [|split; [|split; [|split]]].
  - intros A first second. pose proof (fetch_cases first second) as Hc.
    destruct first as [[wait|]|v].
    + destruct (Z.ltb_spec 0 wait) as [Hpos|Hnpos]; rewrite Hc.
      * split; [simpl; unfold requests; simpl; lia|].
        split; [unfold sleeps; simpl; lia|]. split.
        -- by intros w [= <-] _.
        -- intros Hw. specialize (Hw wait eq_refl). lia.
      * split; [unfold requests; simpl; lia|].
        split; [unfold sleeps; simpl; lia|]. split.
        -- intros w [= <-] Hw. lia.
        -- intros _. done.
    + rewrite Hc. split; [unfold requests; simpl; lia|].
      split; [unfold sleeps; simpl; lia|]. split; [by intros w [=]|done].
    + rewrite Hc. split; [unfold requests; simpl; lia|].
      split; [unfold sleeps; simpl; lia|]. split; [by intros w [=]|done].
  - apply Run_final_errors.
  - intros message minutes seconds rest Hfind. split.
    + cbn [DepsDev.getProjectType]. rewrite Hfind.
      change (403 =? 403)%Z with true. cbn beta iota.
      by destruct (DepsDev.getProjectType rest) as [[type evs]|].
    + intros Hm Hs. apply findReset_digits in Hfind as [Hdm Hds].
      apply waitTime_small; by apply Atoi_small.
  - intros retried final rest Hall Hfinal.
    destruct (getProjectType_retries retried final rest Hall Hfinal)
      as (type & evs & Hrun & Hreq & Hsl & Herr).
    exists type, evs. split; [done|]. split; [done|]. split; [done|].
    intros status message Hf.
    destruct (getProjectType_retries_logged retried final rest type evs Hall Hrun)
      as (evs0 & evs1 & Hevs & Hfin).
    destruct (getProjectType_final_logged final rest type evs1 Hfinal Hfin status message Hf)
      as (Htype & Hlog & Hreq1 & Hsl1).
    split; [done|]. split; [by rewrite Htype|].
    exists evs0, evs1. done.
  - apply getProjectType_keeps_retrying.
Qed.

(** The three answers above are an instance: two retries, three requests;
    their first two alone leave [getProjectType] retrying; and a request
    of [Run] that is rate-limited for 5 nanoseconds is sent once more. *)
Lemma rate_limit_retries_instance :
  (∃ type evs,
     DepsDev.getProjectType
       (firstn 2 limitedTwice ++ DepsDev.ContentsErr None "no route to host" :: [])
     = Some (type, evs) ∧
     requests evs = 3 ∧ sleeps evs = 2 ∧
     (∀ status message,
        DepsDev.ContentsErr None "no route to host"
        = DepsDev.ContentsErr status message →
        type = "" ∧ DepsDev.processed type = false ∧
        ∃ evs0 evs1, evs = evs0 ++ evs1 ∧
          DepsDev.getProjectType [DepsDev.ContentsErr None "no route to host"]
          = Some (type, evs1) ∧
          EvPrint ∈ evs1 ∧ requests evs1 = 1 ∧ sleeps evs1 = 0))
  ∧
  DepsDev.getProjectType (firstn 2 limitedTwice) = None
  ∧
  GithubMetrics.fetch (inl (GithubMetrics.RateLimitError 5)) (inr 7%Z)
  = (inr 7%Z, [EvRequest; EvPrint; EvSleep 5; EvRequest]).
Proof.
  split; [|split].
  - apply (proj1 (proj2 (proj2 (proj2 rate_limit_retries))) (firstn 2 limitedTwice)).
    + vm_compute. reflexivity.
    + vm_compute. reflexivity.
  - apply (proj2 (proj2 (proj2 (proj2 rate_limit_retries))) (firstn 2 limitedTwice)).
    vm_compute. reflexivity.
  - apply (proj1 (proj2 (proj2 (proj1 rate_limit_retries Z
             (inl (GithubMetrics.RateLimitError 5)) (inr 7%Z)))) 5%Z).
    + reflexivity.
    + lia.
Defined.

(** ** PageRank: the mass, in exact arithmetic

    The sum of the ranks is a statement about real numbers.  The binary64
    run rounds after every operation, and in an order that Go's map
    iteration leaves open; what can be proved is the algebra of the same
    program over exact rationals. *)

Local Open Scope Qc_scope.

Lemma cnt_0 : cnt 0 = 0.
Proof. reflexivity. Qed.

Lemma cnt_S n : cnt (S n) = 1 + cnt n.
Proof.
  unfold cnt. apply Qc_is_canon. simpl.
  rewrite !Qred_correct. rewrite Nat2Z.inj_succ, <- Z.add_1_l.
  rewrite inject_Z_plus. reflexivity.
Qed.

Lemma cnt_nonneg n : 0 ≤ cnt n.
Proof.
  induction n as [|n IH]; [done|]. rewrite cnt_S.
  apply Qcplus_nonneg_nonneg; [done|apply IH].
Qed.

Lemma cnt_pos n : (0 < n)%nat → cnt n ≠ 0.
Proof.
  destruct n as [|n]; [lia|]. intros _ Heq. rewrite cnt_S in Heq.
  pose proof (cnt_nonneg n) as Hn.
  assert (0 < 1 + cnt n) as Hlt by (by apply Qcplus_pos_nonneg).
  rewrite Heq in Hlt. by apply Qclt_not_eq in Hlt.
Qed.

Lemma rank_sum_empty : rank_sum ∅ = 0.
Proof. unfold rank_sum. by rewrite map_fold_empty. Qed.

Lemma rank_sum_insert (m : gmap string Qc) k v :
  m !! k = None → rank_sum (<[k := v]> m) = v + rank_sum m.
Proof.
  intros Hk. unfold rank_sum. rewrite map_fold_insert_L; [done| |done].
  intros. ring.
Qed.

Lemma rank_sum_delete (m : gmap string Qc) k v :
  m !! k = Some v → rank_sum m = v + rank_sum (delete k m).
Proof.
  intros Hk. unfold rank_sum. rewrite (map_fold_delete_L _ _ k v m); [done| |done].
  intros. ring.
Qed.

Lemma rank_sum_update (m : gmap string Qc) k v v' :
  m !! k = Some v → rank_sum (<[k := v']> m) = rank_sum m - v + v'.
Proof.
  intros Hk. rewrite <- insert_delete_eq, rank_sum_insert by apply lookup_delete_eq.
  rewrite (rank_sum_delete m k v Hk). ring.
Qed.

Lemma nonneg_ranks_insert (m : gmap string Qc) k v :
  0 ≤ v → nonneg_ranks m → nonneg_ranks (<[k := v]> m).
Proof.
  intros Hv Hm j w. rewrite lookup_insert. case_decide; [by intros [= <-]|apply Hm].
Qed.

Lemma rank_at_nonneg (m : gmap string Qc) k : nonneg_ranks m → 0 ≤ rank_at m k.
Proof.
  intros Hm. unfold rank_at. destruct (m !! k) as [v|] eqn:E; [by apply (Hm k)|done].
Qed.

Lemma rank_sum_nonneg (m : gmap string Qc) : nonneg_ranks m → 0 ≤ rank_sum m.
Proof.
  induction m as [|k v m Hk _ IH] using map_first_key_ind; intros Hm.
  - by rewrite rank_sum_empty.
  - rewrite rank_sum_insert by done. apply Qcplus_nonneg_nonneg.
    + apply (Hm k). by rewrite lookup_insert_eq.
    + apply IH. intros j w Hj. apply (Hm j). rewrite lookup_insert_ne; [done|].
      intros <-. congruence.
Qed.

(** Filling a map with one value [c] at fresh keys, as the first loop of
    [calculatePageRank] and the first loop of every round do. *)
Lemma fill_sum (c : Qc) (n : Z) keys : ∀ st : RankState (F := Qc),
  NoDup keys → (∀ k, k ∈ keys → st.1 !! k = None) →
  let st' := foldl (λ (st : RankState (F := Qc)) k, (<[k := c]> st.1, st.2 ++ [n])) st keys in
  rank_sum st'.1 = rank_sum st.1 + cnt (length keys) * c ∧
  dom st'.1 = dom st.1 ∪ list_to_set keys ∧
  (0 ≤ c → nonneg_ranks st.1 → nonneg_ranks st'.1).
Proof.
  induction keys as [|k keys IH]; intros st Hnd Hfresh; simpl.
  - split; [rewrite cnt_0; ring|]. split; [|done].
    by rewrite (right_id_L ∅ (∪)).
  - apply NoDup_cons in Hnd as [Hk Hnd].
    destruct (IH (<[k := c]> st.1, st.2 ++ [n]) Hnd) as (Hsum & Hdom & Hnn).
    + intros j Hj. simpl. rewrite lookup_insert_ne; [apply Hfresh; by right|].
      intros <-. done.
    + simpl in *. split; [|split].
      * rewrite Hsum, rank_sum_insert by (apply Hfresh; left).
        rewrite (cnt_S (length keys)). ring.
      * rewrite Hdom, dom_insert_L.
        by rewrite (assoc_L (∪) (dom st.1)), (comm_L (∪) (dom st.1) {[k]}).
      * intros Hc Hst. apply Hnn; [done|]. by apply nonneg_ranks_insert.
Qed.

Section RankSum.
Context {PackageInfo : Type}.
Variable Depends : PackageInfo → list string.
Variable m : gmap string PackageInfo.
Hypothesis m_representable : representable Depends m.

Lemma exists_in_dom dep : exists_in m dep = true → dep ∈ dom m.
Proof.
  unfold exists_in. rewrite bool_decide_eq_true. apply elem_of_dom.
Qed.

(** The second inner loop of a round: every in-index entry of [l] gets
    [share] once more. *)
Lemma share_loop_sum (share : Qc) (k : Z) l : ∀ st : RankState (F := Qc),
  dom st.1 = dom m →
  let st' :=
    foldl (λ (st : RankState (F := Qc)) depName,
             if exists_in m depName
             then (<[depName := f_add (rank_at st.1 depName) share]> st.1, st.2 ++ [k])
             else st) st l in
  rank_sum st'.1 = rank_sum st.1 + cnt (length (List.filter (exists_in m) l)) * share ∧
  dom st'.1 = dom m ∧
  (0 ≤ share → nonneg_ranks st.1 → nonneg_ranks st'.1).
Proof.
  induction l as [|dep l IH]; intros st Hdom; simpl.
  - split; [rewrite cnt_0; ring|]. done.
  - destruct (exists_in m dep) eqn:E.
    + assert (is_Some (st.1 !! dep)) as [v Hv]
        by (apply elem_of_dom; rewrite Hdom; by apply exists_in_dom).
      destruct (IH (<[dep := f_add (rank_at st.1 dep) share]> st.1, st.2 ++ [k]))
        as (Hsum & Hdom' & Hnn).
      { simpl. rewrite dom_insert_L, Hdom.
        apply subseteq_union_1_L, singleton_subseteq_l. by apply exists_in_dom. }
      simpl in *. split; [|split; [done|]].
      * rewrite Hsum, (rank_sum_update _ _ v) by done.
        unfold rank_at. rewrite Hv. simpl. rewrite (cnt_S (length _)). ring.
      * intros Hs Hst. apply Hnn; [done|]. apply nonneg_ranks_insert; [|done].
        apply Qcplus_nonneg_nonneg; [by apply rank_at_nonneg|done].
    + by apply IH.
Qed.

Lemma shareRank_sum d pageRank (st : RankState (F := Qc)) entry :
  m !! entry.1 = Some entry.2 →
  dom st.1 = dom m →
  let st' := shareRank Depends m d pageRank st entry in
  rank_sum st'.1 = rank_sum st.1 + passed Depends m d pageRank entry ∧
  dom st'.1 = dom m ∧
  (0 ≤ d → nonneg_ranks pageRank → nonneg_ranks st.1 → nonneg_ranks st'.1).
Proof.
  destruct entry as [pkgName pkgInfo]. cbn [fst snd]. intros Hin Hdom.
  unfold shareRank.
  pose proof (depNum_spec Depends m pkgInfo (proj2 m_representable _ _ Hin)) as Hnum.
  fold (outDegree Depends m pkgInfo) in Hnum. rewrite Hnum.
  destruct (share_loop_sum
              (f_mul d (f_div (rank_at pageRank pkgName)
                              (f_of_int (Z.of_nat (outDegree Depends m pkgInfo)))))
              (Z.of_nat (outDegree Depends m pkgInfo)) (Depends pkgInfo) st Hdom)
    as (Hsum & Hdom' & Hnn).
  split; [|split; [done|]].
  - rewrite Hsum. fold (outDegree Depends m pkgInfo). unfold passed. cbn [fst snd].
    f_equal. change (f_of_int (Z.of_nat (outDegree Depends m pkgInfo))) with (cnt (outDegree Depends m pkgInfo)).
    simpl. case_decide as Hz.
    + rewrite Hz, cnt_0. ring.
    + field. apply cnt_pos. lia.
  - intros Hd Hpr Hst. apply Hnn; [|done].
    simpl. apply Qcmult_nonneg_nonneg; [done|].
    change (f_of_int (Z.of_nat (outDegree Depends m pkgInfo))) with (cnt (outDegree Depends m pkgInfo)).
    unfold Qcdiv. apply Qcmult_nonneg_nonneg; [by apply rank_at_nonneg|].
    destruct (decide (outDegree Depends m pkgInfo = 0%nat)) as [->|Hnz]; [done|].
    apply Qclt_le_weak, Qcinv_pos.
    pose proof (cnt_nonneg (outDegree Depends m pkgInfo)) as Hge.
    apply Qcle_lt_or_eq in Hge as [?|Heq]; [done|].
    exfalso. apply (cnt_pos (outDegree Depends m pkgInfo)); [lia|done].
Qed.

Lemma foldl_shareRank_sum d pageRank entries : ∀ st : RankState (F := Qc),
  (∀ e, e ∈ entries → m !! e.1 = Some e.2) →
  dom st.1 = dom m →
  let st' := foldl (shareRank Depends m d pageRank) st entries in
  rank_sum st'.1 = rank_sum st.1 + passed_sum Depends m d pageRank entries ∧
  dom st'.1 = dom m ∧
  (0 ≤ d → nonneg_ranks pageRank → nonneg_ranks st.1 → nonneg_ranks st'.1).
Proof.
  induction entries as [|e entries IH]; intros st Hent Hdom; simpl.
  - split; [ring|done].
  - destruct (shareRank_sum d pageRank st e) as (Hsum & Hdom' & Hnn);
      [apply Hent; left|done|].
    destruct (IH (shareRank Depends m d pageRank st e)) as (Hsum' & Hdom'' & Hnn');
      [intros e' He'; apply Hent; by right|done|].
    simpl in *. split; [|split; [done|]].
    + rewrite Hsum', Hsum. ring.
    + intros Hd Hpr Hst. apply Hnn'; [done..|]. by apply Hnn.
Qed.

End RankSum.


Section RankMass.
Context {PackageInfo : Type}.
Variable Depends : PackageInfo → list string.
Variable m : gmap string PackageInfo.
Hypothesis m_representable : representable Depends m.
Hypothesis m_nonempty : m ≠ ∅.

Lemma rank_at_delete (pageRank : gmap string Qc) k j :
  k ≠ j → rank_at (delete k pageRank) j = rank_at pageRank j.
Proof. intros Hne. unfold rank_at. by rewrite lookup_delete_ne. Qed.

Lemma key_sum_delete (pageRank : gmap string Qc) k
    (entries : list (string * PackageInfo)) :
  k ∉ entries.*1 → key_sum (delete k pageRank) entries = key_sum pageRank entries.
Proof.
  induction entries as [|e entries IH]; [done|]. cbn [fmap list_fmap].
  rewrite not_elem_of_cons. intros [Hne Hk]. simpl.
  rewrite rank_at_delete by done. by rewrite IH.
Qed.

Lemma key_sum_all (entries : list (string * PackageInfo)) :
  ∀ pageRank : gmap string Qc,
  NoDup entries.*1 → (∀ k, k ∈ entries.*1 ↔ k ∈ dom pageRank) →
  key_sum pageRank entries = rank_sum pageRank.
Proof.
  induction entries as [|e entries IH]; intros pageRank Hnd Hdom.
  - assert (pageRank = ∅) as ->.
    { apply dom_empty_inv_L. apply set_eq. intros k. rewrite <- Hdom.
      cbn [fmap list_fmap]. by rewrite elem_of_nil, elem_of_empty. }
    by rewrite rank_sum_empty.
  - cbn [fmap list_fmap] in Hnd, Hdom. apply NoDup_cons in Hnd as [Hk Hnd].
    assert (is_Some (pageRank !! e.1)) as [v Hv]
      by (apply elem_of_dom, Hdom; left).
    simpl. rewrite (rank_sum_delete pageRank e.1 v Hv).
    unfold rank_at at 1. rewrite Hv. simpl. f_equal.
    rewrite <- (IH (delete e.1 pageRank)); [by rewrite key_sum_delete|done|].
    intros k. rewrite dom_delete_L, elem_of_difference, <- Hdom.
    rewrite elem_of_cons, elem_of_singleton. split.
    + intros Hin. split; [by right|]. intros ->. done.
    + intros [[?|?] ?]; done.
Qed.

Lemma passed_sum_no_dangling d (pageRank : gmap string Qc) entries :
  no_dangling Depends m → (∀ e, e ∈ entries → m !! e.1 = Some e.2) →
  passed_sum Depends m d pageRank entries = d * key_sum pageRank entries.
Proof.
  intros Hnd. induction entries as [|e entries IH]; intros Hent; simpl; [ring|].
  rewrite IH by (intros e' He'; apply Hent; by right).
  unfold passed. pose proof (Hnd e.1 e.2 (Hent e ltac:(left))) as Hpos.
  case_decide; [lia|ring].
Qed.

Lemma passed_sum_le d (pageRank : gmap string Qc) entries :
  0 ≤ d → nonneg_ranks pageRank →
  passed_sum Depends m d pageRank entries ≤ d * key_sum pageRank entries.
Proof.
  intros Hd Hpr. induction entries as [|e entries IH]; simpl.
  - replace (d * 0) with 0 by ring. done.
  - replace (d * (rank_at pageRank e.1 + key_sum pageRank entries))
      with (d * rank_at pageRank e.1 + d * key_sum pageRank entries) by ring.
    apply Qcplus_le_compat; [|done]. unfold passed. case_decide; [|done].
    apply Qcmult_nonneg_nonneg; [done|by apply rank_at_nonneg].
Qed.

Lemma keys_dom k : k ∈ (map_to_list m).*1 ↔ k ∈ dom m.
Proof.
  rewrite elem_of_dom. split.
  - intros ([k' pkg] & -> & Hin)%list_elem_of_fmap.
    apply elem_of_map_to_list in Hin. eauto.
  - intros [pkg Hk]. apply list_elem_of_fmap. exists (k, pkg).
    split; [done|]. by apply elem_of_map_to_list.
Qed.

Lemma keys_of_index (pageRank : gmap string Qc) :
  dom pageRank = dom m →
  ∀ k, k ∈ (map_to_list m).*1 ↔ k ∈ dom pageRank.
Proof. intros -> k. apply keys_dom. Qed.

Lemma size_cnt_ne_0 : cnt (size m) ≠ 0.
Proof.
  apply cnt_pos. destruct (decide (size m = 0%nat)) as [Hz|]; [|lia].
  by apply map_size_empty_inv in Hz.
Qed.

Lemma keys_fresh_empty k : k ∈ (map_to_list m).*1 → (∅ : gmap string Qc) !! k = None.
Proof. intros _. apply lookup_empty. Qed.

(** The ranks before the first round: [1/n] for every package. *)
Lemma initial_ranks :
  let st := foldl (initRank (F := Qc) (Z.of_nat (size m))) (∅, []) (map_to_list m).*1 in
  rank_sum st.1 = 1 ∧ dom st.1 = dom m ∧ nonneg_ranks st.1.
Proof.
  destruct (fill_sum (1 / cnt (size m)) (Z.of_nat (size m)) (map_to_list m).*1 (∅, []))
    as (Hsum & Hdom & Hnn); [apply NoDup_fst_map_to_list|apply keys_fresh_empty|].
  simpl in Hsum, Hdom, Hnn. split; [|split].
  - etransitivity; [exact Hsum|]. rewrite rank_sum_empty, length_fmap, length_map_to_list.
    field. apply size_cnt_ne_0.
  - etransitivity; [exact Hdom|]. rewrite dom_empty_L, (left_id_L ∅ (∪)).
    apply set_eq. intros k. rewrite elem_of_list_to_set. apply keys_dom.
  - apply Hnn; [|intros k v Hk; by rewrite lookup_empty in Hk].
    unfold Qcdiv. apply Qcmult_nonneg_nonneg; [done|].
    apply Qclt_le_weak, Qcinv_pos.
    pose proof (cnt_nonneg (size m)) as Hge.
    apply Qcle_lt_or_eq in Hge as [?|Heq]; [done|].
    exfalso. by apply size_cnt_ne_0.
Qed.

(** One round: the new ranks sum to [(1 - d)] plus what was passed on. *)
Lemma rankRound_sum d (st : RankState (F := Qc)) :
  dom st.1 = dom m →
  let st' := rankRound Depends m (Z.of_nat (size m)) d st in
  rank_sum st'.1 = (1 - d) + passed_sum Depends m d st.1 (map_to_list m) ∧
  dom st'.1 = dom m ∧
  (0 ≤ d → d ≤ 1 → nonneg_ranks st.1 → nonneg_ranks st'.1).
Proof.
  intros Hdom. unfold rankRound.
  destruct (fill_sum ((1 - d) / cnt (size m)) (Z.of_nat (size m))
              (map_to_list m).*1 (∅, st.2))
    as (Hsum & Hdom0 & Hnn); [apply NoDup_fst_map_to_list|apply keys_fresh_empty|].
  simpl in Hsum, Hdom0, Hnn.
  set (base := foldl (baseRank (Z.of_nat (size m)) d) (∅, st.2) (map_to_list m).*1) in *.
  assert (dom base.1 = dom m) as Hdomb.
  { etransitivity; [exact Hdom0|]. rewrite dom_empty_L, (left_id_L ∅ (∪)).
    apply set_eq. intros k. rewrite elem_of_list_to_set. apply keys_dom. }
  destruct (foldl_shareRank_sum Depends m m_representable d st.1 (map_to_list m) base)
    as (Hsum' & Hdom' & Hnn'); [|done|].
  { intros [k pkg] He. by apply elem_of_map_to_list in He. }
  simpl in Hsum', Hdom', Hnn'. split; [|split; [done|]].
  - etransitivity; [exact Hsum'|]. f_equal.
    etransitivity; [exact Hsum|]. rewrite rank_sum_empty, length_fmap, length_map_to_list.
    field. apply size_cnt_ne_0.
  - intros Hd0 Hd1 Hst. apply Hnn'; [done..|]. apply Hnn.
    + unfold Qcdiv. apply Qcmult_nonneg_nonneg.
      * apply Qcle_minus_iff in Hd1. by replace (1 - d) with (1 + - d) by ring.
      * apply Qclt_le_weak, Qcinv_pos.
        pose proof (cnt_nonneg (size m)) as Hge.
        apply Qcle_lt_or_eq in Hge as [?|Heq]; [done|].
        exfalso. by apply size_cnt_ne_0.
    + intros k v Hk. by rewrite lookup_empty in Hk.
Qed.

(** The invariant of the rounds. *)
Lemma rounds_invariant d n :
  let st := Nat.iter n (rankRound Depends m (Z.of_nat (size m)) d)
              (foldl (initRank (F := Qc) (Z.of_nat (size m))) (∅, []) (map_to_list m).*1) in
  dom st.1 = dom m ∧
  (no_dangling Depends m → rank_sum st.1 = 1) ∧
  (0 ≤ d → d ≤ 1 → nonneg_ranks st.1 ∧ rank_sum st.1 ≤ 1).
Proof.
  induction n as [|n IH]; simpl.
  - destruct initial_ranks as (Hsum & Hdom & Hnn). simpl in *.
    split; [done|]. split; [done|]. intros _ _. split; [done|]. by rewrite Hsum.
  - simpl in IH. destruct IH as (Hdom & Heq & Hle).
    destruct (rankRound_sum d _ Hdom) as (Hsum' & Hdom' & Hnn'). simpl in *.
    split; [done|]. split.
    + intros Hnd. rewrite Hsum', passed_sum_no_dangling; [|done|].
      * rewrite key_sum_all;
          [|apply NoDup_fst_map_to_list|by apply keys_of_index].
        rewrite (Heq Hnd). ring.
      * intros [k pkg] He. by apply elem_of_map_to_list in He.
    + intros Hd0 Hd1. destruct (Hle Hd0 Hd1) as [Hnn Hs]. split; [by apply Hnn'|].
      rewrite Hsum'. apply Qcle_trans with ((1 - d) + d * 1).
      * apply Qcplus_le_compat; [done|].
        eapply Qcle_trans; [by apply passed_sum_le|].
        rewrite key_sum_all;
          [|apply NoDup_fst_map_to_list|by apply keys_of_index].
        rewrite !(Qcmult_comm d). by apply Qcmult_le_compat_r.
      * replace (1 - d + d * 1) with 1 by ring. done.
Qed.

End RankMass.

(** In exact arithmetic, for a non-empty index: without dangling packages
    the ranks sum to 1 after any number of rounds, for any damping
    factor; with dangling packages and a damping factor between 0 and 1
    they sum to at most 1. *)
Lemma pagerank_mass_exact {PackageInfo : Type} (Depends : PackageInfo → list string)
    (m : gmap string PackageInfo) (iterations : Z) (d : Qc) :
  representable Depends m → m ≠ ∅ →
  (no_dangling Depends m →
   rank_sum (calculatePageRank Depends m iterations d) = 1) ∧
  (0 ≤ d → d ≤ 1 →
   rank_sum (calculatePageRank Depends m iterations d) ≤ 1).
Proof.
  intros Hrep Hne.
  destruct (rounds_invariant Depends m Hrep Hne d (Z.to_nat iterations))
    as (_ & Heq & Hle).
  split; [done|]. intros Hd0 Hd1. by apply Hle.
Qed.

Local Close Scope Qc_scope.

(** Two runs in binary64, in the iteration order of the model: on the cycle
    of S2 both ranks are exactly one half, and on the dangling edge of S3
    the only rank is [1 - 0.85] as binary64 computes it, below 1. *)
Lemma pagerank_runs_binary64 :
  map_to_list (Alpine.calculatePageRank alpineCycle 20 Alpine.damping)
  = [("A", 0.5%float); ("B", 0.5%float)] ∧
  map_to_list (Alpine.calculatePageRank alpineDangling 20 Alpine.damping)
  = [("A", (1 - Alpine.damping)%float)] ∧
  ((1 - Alpine.damping) <? 1)%float = true.
Proof. vm_compute. done. Qed.

(** The bounds on the mass hold in binary64 on the cycle of S2, where the
    sum is 1, and on the dangling edge of S3, where it is [1 - 0.85] as
    binary64 computes it. *)
Lemma pagerank_mass_binary64_scenarios :
  mass_within_bounds Alpine.Depends alpineCycle ∧
  mass_within_bounds Alpine.Depends alpineDangling ∧
  mass_within_bounds Centos.Depends centosCycle ∧
  mass_within_bounds Centos.Depends centosDangling.
Proof.
  split; [|split; [|split]].
  - eexists. split; [vm_compute; reflexivity|]. split.
    + intros _. split; vm_compute; reflexivity.
    + intros _. vm_compute. discriminate.
  - eexists. split; [vm_compute; reflexivity|]. split.
    + intros Hnd. specialize (Hnd "A" (alpinePkg "A" ["X"]) eq_refl).
      vm_compute in Hnd. lia.
    + intros _. vm_compute. discriminate.
  - eexists. split; [vm_compute; reflexivity|]. split.
    + intros _. split; vm_compute; reflexivity.
    + intros _. vm_compute. discriminate.
  - eexists. split; [vm_compute; reflexivity|]. split.
    + intros Hnd. specialize (Hnd "A" (centosPkg "A" ["X"]) eq_refl).
      vm_compute in Hnd. lia.
    + intros _. vm_compute. discriminate.
Qed.

(** ** The scenarios of the specification, run on the model *)

(** S1, the two-node chain [{A depends B, B depends nothing}], as an
    APKINDEX: closures, counts and persisted edges. *)
Lemma scenario_chain :
  let index := Alpine.getPackageList chainText in
  map_to_list (Alpine.buildDepMap index) = [("A", ["A"; "B"]); ("B", ["B"])] ∧
  (λ entry, (entry.1, Alpine.DependsCount entry.2)) <$> map_to_list (Alpine.Collect index []).1
  = [("A", 1%Z); ("B", 2%Z)] ∧
  (Alpine.Collect index []).2 = [("A", "B")].
Proof. vm_compute. done. Qed.

(** S2, the cycle: both closures hold both packages, both counts are 2. *)
Lemma scenario_cycle :
  map_to_list (Alpine.buildDepMap alpineCycle) = [("A", ["A"; "B"]); ("B", ["B"; "A"])] ∧
  (λ entry, (entry.1, Alpine.DependsCount entry.2))
    <$> map_to_list (Alpine.Collect alpineCycle []).1
  = [("A", 2%Z); ("B", 2%Z)] ∧
  map_to_list (Centos.buildDepMap centosCycle) = [("A", ["A"; "B"]); ("B", ["B"; "A"])].
Proof. vm_compute. done. Qed.

(** S4, a record that lists [B] twice: one edge [(A, B)] is persisted, and
    the closure of [A] holds [B] once. *)
Lemma scenario_duplicate_depends :
  let index := Alpine.getPackageList twiceText in
  Alpine.Depends <$> index !! "A" = Some ["B"; "B"] ∧
  Alpine.buildDepMap index !! "A" = Some ["A"; "B"] ∧
  (Alpine.Collect index []).2 = [("A", "B")].
Proof. vm_compute. done. Qed.

(** S6, the re-run: persisting the chain of S1 a second time leaves the
    relationships table as it is. *)
Lemma scenario_rerun :
  let index := Alpine.getPackageList chainText in
  (Alpine.Collect index (Alpine.Collect index []).2).2 = (Alpine.Collect index []).2.
Proof. vm_compute. done. Qed.

(** * Part III: further properties of the code *)

(** ** The persister: what a run adds to the relationships table *)

Lemma storeDependencies_cut_spec deps : ∀ db f,
  ∃ n, n ≤ length deps ∧
    (storeDependenciesInDatabase db f deps).1 = db ++ (pair f <$> take n deps) ∧
    match (storeDependenciesInDatabase db f deps).2 with
    | None => n = length deps
    | Some err =>
        err = UniqueViolation ∧
        ∃ d, deps !! n = Some d ∧ (f, d) ∈ db ++ (pair f <$> take n deps)
    end.
Proof.
  induction deps as [|d deps IH]; intros db f.
  - exists 0. simpl. by rewrite app_nil_r.
  - cbn [storeDependenciesInDatabase]. unfold execInsert. case_decide as Hin.
    + exists 0. simpl. rewrite app_nil_r. split; [lia|]. split; [done|].
      split; [done|]. by exists d.
    + destruct (IH (db ++ [(f, d)]) f) as (n & Hn & Hrows & Herr).
      exists (S n). cbn [length take fmap list_fmap]. split; [lia|].
      rewrite Hrows, <- app_assoc. split; [done|].
      destruct ((storeDependenciesInDatabase (db ++ [(f, d)]) f deps).2) as [err|].
      * destruct Herr as (-> & d' & Hd' & Hin'). split; [done|].
        exists d'. split; [done|]. by rewrite <- app_assoc in Hin'.
      * by rewrite Herr.
Qed.

Lemma storeDependencies_prefix deps db f :
  db `prefix_of` (storeDependenciesInDatabase db f deps).1.
Proof.
  destruct (storeDependencies_cut_spec deps db f) as (n & _ & -> & _).
  by apply prefix_app_r.
Qed.

Lemma storeDependencies_head deps db f d :
  head deps = Some d → (f, d) ∈ (storeDependenciesInDatabase db f deps).1.
Proof.
  destruct deps as [|d' deps]; [done|]. intros [= ->].
  cbn [storeDependenciesInDatabase]. unfold execInsert. case_decide as Hin; [done|].
  eapply elem_of_prefix; [|apply storeDependencies_prefix].
  apply elem_of_app. right. left.
Qed.

Lemma storeDependencies_noop deps db f :
  (∀ d, head deps = Some d → (f, d) ∈ db) →
  (storeDependenciesInDatabase db f deps).1 = db.
Proof.
  destruct deps as [|d deps]; [done|]. intros Hd.
  cbn [storeDependenciesInDatabase]. unfold execInsert.
  by rewrite decide_True by (by apply Hd).
Qed.

Section PersisterRuns.
Context {PackageInfo : Type}.
Variable Depends : PackageInfo → list string.

Lemma storeAll_prefix entries : ∀ db,
  db `prefix_of` storeAllDependencies Depends db entries.
Proof.
  induction entries as [|e entries IH]; intros db; [done|].
  rewrite storeAll_cons. etrans; [|apply IH]. apply storeDependencies_prefix.
Qed.

Lemma storeAll_heads entries : ∀ db k pkg d,
  (k, pkg) ∈ entries → head (Depends pkg) = Some d →
  (k, d) ∈ storeAllDependencies Depends db entries.
Proof.
  induction entries as [|e entries IH]; intros db k pkg d Hin Hd.
  - by apply elem_of_nil in Hin.
  - rewrite storeAll_cons. apply elem_of_cons in Hin as [<-|Hin]; [|by eapply IH].
    cbn [fst snd]. eapply elem_of_prefix; [|apply storeAll_prefix].
    by apply storeDependencies_head.
Qed.

Lemma storeAll_noop entries : ∀ db,
  (∀ k pkg d, (k, pkg) ∈ entries → head (Depends pkg) = Some d → (k, d) ∈ db) →
  storeAllDependencies Depends db entries = db.
Proof.
  induction entries as [|[k pkg] entries IH]; intros db Hdb; [done|].
  rewrite storeAll_cons. cbn [fst snd]. rewrite storeDependencies_noop.
  - apply IH. intros k' pkg' d Hin. apply Hdb. by right.
  - intros d. apply Hdb. left.
Qed.

(** X1.  The rows one call of [storeDependenciesInDatabase] adds are the
    edges of a prefix of the depends list, in order: the call stops at the
    first token whose edge the table already holds, be it from before or
    from an earlier position of the same list, and returns the unique
    violation; the tokens after it are not written. *)
Theorem storeDependencies_stops_at_first_duplicate db f (deps : list string) :
  ∃ n, n ≤ length deps ∧
    (storeDependenciesInDatabase db f deps).1 = db ++ (pair f <$> take n deps) ∧
    match (storeDependenciesInDatabase db f deps).2 with
    | None => n = length deps
    | Some err =>
        isUniqueViolation err = true ∧
        ∃ d, deps !! n = Some d ∧ (f, d) ∈ db ++ (pair f <$> take n deps)
    end.
Proof.
  destruct (storeDependencies_cut_spec deps db f) as (n & Hn & Hrows & Herr).
  exists n. split; [done|]. split; [done|].
  destruct ((storeDependenciesInDatabase db f deps).2) as [err|]; [|done].
  destruct Herr as (-> & Hd). done.
Qed.

(** X3.  A later run writes nothing for a package whose first depends
    token is the one an earlier run started with: after a run over
    [entries], a run over [entries'] leaves the table as it is, whatever
    the packages of [entries'] list after their first token. *)
Theorem persister_rerun_adds_nothing db (entries entries' : list (string * PackageInfo)) :
  (∀ k pkg' d, (k, pkg') ∈ entries' → head (Depends pkg') = Some d →
     ∃ pkg, (k, pkg) ∈ entries ∧ head (Depends pkg) = Some d) →
  storeAllDependencies Depends (storeAllDependencies Depends db entries) entries'
  = storeAllDependencies Depends db entries.
Proof.
  intros Hsame. apply storeAll_noop. intros k pkg' d Hin Hd.
  destruct (Hsame k pkg' d Hin Hd) as (pkg & Hin0 & Hd0).
  by eapply storeAll_heads.
Qed.

End PersisterRuns.

(** [A] gains the dependency [C] between two runs: the edge [(A, C)] is
    not written by the second run. *)
Lemma persister_rerun_misses_new_edge :
  storeAllDependencies Alpine.Depends
    (storeAllDependencies Alpine.Depends [] firstRun) secondRun
  = storeAllDependencies Alpine.Depends [] firstRun.
Proof.
  apply (persister_rerun_adds_nothing Alpine.Depends [] firstRun secondRun).
  intros k pkg' d Hin Hd. apply list_elem_of_singleton in Hin as [= -> ->].
  exists (alpinePkg "A" ["B"]). split; [left|]. exact Hd.
Defined.

(** ** Depends-counts: the number of packages that reach a package *)

Lemma occ_NoDup_elem v l : NoDup l → occ v l = if decide (v ∈ l) then 1%Z else 0%Z.
Proof.
  intros Hnd. case_decide as Hin.
  - pose proof (occ_elem v l Hin). pose proof (occ_NoDup v l Hnd). lia.
  - by apply occ_not_elem.
Qed.

Lemma occurrences_filter v (entries : list (string * list string)) :
  Forall (λ e : string * list string, NoDup e.2) entries →
  occurrences v entries = Z.of_nat (length (filter (λ e, v ∈ e.2) entries)).
Proof.
  induction 1 as [|e entries He _ IH]; [done|].
  rewrite occurrences_cons, IH, filter_cons, occ_NoDup_elem by done.
  case_decide; cbn [length]; lia.
Qed.

(** The count of [v] is the number of keys of the closure map whose list
    holds [v]. *)
Lemma count_set (depMap : gmap string (list string)) v :
  (∀ k l, depMap !! k = Some l → NoDup l) →
  (Z.of_nat (size depMap) < 2 ^ 63)%Z →
  ∃ S : gset string,
    (∀ p, p ∈ S ↔ ∃ l, depMap !! p = Some l ∧ v ∈ l) ∧
    int_at (buildCountMap (map_to_list depMap)) v = Z.of_nat (size S).
Proof.
  intros Hnd Hsize.
  assert (Forall (λ e : string * list string, NoDup e.2) (map_to_list depMap)) as Hall.
  { apply Forall_forall. intros [k l] Hin. apply elem_of_map_to_list in Hin. simpl. eauto. }
  exists (list_to_set (filter (λ e : string * list string, v ∈ e.2) (map_to_list depMap)).*1).
  split.
  - intros p. rewrite elem_of_list_to_set, list_elem_of_fmap. split.
    + intros ([k l] & -> & Hin). apply list_elem_of_filter in Hin as [Hv Hin].
      apply elem_of_map_to_list in Hin. by exists l.
    + intros (l & Hp & Hv). exists (p, l). split; [done|].
      apply list_elem_of_filter. split; [done|]. by apply elem_of_map_to_list.
  - rewrite buildCountMap_spec, occurrences_filter by (by rewrite ?length_map_to_list).
    rewrite size_list_to_set, length_fmap; [done|].
    eapply sublist_NoDup; [apply (NoDup_fst_map_to_list depMap)|].
    apply fmap_sublist, sublist_filter.
Qed.

Lemma alpine_depMap_lookup packages p l :
  alpine_keyed packages →
  Alpine.buildDepMap packages !! p = Some l →
  is_Some (packages !! p) ∧ NoDup l ∧
  ∀ x, x ∈ l ↔ rtc (in_index_edge Alpine.Depends packages) p x.
Proof.
  intros Hk. unfold Alpine.buildDepMap. rewrite map_lookup_imap.
  destruct (packages !! p) as [pkg|] eqn:E; [|done]. simpl. intros Hl.
  pose proof (Hk _ _ E) as Hname.
  destruct (alpine_closure_spec packages pkg Hk) as (deps & Hc & Hnd & Hreach);
    [by rewrite Hname|].
  rewrite Hc in Hl. injection Hl as <-. rewrite Hname in Hreach. eauto.
Qed.

Lemma alpine_depMap_total packages p :
  alpine_keyed packages → is_Some (packages !! p) →
  is_Some (Alpine.buildDepMap packages !! p).
Proof.
  intros Hk [pkg E]. unfold Alpine.buildDepMap. rewrite map_lookup_imap, E. simpl.
  pose proof (Hk _ _ E) as Hname.
  destruct (alpine_closure_spec packages pkg Hk) as (deps & Hc & _); [by rewrite Hname|].
  rewrite Hc. eauto.
Qed.

Lemma centos_depMap_lookup m p l :
  Centos.buildDepMap m !! p = Some l →
  is_Some (m !! p) ∧ NoDup l ∧
  ∀ x, x ∈ l ↔ rtc (listed_edge Centos.Depends m) p x.
Proof.
  unfold Centos.buildDepMap. rewrite map_lookup_imap.
  destruct (m !! p) as [pkg|] eqn:E; [|done]. simpl. intros Hl.
  destruct (centos_closure_spec m p) as (deps & Hc & Hnd & Hreach); [eauto|].
  rewrite Hc in Hl. injection Hl as <-. eauto.
Qed.

Lemma centos_depMap_total m p :
  is_Some (m !! p) → is_Some (Centos.buildDepMap m !! p).
Proof.
  intros [pkg E]. unfold Centos.buildDepMap. rewrite map_lookup_imap, E. simpl.
  destruct (centos_closure_spec m p) as (deps & Hc & _); [eauto|].
  rewrite Hc. eauto.
Qed.

Lemma depMap_size {A : Type} (f : string → A → option (list string)) (m : gmap string A) :
  size (map_imap f m) ≤ size m.
Proof.
  pose proof (subseteq_size _ _ (dom_imap_subseteq f m)) as Hle.
  by rewrite !size_dom in Hle.
Qed.

(** The set of the packages that reach [k] inside the index, and the
    count [Collect] stores for [k]. *)
Lemma alpine_count_reach packages db k pkg' :
  alpine_keyed packages → (Z.of_nat (size packages) < 2 ^ 63)%Z →
  (Alpine.Collect packages db).1 !! k = Some pkg' →
  ∃ S : gset string,
    (∀ p, p ∈ S ↔ is_Some (packages !! p) ∧
                   rtc (in_index_edge Alpine.Depends packages) p k) ∧
    Alpine.DependsCount pkg' = Z.of_nat (size S).
Proof.
  intros Hk Hsize. unfold Alpine.Collect. cbn [fst].
  rewrite map_lookup_imap. destruct (packages !! k) as [pkg|] eqn:E; [|done].
  intros [= <-]. cbn [Alpine.set_metrics Alpine.DependsCount].
  destruct (count_set (Alpine.buildDepMap packages) k) as (S & HS & Hcount).
  - intros p l Hl. by apply alpine_depMap_lookup in Hl as (_ & ? & _).
  - pose proof (depMap_size (λ _ pkgInfo, Alpine.closure packages pkgInfo) packages).
    unfold Alpine.buildDepMap. lia.
  - exists S. split; [|done]. intros p. rewrite HS. split.
    + intros (l & Hl & Hin). apply alpine_depMap_lookup in Hl as (? & _ & Hreach); [|done].
      split; [done|]. by apply Hreach.
    + intros [Hp Hreach]. destruct (alpine_depMap_total packages p Hk Hp) as [l Hl].
      exists l. split; [done|].
      apply alpine_depMap_lookup in Hl as (_ & _ & Hl); [|done]. by apply Hl.
Qed.

Lemma centos_count_reach m db k pkg' :
  (Z.of_nat (size m) < 2 ^ 63)%Z →
  (Centos.Collect m db).1 !! k = Some pkg' →
  ∃ S : gset string,
    (∀ p, p ∈ S ↔ is_Some (m !! p) ∧ rtc (listed_edge Centos.Depends m) p k) ∧
    Centos.DependsCount pkg' = Z.of_nat (size S).
Proof.
  intros Hsize. unfold Centos.Collect. cbn [fst].
  rewrite map_lookup_imap. destruct (m !! k) as [pkg|] eqn:E; [|done].
  intros [= <-]. cbn [Centos.set_metrics Centos.DependsCount].
  destruct (count_set (Centos.buildDepMap m) k) as (S & HS & Hcount).
  - intros p l Hl. by apply centos_depMap_lookup in Hl as (_ & ? & _).
  - pose proof (depMap_size (λ pkgName _, Centos.closure m pkgName) m).
    unfold Centos.buildDepMap. lia.
  - exists S. split; [|done]. intros p. rewrite HS. split.
    + intros (l & Hl & Hin). apply centos_depMap_lookup in Hl as (? & _ & Hreach).
      split; [done|]. by apply Hreach.
    + intros [Hp Hreach]. destruct (centos_depMap_total m p Hp) as [l Hl].
      exists l. split; [done|].
      apply centos_depMap_lookup in Hl as (_ & _ & Hl). by apply Hl.
Qed.

Lemma reach_set_size {A : Type} (m : gmap string A) (S : gset string) :
  (∀ p, p ∈ S → is_Some (m !! p)) → size S ≤ size m.
Proof.
  intros HS. rewrite <- (size_dom (D := gset string) m). apply subseteq_size.
  intros p Hp. apply elem_of_dom. by apply HS.
Qed.

(** X4.  The depends-count [Collect] stores for a package [k] of an
    Alpine index is the number of packages of the index from which [k] is
    reachable along depends tokens that are packages of the index, [k]
    itself included; so it lies between 1 and the number of packages. *)
Theorem alpine_DependsCount_is_number_of_dependents packages db k pkg' :
  alpine_keyed packages → (Z.of_nat (size packages) < 2 ^ 63)%Z →
  (Alpine.Collect packages db).1 !! k = Some pkg' →
  (∃ S : gset string,
     (∀ p, p ∈ S ↔ is_Some (packages !! p) ∧
                    rtc (in_index_edge Alpine.Depends packages) p k) ∧
     Alpine.DependsCount pkg' = Z.of_nat (size S)) ∧
  (1 ≤ Alpine.DependsCount pkg' ≤ Z.of_nat (size packages))%Z.
Proof.
  intros Hk Hsize Hpkg.
  destruct (alpine_count_reach packages db k pkg' Hk Hsize Hpkg) as (S & HS & Hcount).
  split; [by exists S|]. split; [by eapply alpine_DependsCount_pos|].
  rewrite Hcount. apply inj_le, reach_set_size. intros p Hp. by apply HS in Hp as [? _].
Qed.

(** X5.  The depends-count [Collect] stores for a package [k] of a CentOS
    index is the number of packages of the index from which [k] is
    reachable along required names, [k] itself included. *)
Theorem centos_DependsCount_is_number_of_dependents m db k pkg' :
  (Z.of_nat (size m) < 2 ^ 63)%Z →
  (Centos.Collect m db).1 !! k = Some pkg' →
  (∃ S : gset string,
     (∀ p, p ∈ S ↔ is_Some (m !! p) ∧ rtc (listed_edge Centos.Depends m) p k) ∧
     Centos.DependsCount pkg' = Z.of_nat (size S)) ∧
  (1 ≤ Centos.DependsCount pkg' ≤ Z.of_nat (size m))%Z.
Proof.
  intros Hsize Hpkg.
  destruct (centos_count_reach m db k pkg' Hsize Hpkg) as (S & HS & Hcount).
  split; [by exists S|]. split; [by eapply centos_DependsCount_pos|].
  rewrite Hcount. apply inj_le, reach_set_size. intros p Hp. by apply HS in Hp as [? _].
Qed.

(** X6.  Depends-counts grow along dependencies: when the package [u]
    reaches the package [v], the count of [v] is at least the count of
    [u], in both collectors. *)
Theorem DependsCount_grows_along_dependencies :
  (∀ packages db u v pu pv,
     alpine_keyed packages → (Z.of_nat (size packages) < 2 ^ 63)%Z →
     (Alpine.Collect packages db).1 !! u = Some pu →
     (Alpine.Collect packages db).1 !! v = Some pv →
     rtc (in_index_edge Alpine.Depends packages) u v →
     (Alpine.DependsCount pu ≤ Alpine.DependsCount pv)%Z)
  ∧
  (∀ m db u v pu pv,
     (Z.of_nat (size m) < 2 ^ 63)%Z →
     (Centos.Collect m db).1 !! u = Some pu →
     (Centos.Collect m db).1 !! v = Some pv →
     rtc (listed_edge Centos.Depends m) u v →
     (Centos.DependsCount pu ≤ Centos.DependsCount pv)%Z).
Proof.
  split.
  - intros packages db u v pu pv Hk Hsize Hu Hv Huv.
    destruct (alpine_count_reach packages db u pu Hk Hsize Hu) as (Su & HSu & ->).
    destruct (alpine_count_reach packages db v pv Hk Hsize Hv) as (Sv & HSv & ->).
    apply inj_le, subseteq_size. intros p Hp. apply HSu in Hp as [Hp Hpu].
    apply HSv. split; [done|]. by etrans.
  - intros m db u v pu pv Hsize Hu Hv Huv.
    destruct (centos_count_reach m db u pu Hsize Hu) as (Su & HSu & ->).
    destruct (centos_count_reach m db v pv Hsize Hv) as (Sv & HSv & ->).
    apply inj_le, subseteq_size. intros p Hp. apply HSu in Hp as [Hp Hpu].
    apply HSv. split; [done|]. by etrans.
Qed.

Lemma alpine_DependsCount_on_cycle :
  (∃ S : gset string,
     (∀ p, p ∈ S ↔ is_Some (alpineCycle !! p) ∧
                    rtc (in_index_edge Alpine.Depends alpineCycle) p "A") ∧
     Alpine.DependsCount (alpineCycleAfter "A") = Z.of_nat (size S)) ∧
  (1 ≤ Alpine.DependsCount (alpineCycleAfter "A") ≤ Z.of_nat (size alpineCycle))%Z.
Proof.
  apply (alpine_DependsCount_is_number_of_dependents alpineCycle [] "A").
  - apply alpine_keyed_check. vm_compute. reflexivity.
  - vm_compute. reflexivity.
  - vm_compute. reflexivity.
Defined.

Lemma centos_DependsCount_on_cycle :
  (∃ S : gset string,
     (∀ p, p ∈ S ↔ is_Some (centosCycle !! p) ∧
                    rtc (listed_edge Centos.Depends centosCycle) p "A") ∧
     Centos.DependsCount (centosCycleAfter "A") = Z.of_nat (size S)) ∧
  (1 ≤ Centos.DependsCount (centosCycleAfter "A") ≤ Z.of_nat (size centosCycle))%Z.
Proof.
  apply (centos_DependsCount_is_number_of_dependents centosCycle [] "A").
  - vm_compute. reflexivity.
  - vm_compute. reflexivity.
Defined.

Lemma DependsCount_grows_on_cycle :
  (Alpine.DependsCount (alpineCycleAfter "A") ≤ Alpine.DependsCount (alpineCycleAfter "B"))%Z ∧
  (Centos.DependsCount (centosCycleAfter "A") ≤ Centos.DependsCount (centosCycleAfter "B"))%Z.
Proof.
  split.
  - apply (proj1 DependsCount_grows_along_dependencies alpineCycle [] "A" "B").
    + apply alpine_keyed_check. vm_compute. reflexivity.
    + vm_compute. reflexivity.
    + vm_compute. reflexivity.
    + vm_compute. reflexivity.
    + apply rtc_once. exists (alpinePkg "A" ["B"]).
      split; [vm_compute; reflexivity|]. split; [left|].
      exists (alpinePkg "B" ["A"]). vm_compute. reflexivity.
  - apply (proj2 DependsCount_grows_along_dependencies centosCycle [] "A" "B").
    + vm_compute. reflexivity.
    + vm_compute. reflexivity.
    + vm_compute. reflexivity.
    + apply rtc_once. exists (centosPkg "A" ["B"]).
      split; [vm_compute; reflexivity|]. left.
Defined.

(** ** PageRank: which packages get a rank *)

Section RankDomain.
Context {PackageInfo : Type}.
Variable Depends : PackageInfo → list string.
Variable m : gmap string PackageInfo.
Context {F : Type} `{Float64Ops F}.

Lemma fill_dom (c : F) (n : Z) keys : ∀ st : RankState (F := F),
  dom (foldl (λ (st : RankState (F := F)) k, (<[k := c]> st.1, st.2 ++ [n])) st keys).1
  = dom st.1 ∪ list_to_set keys.
Proof.
  induction keys as [|k keys IH]; intros st; cbn [foldl].
  - simpl. by rewrite (right_id_L ∅ (∪)).
  - rewrite IH. simpl. rewrite dom_insert_L.
    by rewrite (assoc_L (∪) (dom st.1)), (comm_L (∪) (dom st.1) {[k]}).
Qed.

Lemma keys_set : list_to_set (map_to_list m).*1 = dom m.
Proof.
  apply set_eq. intros k. rewrite elem_of_list_to_set. apply keys_dom.
Qed.

Lemma share_loop_dom (share : F) (k : Z) l : ∀ st : RankState (F := F),
  dom st.1 = dom m →
  dom (foldl (λ (st : RankState (F := F)) depName,
                if exists_in m depName
                then (<[depName := f_add (rank_at st.1 depName) share]> st.1, st.2 ++ [k])
                else st) st l).1 = dom m.
Proof.
  induction l as [|dep l IH]; intros st Hdom; cbn [foldl]; [done|].
  apply IH. destruct (exists_in m dep) eqn:E; [|done].
  cbn [fst]. rewrite dom_insert_L, Hdom.
  apply exists_in_dom in E. apply subseteq_union_1_L. by apply singleton_subseteq_l.
Qed.

Lemma foldl_shareRank_dom d pageRank entries : ∀ st : RankState (F := F),
  dom st.1 = dom m →
  dom (foldl (shareRank Depends m d pageRank) st entries).1 = dom m.
Proof.
  induction entries as [|[k pkg] entries IH]; intros st Hdom; cbn [foldl]; [done|].
  apply IH. unfold shareRank. by apply share_loop_dom.
Qed.

Lemma rankRound_dom n d (st : RankState (F := F)) :
  dom (rankRound Depends m n d st).1 = dom m.
Proof.
  unfold rankRound. apply foldl_shareRank_dom.
  etrans; [apply (fill_dom (f_div (f_sub f_one d) (f_of_int n)) n
                    (map_to_list m).*1 (∅, st.2))|].
  cbn [fst]. by rewrite dom_empty_L, (left_id_L ∅ (∪)), keys_set.
Qed.

Lemma calculatePageRank_dom (iterations : Z) (d : F) :
  dom (calculatePageRank Depends m iterations d) = dom m.
Proof.
  unfold calculatePageRank, calculatePageRank_log.
  destruct (Z.to_nat iterations) as [|n]; cbn [Nat.iter].
  - etrans; [apply (fill_dom (f_div f_one (f_of_int (Z.of_nat (size m))))
                      (Z.of_nat (size m)) (map_to_list m).*1 (∅, []))|].
    cbn [fst]. by rewrite dom_empty_L, (left_id_L ∅ (∪)), keys_set.
  - apply rankRound_dom.
Qed.

End RankDomain.

(** X7.  [calculatePageRank] returns a rank for every package of the index
    and for nothing else, whatever the number of rounds, the damping
    factor and the arithmetic; so [Collect] never reads the zero value of
    a missing rank.  This holds for both collectors. *)
Theorem calculatePageRank_ranks_every_package :
  ∀ (F : Type) (ops : Float64Ops F) (iterations : Z) (dampingFactor : F),
    (∀ m : gmap string Alpine.PackageInfo,
       dom (Alpine.calculatePageRank m iterations dampingFactor) = dom m)
    ∧
    (∀ m : gmap string Centos.PackageInfo,
       dom (Centos.calculatePageRank m iterations dampingFactor) = dom m).
Proof.
  intros F ops iterations d. split; intros m; apply calculatePageRank_dom.
Qed.

Lemma no_dangling_check {PackageInfo : Type} (Depends : PackageInfo → list string)
    (m : gmap string PackageInfo) :
  forallb (λ entry, 0 <? outDegree Depends m entry.2) (map_to_list m) = true →
  no_dangling Depends m.
Proof.
  rewrite forallb_forall. intros Hall k pkg Hk.
  apply elem_of_map_to_list, list_elem_of_In, Hall in Hk.
  by apply Nat.ltb_lt in Hk.
Qed.

Lemma representable_check {PackageInfo : Type} (Depends : PackageInfo → list string)
    (m : gmap string PackageInfo) :
  (Z.of_nat (size m) <? 2 ^ 63)%Z = true →
  forallb (λ entry, (Z.of_nat (length (Depends entry.2)) <? 2 ^ 63)%Z)
          (map_to_list m) = true →
  representable Depends m.
Proof.
  intros Hsize Hall. split; [by apply Z.ltb_lt|]. by apply depends_length_check.
Qed.

(** X27.  Computed over exact rationals instead of binary64 numbers,
    [calculatePageRank] keeps the mass of the ranks: for a non-empty index
    in which every package lists a package of the index, the ranks sum to
    1 after any number of rounds and for any damping factor; with
    packages that list none, and a damping factor between 0 and 1, they
    sum to at most 1.  This holds for both collectors. *)
Theorem pagerank_mass_in_exact_arithmetic :
  (∀ (m : gmap string Alpine.PackageInfo) (iterations : Z) (d : Qc),
     representable Alpine.Depends m → m ≠ ∅ →
     (no_dangling Alpine.Depends m →
      rank_sum (Alpine.calculatePageRank m iterations d) = 1%Qc) ∧
     ((0 ≤ d)%Qc → (d ≤ 1)%Qc →
      (rank_sum (Alpine.calculatePageRank m iterations d) ≤ 1)%Qc))
  ∧
  (∀ (m : gmap string Centos.PackageInfo) (iterations : Z) (d : Qc),
     representable Centos.Depends m → m ≠ ∅ →
     (no_dangling Centos.Depends m →
      rank_sum (Centos.calculatePageRank m iterations d) = 1%Qc) ∧
     ((0 ≤ d)%Qc → (d ≤ 1)%Qc →
      (rank_sum (Centos.calculatePageRank m iterations d) ≤ 1)%Qc)).
Proof.
  split; intros m iterations d Hrep Hne; by apply pagerank_mass_exact.
Qed.

(** On the cycle of S2, with the damping factor 17/20 and exact rational
    arithmetic, the ranks sum to 1 after 20 rounds. *)
Lemma pagerank_mass_on_cycle :
  rank_sum (Alpine.calculatePageRank alpineCycle 20%Z (Q2Qc (17 # 20))) = 1%Qc.
Proof.
  apply (proj1 pagerank_mass_in_exact_arithmetic alpineCycle 20%Z (Q2Qc (17 # 20))).
  - apply representable_check; vm_compute; reflexivity.
  - intros Hempty. apply (f_equal (λ m : gmap string Alpine.PackageInfo, m !! "A")) in Hempty.
    vm_compute in Hempty. discriminate Hempty.
  - apply no_dangling_check. vm_compute. reflexivity.
Defined.

(** ** The parsers: what every index holds *)

Lemma index_from_single c s : ∀ i, (0 ≤ i)%Z →
  (index_from i (String c EmptyString) s = (-1)%Z ∧ no_byte c s = true) ∨
  ∃ a b, s = a +:+ String c b ∧ no_byte c a = true ∧
         index_from i (String c EmptyString) s = (i + Z.of_nat (String.length a))%Z.
Proof.
  induction s as [|x s IH]; intros i Hi; [by left|].
  cbn [index_from strip_prefix no_byte]. destruct (Ascii.eqb c x) eqn:E.
  - right. apply Ascii.eqb_eq in E as <-. exists EmptyString, s.
    split; [done|]. split; [done|]. simpl. lia.
  - destruct (IH (i + 1)%Z) as [[Hidx Hno]|(a & b & -> & Ha & Hidx)]; [lia|..].
    + left. by rewrite Hidx, Hno.
    + right. exists (String x a), b. split; [done|]. split.
      * simpl. by rewrite E, Ha.
      * rewrite Hidx. cbn [String.length]. lia.
Qed.

Lemma all_bytes_drop p n : ∀ s, all_bytes p s = true → all_bytes p (str_drop n s) = true.
Proof.
  induction n as [|n IH]; intros [|c s] Hs; try done.
  simpl in Hs. apply andb_true_iff in Hs as [_ Hs]. by apply IH.
Qed.

Lemma all_bytes_take p n : ∀ s, all_bytes p s = true → all_bytes p (str_take n s) = true.
Proof.
  induction n as [|n IH]; intros [|c s] Hs; try done.
  simpl in Hs. apply andb_true_iff in Hs as [Hc Hs]. simpl. by rewrite Hc, IH.
Qed.

Lemma normalizeDep_clean dep :
  all_bytes nonSpace dep = true → cleanToken (Alpine.normalizeDep dep) = true.
Proof.
  intros Hdep. unfold Alpine.normalizeDep, Index.
  set (dep1 := if negb (index_from 0 ":" dep =? -1)%Z
               then str_drop (Z.to_nat (index_from 0 ":" dep + 1)) dep else dep).
  assert (all_bytes nonSpace dep1 = true) as H1.
  { unfold dep1. destruct (negb _); [by apply all_bytes_drop|done]. }
  clearbody dep1. unfold cleanToken.
  destruct (index_from_single "=" dep1 0) as [[Hidx Hno]|(a & b & Hsplit & Ha & Hidx)]; [lia|..].
  - rewrite Hidx. simpl. by rewrite Hno, H1.
  - rewrite Hidx.
    replace (0 + Z.of_nat (String.length a) =? -1)%Z with false
      by (symmetry; apply Z.eqb_neq; lia).
    cbn [negb]. rewrite Z.add_0_l, Nat2Z.id.
    rewrite all_bytes_take by done. rewrite Hsplit, str_take_append. by rewrite Ha.
Qed.

Lemma fields_aux_tokens s : ∀ cur,
  all_bytes nonSpace cur = true →
  Forall (λ t, all_bytes nonSpace t = true) (fields_aux cur s).
Proof.
  induction s as [|c s IH]; intros cur Hcur; cbn [fields_aux].
  - destruct (String.eqb cur EmptyString); [done|by constructor].
  - destruct (asciiSpace c) eqn:E.
    + destruct (String.eqb cur EmptyString); [by apply IH|].
      constructor; [done|by apply IH].
    + apply IH. apply all_bytes_append; [done|]. simpl. unfold nonSpace. by rewrite E.
Qed.

Lemma depends_loop_clean l : ∀ pkg,
  Forall (λ t, all_bytes nonSpace t = true) l →
  Forall (λ t, cleanToken t = true) (Alpine.Depends pkg) →
  Forall (λ t, cleanToken t = true)
    (Alpine.Depends
       (foldl (λ pkg dep,
                 Alpine.set_Depends (Alpine.Depends pkg ++ [Alpine.normalizeDep dep]) pkg)
              pkg l)).
Proof.
  induction l as [|dep l IH]; intros pkg Hl Hpkg; [done|].
  apply Forall_cons in Hl as [Hdep Hl]. cbn [foldl]. apply IH; [done|].
  cbn [Alpine.set_Depends Alpine.Depends]. apply Forall_app. split; [done|].
  constructor; [by apply normalizeDep_clean|done].
Qed.

Lemma parseLine_clean pkg line :
  Forall (λ t, cleanToken t = true) (Alpine.Depends pkg) →
  Forall (λ t, cleanToken t = true) (Alpine.Depends (Alpine.parseLine pkg line)).
Proof.
  intros Hpkg. unfold Alpine.parseLine.
  destruct (String.length line <? 2); [done|].
  destruct (String.eqb _ "P:"); [done|].
  destruct (String.eqb _ "V:"); [done|].
  destruct (String.eqb _ "D:");
    [apply depends_loop_clean; [by apply fields_aux_tokens|done]|].
  destruct (String.eqb _ "T:"); [done|].
  by destruct (String.eqb _ "U:").
Qed.

Lemma parseEntry_clean entry :
  Forall (λ t, cleanToken t = true) (Alpine.Depends (Alpine.parseEntry entry)).
Proof.
  unfold Alpine.parseEntry.
  assert (∀ lines pkg, Forall (λ t, cleanToken t = true) (Alpine.Depends pkg) →
            Forall (λ t, cleanToken t = true)
              (Alpine.Depends (foldl Alpine.parseLine pkg lines))) as Hloop.
  { induction lines as [|line lines IH]; intros pkg Hpkg; [done|].
    cbn [foldl]. by apply IH, parseLine_clean. }
  apply Hloop. constructor.
Qed.

Lemma foldl_addPackage_elem pkgs : ∀ packageList k pkg,
  foldl Alpine.addPackage packageList pkgs !! k = Some pkg →
  packageList !! k = Some pkg ∨ (pkg ∈ pkgs ∧ Alpine.PackageName pkg = k ∧ k ≠ "").
Proof.
  induction pkgs as [|p pkgs IH]; intros packageList k pkg; cbn [foldl]; [by left|].
  intros Hk. apply IH in Hk as [Hk|(Hin & Hname & Hne)].
  - unfold Alpine.addPackage in Hk.
    destruct (String.eqb_spec (Alpine.PackageName p) "") as [Heq|Hne]; [by left|].
    apply lookup_insert_Some in Hk as [[<- <-]|[_ Hk]]; [|by left].
    right. split; [left|done].
  - right. split; [by right|done].
Qed.

(** X8.  Every record of an index [getPackageList] builds is stored under
    its own, non-empty name, is one of the entries of the text, and lists
    dependency tokens without a [=] and without white space. *)
Theorem getPackageList_invariants data k pkg :
  Alpine.getPackageList data !! k = Some pkg →
  k ≠ "" ∧ Alpine.PackageName pkg = k ∧ pkg ∈ alpineRecords data ∧
  Forall (λ t, cleanToken t = true) (Alpine.Depends pkg).
Proof.
  unfold Alpine.getPackageList. fold (alpineRecords data). intros Hk.
  apply foldl_addPackage_elem in Hk as [Hk|(Hin & Hname & Hne)].
  - by rewrite lookup_empty in Hk.
  - split; [done|]. split; [done|]. split; [done|].
    unfold alpineRecords in Hin. apply list_elem_of_fmap in Hin as (entry & -> & _).
    apply parseEntry_clean.
Qed.

Lemma getPackageList_invariants_on_chain :
  "A" ≠ "" ∧ Alpine.PackageName (alpinePkg "A" ["B"]) = "A" ∧
  alpinePkg "A" ["B"] ∈ alpineRecords chainText ∧
  Forall (λ t, cleanToken t = true) (Alpine.Depends (alpinePkg "A" ["B"])).
Proof.
  apply (getPackageList_invariants chainText "A" (alpinePkg "A" ["B"])).
  vm_compute. reflexivity.
Defined.

Lemma parseTokens_description toks : ∀ pkgInfo depends r,
  String.length (Centos.Description pkgInfo) ≤ 255 →
  Centos.parseTokens pkgInfo depends toks = Some r →
  String.length (Centos.Description r) ≤ 255.
Proof.
  induction toks as [|tok toks IH]; intros pkgInfo depends r Hlen; cbn [Centos.parseTokens].
  - by intros [= <-].
  - destruct tok; try (apply IH; done); [|done].
    apply IH. cbn [Centos.set_Description Centos.Description].
    apply capDescription_length.
Qed.

Lemma parseTokens_fails toks : ∀ pkgInfo depends,
  Centos.parseTokens pkgInfo depends toks = None ↔ Centos.TokenError ∈ toks.
Proof.
  induction toks as [|tok toks IH]; intros pkgInfo depends; cbn [Centos.parseTokens].
  - split; [done|]. by intros ?%elem_of_nil.
  - rewrite elem_of_cons. destruct tok; rewrite ?IH; try (split; [by right|by intros [?|?]]).
    split; [by left|done].
Qed.

Lemma centosRecords_description doc pkg :
  pkg ∈ centosRecords doc → String.length (Centos.Description pkg) ≤ 255.
Proof.
  unfold centosRecords. rewrite list_elem_of_omap. intros (tok & _ & Hpkg).
  destruct tok as [type xml toks| | |]; try done.
  destruct (String.eqb type "rpm"); [|done].
  eapply parseTokens_description; [|exact Hpkg]. simpl. lia.
Qed.

(** X9.  Every record of an index [getDependencies] builds is stored under
    its own name, is the record of one of the [rpm] packages of the
    document, and has a description of at most 255 bytes. *)
Theorem getDependencies_invariants doc m k pkg :
  Centos.getDependencies ∅ doc = Centos.Returns m → m !! k = Some pkg →
  Centos.Name pkg = k ∧ pkg ∈ centosRecords doc ∧
  String.length (Centos.Description pkg) ≤ 255.
Proof.
  intros Hrun Hk. rewrite (centos_getDependencies_lookup _ _ _ k Hrun), lookup_empty in Hk.
  assert (pkg ∈ List.filter (named_centos k) (centosRecords doc)) as Hin.
  { destruct (List.filter _ _) as [|p l]; [done|]. injection Hk as ->. left. }
  apply list_elem_of_In, filter_In in Hin as [Hin Hname]. apply list_elem_of_In in Hin.
  split; [by apply String.eqb_eq in Hname|]. split; [done|].
  by eapply centosRecords_description.
Qed.

Lemma getDependencies_invariants_instance :
  Centos.Name (Centos.set_URL "first" (centosPkg "a" [])) = "a" ∧
  Centos.set_URL "first" (centosPkg "a" []) ∈ centosRecords duplicatePackages ∧
  String.length (Centos.Description (Centos.set_URL "first" (centosPkg "a" []))) ≤ 255.
Proof.
  apply (getDependencies_invariants duplicatePackages
           (<["a" := Centos.set_URL "first" (centosPkg "a" [])]> ∅) "a").
  - vm_compute. reflexivity.
  - vm_compute. reflexivity.
Defined.

(** ** Link synchronisation: the rows of [git_metrics] after a run *)

Lemma matchPath_shape s g :
  GitMetricSync.matchPath s = Some g →
  ∃ o r, isSegment o = true ∧ isSegment r = true ∧ g = o +:+ "/" +:+ r.
Proof.
  unfold GitMetricSync.matchPath.
  destruct (strip_prefix "://github.com/" s) as [r0|]; [|done].
  destruct (span GitMetricSync.segChar r0) as [owner r1] eqn:E1.
  destruct (String.eqb owner "") eqn:Eo; [done|].
  destruct (strip_prefix "/" r1) as [r2|]; [|done].
  destruct (span GitMetricSync.segChar r2) as [repo r3] eqn:E2.
  destruct (String.eqb repo "") eqn:Er; [done|]. intros [= <-].
  exists owner, repo.
  apply span_spec in E1 as (_ & Ho & _). apply span_spec in E2 as (_ & Hr & _).
  unfold isSegment. by rewrite Eo, Er, Ho, Hr.
Qed.

Lemma matchHere_shape s whole g :
  GitMetricSync.matchHere s = Some (whole, g) →
  ∃ o r, isSegment o = true ∧ isSegment r = true ∧ g = o +:+ "/" +:+ r.
Proof.
  unfold GitMetricSync.matchHere.
  destruct (strip_prefix "http" s) as [s1|]; [|done].
  destruct (match strip_prefix "s" s1 with
            | Some s2 => GitMetricSync.matchPath s2
            | None => None
            end) as [g1|] eqn:E1.
  - intros [= _ <-]. destruct (strip_prefix "s" s1) as [s2|]; [|done].
    by eapply matchPath_shape.
  - destruct (GitMetricSync.matchPath s1) as [g2|] eqn:E2; [|done].
    intros [= _ <-]. by eapply matchPath_shape.
Qed.

Lemma FindStringSubmatch_cases link :
  GitMetricSync.FindStringSubmatch link = [] ∨
  ∃ whole o r, isSegment o = true ∧ isSegment r = true ∧
    GitMetricSync.FindStringSubmatch link = [whole; o +:+ "/" +:+ r].
Proof.
  induction link as [|c link IH]; cbn [GitMetricSync.FindStringSubmatch].
  - destruct (GitMetricSync.matchHere "") as [[whole g]|] eqn:E; [|by left].
    right. apply matchHere_shape in E as (o & r & Ho & Hr & ->). by exists whole, o, r.
  - destruct (GitMetricSync.matchHere (String c link)) as [[whole g]|] eqn:E; [|done].
    right. apply matchHere_shape in E as (o & r & Ho & Hr & ->). by exists whole, o, r.
Qed.

(** The first loop of [syncGitMetrics] adds the key of the link, if the
    link has one. *)
Lemma normalizeLink_canonical acc link :
  GitMetricSync.normalizeLink acc link
  = match GitMetricSync.canonical link with
    | Some k => <[k := true]> acc
    | None => acc
    end.
Proof.
  unfold GitMetricSync.canonical, GitMetricSync.normalizeLink.
  destruct (FindStringSubmatch_cases link) as [->|(whole & o & r & _ & _ & ->)].
  - simpl. by rewrite map_to_list_empty.
  - cbn [length Nat.ltb Nat.leb nth].
    change (String.eqb ("https://github.com/" +:+ o +:+ "/" +:+ r) "") with false.
    cbn [negb]. by rewrite insert_empty, map_to_list_singleton.
Qed.

Lemma canonical_shape link k :
  GitMetricSync.canonical link = Some k →
  ∃ o r, isSegment o = true ∧ isSegment r = true ∧
         k = "https://github.com/" +:+ o +:+ "/" +:+ r.
Proof.
  unfold GitMetricSync.canonical, GitMetricSync.normalizeLink.
  destruct (FindStringSubmatch_cases link) as [->|(whole & o & r & Ho & Hr & ->)].
  - simpl. by rewrite map_to_list_empty.
  - cbn [length Nat.ltb Nat.leb nth].
    change (String.eqb ("https://github.com/" +:+ o +:+ "/" +:+ r) "") with false.
    cbn [negb]. rewrite insert_empty, map_to_list_singleton. intros [= <-].
    by exists o, r.
Qed.

Lemma normalized_lookup links : ∀ (acc : gmap string bool) k,
  (∀ j b, acc !! j = Some b → b = true) →
  bool_at (foldl GitMetricSync.normalizeLink acc links) k = true ↔
  bool_at acc k = true ∨ ∃ link, link ∈ links ∧ GitMetricSync.canonical link = Some k.
Proof.
  induction links as [|link links IH]; intros acc k Hacc; cbn [foldl].
  - split; [by left|]. intros [?|(? & ?%elem_of_nil & _)]; done.
  - rewrite IH.
    + rewrite normalizeLink_canonical. split.
      * intros [Hk|(l & Hl & Hc)]; [|right; exists l; split; [by right|done]].
        destruct (GitMetricSync.canonical link) as [k'|] eqn:E; [|by left].
        rewrite bool_at_insert in Hk. case_decide as Heq; [|by left].
        subst k'. right. exists link. split; [left|done].
      * intros [Hk|(l & Hl & Hc)].
        -- left. destruct (GitMetricSync.canonical link) as [k'|]; [|done].
           rewrite bool_at_insert. by case_decide.
        -- apply elem_of_cons in Hl as [->|Hl]; [|right; by exists l].
           left. rewrite Hc, bool_at_insert. by rewrite decide_True.
    + intros j b. rewrite normalizeLink_canonical.
      destruct (GitMetricSync.canonical link) as [k'|]; [|apply Hacc].
      intros [[_ <-]|[_ Hj]]%lookup_insert_Some; [done|by eapply Hacc].
Qed.

Lemma normalized_values links : ∀ (acc : gmap string bool),
  (∀ j b, acc !! j = Some b → b = true) →
  ∀ j b, foldl GitMetricSync.normalizeLink acc links !! j = Some b → b = true.
Proof.
  induction links as [|link links IH]; intros acc Hacc; cbn [foldl]; [done|].
  apply IH. intros j b. rewrite normalizeLink_canonical.
  destruct (GitMetricSync.canonical link) as [k'|]; [|apply Hacc].
  intros [[_ <-]|[_ Hj]]%lookup_insert_Some; [done|by eapply Hacc].
Qed.

Lemma map_keys_elem {A : Type} (m : gmap string A) k :
  k ∈ (map_to_list m).*1 ↔ is_Some (m !! k).
Proof.
  split.
  - intros ([k' pkg] & -> & Hin)%list_elem_of_fmap.
    apply elem_of_map_to_list in Hin. eauto.
  - intros [pkg Hk]. apply list_elem_of_fmap. exists (k, pkg).
    split; [done|]. by apply elem_of_map_to_list.
Qed.

(** The keys of a set of links: the keys its links are synchronised under. *)
Lemma normalized_keys (gitLinks : gmap string bool) k :
  bool_at (foldl GitMetricSync.normalizeLink ∅ (map_to_list gitLinks).*1) k = true ↔
  ∃ link, is_Some (gitLinks !! link) ∧ GitMetricSync.canonical link = Some k.
Proof.
  rewrite normalized_lookup by (intros j b; by rewrite lookup_empty).
  split.
  - intros [Hk|(link & Hl & Hc)]; [done|]. exists link. split; [|done].
    by apply map_keys_elem.
  - intros (link & Hl & Hc). right. exists link. split; [|done].
    by apply map_keys_elem.
Qed.

Lemma bool_at_is_Some (m : gmap string bool) k :
  (∀ j b, m !! j = Some b → b = true) →
  bool_at m k = true ↔ is_Some (m !! k).
Proof.
  intros Hm. unfold bool_at. destruct (m !! k) as [b|] eqn:E; simpl.
  - rewrite (Hm _ _ E). split; [eauto|done].
  - split; [done|]. by intros [? ?].
Qed.

Lemma foldl_delete_lookup (f : gmap string Z → string → gmap string Z)
    (P : string → bool) :
  (∀ t link, f t link = if P link then delete link t else t) →
  ∀ keys t j,
    foldl f t keys !! j
    = if decide (j ∈ keys) then (if P j then None else t !! j) else t !! j.
Proof.
  intros Hf. induction keys as [|k keys IH]; intros t j; cbn [foldl].
  - rewrite decide_False; [done|]. by intros ?%elem_of_nil.
  - rewrite IH, Hf. destruct (decide (j = k)) as [->|Hne].
    + rewrite (decide_True (P := k ∈ k :: keys)) by left.
      destruct (P k) eqn:E; [|by case_decide].
      rewrite lookup_delete_eq. by case_decide.
    + assert (j ∈ k :: keys ↔ j ∈ keys) as Hin.
      { rewrite elem_of_cons. split; [by intros [?|?]|by right]. }
      assert ((if P k then delete k t else t) !! j = t !! j) as ->.
      { destruct (P k); [by rewrite lookup_delete_ne|done]. }
      destruct (decide (j ∈ keys)) as [Hj|Hj].
      * by rewrite decide_True by (by apply Hin).
      * by rewrite decide_False by (by rewrite Hin).
Qed.

Lemma foldl_insert_lookup (f : gmap string Z → string → gmap string Z)
    (Q : string → bool) (v : string → Z) :
  (∀ t link, f t link = if Q link then <[link := v link]> t else t) →
  ∀ keys t j,
    foldl f t keys !! j
    = if decide (j ∈ keys) then (if Q j then Some (v j) else t !! j) else t !! j.
Proof.
  intros Hf. induction keys as [|k keys IH]; intros t j; cbn [foldl].
  - rewrite decide_False; [done|]. by intros ?%elem_of_nil.
  - rewrite IH, Hf. destruct (decide (j = k)) as [->|Hne].
    + rewrite (decide_True (P := k ∈ k :: keys)) by left.
      destruct (Q k) eqn:E; [|by case_decide].
      rewrite lookup_insert_eq. by case_decide.
    + assert (j ∈ k :: keys ↔ j ∈ keys) as Hin.
      { rewrite elem_of_cons. split; [by intros [?|?]|by right]. }
      assert ((if Q k then <[k := v k]> t else t) !! j = t !! j) as ->.
      { destruct (Q k); [by rewrite lookup_insert_ne|done]. }
      destruct (decide (j ∈ keys)) as [Hj|Hj].
      * by rewrite decide_True by (by apply Hin).
      * by rewrite decide_False by (by rewrite Hin).
Qed.

Lemma split_aux_piece c a rest : ∀ cur,
  no_byte c a = true →
  split_aux (String c EmptyString) 0 cur (a +:+ String c rest)
  = (cur +:+ a) :: split_aux (String c EmptyString) 0 EmptyString rest.
Proof.
  induction a as [|x a IH]; intros cur Ha.
  - rewrite append_nil, append_empty_r. simpl. by rewrite Ascii.eqb_refl.
  - simpl in Ha. apply andb_true_iff in Ha as [Hx Ha]. apply negb_true_iff in Hx.
    rewrite append_cons. simpl. rewrite Hx, IH by done.
    by rewrite str_append_assoc.
Qed.

Lemma split_aux_last c a : ∀ cur,
  no_byte c a = true →
  split_aux (String c EmptyString) 0 cur a = [cur +:+ a].
Proof.
  induction a as [|x a IH]; intros cur Ha.
  - by rewrite append_empty_r.
  - simpl in Ha. apply andb_true_iff in Ha as [Hx Ha]. apply negb_true_iff in Hx.
    simpl. rewrite Hx, IH by done. by rewrite str_append_assoc.
Qed.

Lemma segment_no_slash s : isSegment s = true → no_byte "/" s = true.
Proof.
  unfold isSegment. intros [_ Hs]%andb_true_iff.
  induction s as [|c s IH]; [done|]. simpl in Hs.
  apply andb_true_iff in Hs as [Hc Hs]. cbn [no_byte]. rewrite IH by done.
  rewrite andb_true_r. unfold GitMetricSync.segChar in Hc.
  apply andb_true_iff in Hc as [Hc _]. apply negb_true_iff.
  destruct (Ascii.eqb_spec "/" c) as [<-|]; [|done].
  vm_compute in Hc. discriminate Hc.
Qed.

(** The pieces of a key between its slashes. *)
Lemma Split_key o r :
  isSegment o = true → isSegment r = true →
  Split ("https://github.com/" +:+ o +:+ "/" +:+ r) "/"
  = ["https:"; ""; "github.com"; o; r].
Proof.
  intros Ho%segment_no_slash Hr%segment_no_slash. unfold Split.
  change ("https://github.com/" +:+ o +:+ "/" +:+ r)
    with ("https:" +:+ String "/" ("" +:+ String "/"
            ("github.com" +:+ String "/" (o +:+ String "/" r)))).
  rewrite (split_aux_piece "/" "https:") by done.
  rewrite (split_aux_piece "/" "") by done.
  rewrite (split_aux_piece "/" "github.com") by done.
  rewrite (split_aux_piece "/" o) by done.
  rewrite (split_aux_last "/" r) by done.
  by rewrite !append_nil.
Qed.

Section SyncRows.
Variable queryDepsDev : string → string → string → Z.

(** The row of a link after a run of [syncGitMetrics]: none when the link
    is not the key of a given link, the old row when there is one, and
    else a new row with the count deps.dev gives. *)
Lemma syncGitMetrics_lookup (git_metrics : gmap string Z) (gitLinks : gmap string bool) j :
  GitMetricSync.syncGitMetrics queryDepsDev git_metrics gitLinks !! j
  = if bool_at (foldl GitMetricSync.normalizeLink ∅ (map_to_list gitLinks).*1) j
    then match git_metrics !! j with
         | Some count => Some count
         | None => Some (queryDepsDev "github" (nth 3 (Split j "/") "")
                                      (nth 4 (Split j "/") ""))
         end
    else None.
Proof.
  unfold GitMetricSync.syncGitMetrics.
  set (N := foldl GitMetricSync.normalizeLink ∅ (map_to_list gitLinks).*1).
  set (dbLinks := (λ _ : Z, true) <$> git_metrics).
  assert (∀ j b, N !! j = Some b → b = true) as HN.
  { apply normalized_values. intros i b. by rewrite lookup_empty. }
  assert (∀ j b, dbLinks !! j = Some b → b = true) as Hdb.
  { intros i b. unfold dbLinks. rewrite lookup_fmap.
    destruct (git_metrics !! i); simpl; by intros [= <-]. }
  rewrite (foldl_insert_lookup _
             (λ link, negb (bool_at dbLinks link) && (5 <=? length (Split link "/")))
             (λ link, queryDepsDev "github" (nth 3 (Split link "/") "")
                                   (nth 4 (Split link "/") "")))
    by (intros t link; by destruct (negb _), (5 <=? _)).
  rewrite (foldl_delete_lookup _ (λ link, negb (bool_at N link)))
    by (intros t link; by destruct (negb _)).
  assert (bool_at dbLinks j = bool_decide (is_Some (git_metrics !! j))) as Hdbj.
  { unfold bool_at, dbLinks. rewrite lookup_fmap. by destruct (git_metrics !! j). }
  destruct (bool_at N j) eqn:EN.
  - assert (j ∈ (map_to_list N).*1) as HjN
      by (by apply map_keys_elem, bool_at_is_Some).
    rewrite (decide_True (P := j ∈ (map_to_list N).*1)) by done.
    assert ((5 <=? length (Split j "/")) = true) as ->.
    { apply normalized_keys in EN as (link & _ & Hc).
      apply canonical_shape in Hc as (o & r & Ho & Hr & ->).
      by rewrite Split_key. }
    rewrite Hdbj, andb_true_r. cbn [negb].
    destruct (git_metrics !! j) as [count|] eqn:E.
    + rewrite bool_decide_eq_true_2 by eauto. cbn [negb].
      by case_decide.
    + rewrite bool_decide_eq_false_2 by (by intros [? ?]). done.
  - assert (j ∉ (map_to_list N).*1) as HjN.
    { rewrite map_keys_elem, <- bool_at_is_Some by done. by rewrite EN. }
    rewrite (decide_False (P := j ∈ (map_to_list N).*1)) by done.
    cbn [negb]. case_decide as Hin; [done|].
    destruct (git_metrics !! j) as [count|] eqn:E; [|done].
    exfalso. apply Hin, map_keys_elem. unfold dbLinks. rewrite lookup_fmap, E. eauto.
Qed.

(** X12.  After [syncGitMetrics] the table holds a row exactly for the
    keys of the given links; a row that was there before keeps its count
    (deps.dev is not asked again), and a new row for the key
    [https://github.com/<o>/<r>] gets the count deps.dev gives for the
    system [github], the package [<o>] and the version [<r>]. *)
Theorem syncGitMetrics_rows (git_metrics : gmap string Z) (gitLinks : gmap string bool) :
  (∀ k, is_Some (GitMetricSync.syncGitMetrics queryDepsDev git_metrics gitLinks !! k) ↔
        ∃ link, is_Some (gitLinks !! link) ∧ GitMetricSync.canonical link = Some k)
  ∧
  (∀ k count,
     git_metrics !! k = Some count →
     is_Some (GitMetricSync.syncGitMetrics queryDepsDev git_metrics gitLinks !! k) →
     GitMetricSync.syncGitMetrics queryDepsDev git_metrics gitLinks !! k = Some count)
  ∧
  (∀ k,
     git_metrics !! k = None →
     is_Some (GitMetricSync.syncGitMetrics queryDepsDev git_metrics gitLinks !! k) →
     ∃ o r, isSegment o = true ∧ isSegment r = true ∧
            k = "https://github.com/" +:+ o +:+ "/" +:+ r ∧
            GitMetricSync.syncGitMetrics queryDepsDev git_metrics gitLinks !! k
            = Some (queryDepsDev "github" o r)).
Proof.
  split; [|split].
  - intros k. rewrite syncGitMetrics_lookup, <- normalized_keys.
    destruct (bool_at _ k).
    + split; [done|]. intros _. destruct (git_metrics !! k); eauto.
    + split; [by intros [? ?]|done].
  - intros k count Hk. rewrite syncGitMetrics_lookup, Hk.
    destruct (bool_at _ k); [done|by intros [? ?]].
  - intros k Hk. rewrite syncGitMetrics_lookup, Hk.
    destruct (bool_at _ k) eqn:EN; [|by intros [? ?]]. intros _.
    apply normalized_keys in EN as (link & _ & Hc).
    apply canonical_shape in Hc as (o & r & Ho & Hr & ->).
    exists o, r. split; [done|]. split; [done|]. split; [done|].
    by rewrite Split_key.
Qed.

End SyncRows.

(** X11.  A second run of [syncGitMetrics] over the same links leaves the
    table of the first run as it is, whatever deps.dev would answer this
    time: it deletes no row and inserts none, every key being in
    [dbLinks] by then, so that no answer of deps.dev reaches the table. *)
Theorem syncGitMetrics_rerun_changes_nothing
    (firstAnswers secondAnswers : string → string → string → Z)
    (git_metrics : gmap string Z) (gitLinks : gmap string bool) :
  GitMetricSync.syncGitMetrics secondAnswers
    (GitMetricSync.syncGitMetrics firstAnswers git_metrics gitLinks) gitLinks
  = GitMetricSync.syncGitMetrics firstAnswers git_metrics gitLinks.
Proof.
  apply map_eq. intros j.
  rewrite (syncGitMetrics_lookup secondAnswers
             (GitMetricSync.syncGitMetrics firstAnswers git_metrics gitLinks)).
  rewrite !syncGitMetrics_lookup.
  destruct (bool_at _ j); [|done]. by destruct (git_metrics !! j).
Qed.

Lemma canonical_matches link k :
  GitMetricSync.canonical link = Some k → GitMetricSyncRun.MatchString link = true.
Proof.
  unfold GitMetricSync.canonical, GitMetricSync.normalizeLink, GitMetricSyncRun.MatchString.
  destruct (GitMetricSync.FindStringSubmatch link); [|done].
  simpl. by rewrite map_to_list_empty.
Qed.

Lemma addLink_rows rows : ∀ (gitLinks : gmap string bool) link,
  is_Some (foldl GitMetricSyncRun.addLink gitLinks rows !! link) ↔
  is_Some (gitLinks !! link) ∨
  (Some link ∈ rows ∧ GitMetricSyncRun.MatchString link = true).
Proof.
  induction rows as [|row rows IH]; intros gitLinks link; cbn [foldl].
  - split; [by left|]. intros [?|[?%elem_of_nil _]]; done.
  - rewrite IH, elem_of_cons. unfold GitMetricSyncRun.addLink.
    destruct row as [s|]; [destruct (GitMetricSyncRun.MatchString s) eqn:Es|].
    + rewrite lookup_insert_is_Some. split.
      * intros [[->|[_ ?]]|[? ?]]; [right; by split; [left|]|by left|right; by split; [right|]].
      * intros [?|[[[= ->]|?] ?]]; [|by left; left|by right].
        destruct (decide (s = link)) as [->|]; left; [by left|by right].
    + split.
      * intros [?|[? ?]]; [by left|right; by split; [right|]].
      * intros [?|[[[= ->]|?] ?]]; [by left|congruence|by right].
    + split.
      * intros [?|[? ?]]; [by left|right; by split; [right|]].
      * intros [?|[[?|?] ?]]; [by left|done|by right].
Qed.

(** X26.  After [gitmetricsync.Run] the table [git_metrics] holds a row
    exactly for the keys of the links of [debian_packages] and
    [arch_packages]: a NULL link and a link without a GitHub repository
    address give no row. *)
Theorem gitmetricsync_Run_rows (queryDepsDev : string → string → string → Z)
    (git_metrics : gmap string Z) (debian_packages arch_packages : list (option string))
    (k : string) :
  is_Some (GitMetricSyncRun.Run queryDepsDev git_metrics debian_packages arch_packages !! k)
  ↔ ∃ link, (Some link ∈ debian_packages ∨ Some link ∈ arch_packages) ∧
            GitMetricSync.canonical link = Some k.
Proof.
  unfold GitMetricSyncRun.Run. rewrite syncGitMetrics_lookup.
  assert (∀ link, is_Some (GitMetricSyncRun.fetchGitLinks [debian_packages; arch_packages]
                             !! link) ↔
                  (Some link ∈ debian_packages ∨ Some link ∈ arch_packages) ∧
                  GitMetricSyncRun.MatchString link = true) as Hfetch.
  { intros link. unfold GitMetricSyncRun.fetchGitLinks. cbn [foldl].
    rewrite !addLink_rows, lookup_empty. split.
    - intros [[[? ?]|[? ?]]|[? ?]]; [done|by split; [left|]|by split; [right|]].
    - intros [[?|?] ?]; [left; by right|by right]. }
  split.
  - destruct (bool_at _ k) eqn:EN; [|by intros [? ?]]. intros _.
    apply normalized_keys in EN as (link & Hl & Hc). exists link. split; [|done].
    by apply Hfetch in Hl as [? _].
  - intros (link & Hl & Hc).
    assert (bool_at (foldl GitMetricSync.normalizeLink ∅
              (map_to_list (GitMetricSyncRun.fetchGitLinks
                              [debian_packages; arch_packages])).*1) k = true) as ->.
    { apply normalized_keys. exists link. split; [|done]. apply Hfetch.
      split; [done|]. by eapply canonical_matches. }
    destruct (git_metrics !! k); eauto.
Qed.

(** ** From the synchronised links to the deps.dev enricher *)

Lemma length_append a b : String.length (a +:+ b) = String.length a + String.length b.
Proof. induction a as [|x a IH]; [done|]. rewrite append_cons. simpl. by rewrite IH. Qed.

Lemma HasPrefix_append p s : HasPrefix (p +:+ s) p = true.
Proof. unfold HasPrefix. by rewrite strip_prefix_append. Qed.

Lemma TrimSuffix_append s suffix : TrimSuffix (s +:+ suffix) suffix = s.
Proof.
  unfold TrimSuffix, HasSuffix. rewrite length_append.
  replace (String.length s + String.length suffix - String.length suffix)
    with (String.length s) by lia.
  rewrite str_drop_append, String.eqb_refl, str_take_append.
  by rewrite (proj2 (Nat.leb_le _ _)) by lia.
Qed.

Lemma linkTarget_key o r :
  isSegment o = true → isSegment r = true →
  DepsDevRun.linkTarget ("https://github.com/" +:+ o +:+ "/" +:+ r)
  = Some (o, TrimSuffix r ".git").
Proof.
  intros Ho Hr. unfold DepsDevRun.linkTarget.
  rewrite HasPrefix_append, Split_key by done. cbn [length Nat.leb nth].
  unfold TrimSuffix. by destruct (HasSuffix r ".git").
Qed.

Lemma segment_append a b :
  isSegment a = true → all_bytes GitMetricSync.segChar b = true →
  isSegment (a +:+ b) = true.
Proof.
  unfold isSegment. intros [Ha0 Ha]%andb_true_iff Hb.
  apply negb_true_iff in Ha0.
  by rewrite append_not_empty, all_bytes_append.
Qed.

(** X13.  Every row [syncGitMetrics] leaves in the table is one the
    deps.dev enricher processes: its key is [https://github.com/<o>/<r>]
    for an owner and a repository name without [/] and white space, and
    [Run] looks it up under the owner [<o>] and the repository [<r>]
    without a trailing [.git]. *)
Theorem synced_rows_are_looked_up (queryDepsDev : string → string → string → Z)
    (git_metrics : gmap string Z) (gitLinks : gmap string bool) (k : string) :
  is_Some (GitMetricSync.syncGitMetrics queryDepsDev git_metrics gitLinks !! k) →
  ∃ o r, isSegment o = true ∧ isSegment r = true ∧
         k = "https://github.com/" +:+ o +:+ "/" +:+ r ∧
         DepsDevRun.linkTarget k = Some (o, TrimSuffix r ".git").
Proof.
  rewrite syncGitMetrics_lookup. destruct (bool_at _ k) eqn:EN; [|by intros [? ?]].
  intros _. apply normalized_keys in EN as (link & _ & Hc).
  apply canonical_shape in Hc as (o & r & Ho & Hr & ->).
  exists o, r. split; [done|]. split; [done|]. split; [done|].
  by apply linkTarget_key.
Qed.

Lemma synced_rows_are_looked_up_instance :
  ∃ o r, isSegment o = true ∧ isSegment r = true ∧
         "https://github.com/O/R.git" = "https://github.com/" +:+ o +:+ "/" +:+ r ∧
         DepsDevRun.linkTarget "https://github.com/O/R.git" = Some (o, TrimSuffix r ".git").
Proof.
  apply (synced_rows_are_looked_up (λ _ _ _, 0%Z) ∅ twoLinks "https://github.com/O/R.git").
  vm_compute. by eexists.
Defined.

(** X14.  The two rows that the links [.../O/R.git] and [.../O/R] leave
    in [git_metrics] are looked up by the deps.dev enricher as the same
    repository [O/R]. *)
Theorem git_suffix_rows_share_target (O R : string) :
  isSegment O = true → isSegment R = true → HasSuffix R ".git" = false →
  DepsDevRun.linkTarget ("https://github.com/" +:+ O +:+ "/" +:+ R +:+ ".git") = Some (O, R) ∧
  DepsDevRun.linkTarget ("https://github.com/" +:+ O +:+ "/" +:+ R) = Some (O, R).
Proof.
  intros HO HR Hsuffix. split.
  - change ("https://github.com/" +:+ O +:+ "/" +:+ R +:+ ".git")
      with ("https://github.com/" +:+ O +:+ "/" +:+ (R +:+ ".git")).
    rewrite linkTarget_key; [by rewrite TrimSuffix_append|done|].
    by apply segment_append.
  - rewrite linkTarget_key by done. unfold TrimSuffix. by rewrite Hsuffix.
Qed.

Lemma git_suffix_rows_share_target_instance :
  DepsDevRun.linkTarget ("https://github.com/" +:+ "O" +:+ "/" +:+ "R" +:+ ".git")
  = Some ("O", "R") ∧
  DepsDevRun.linkTarget ("https://github.com/" +:+ "O" +:+ "/" +:+ "R") = Some ("O", "R").
Proof.
  apply (git_suffix_rows_share_target "O" "R"); vm_compute; reflexivity.
Defined.

(** ** The deps.dev enricher *)

Lemma latest_invariant versions :
  (foldl DepsDevRun.latestStep ("", 0%Z) versions = ("", 0%Z) ∧
   Forall (λ w, (DepsDevRun.PublishedAt w ≤ 0)%Z) versions) ∨
  ∃ pre v post,
    versions = pre ++ v :: post ∧
    foldl DepsDevRun.latestStep ("", 0%Z) versions
    = (DepsDevRun.Version v, DepsDevRun.PublishedAt v) ∧
    (0 < DepsDevRun.PublishedAt v)%Z ∧
    Forall (λ w, (DepsDevRun.PublishedAt w < DepsDevRun.PublishedAt v)%Z) pre ∧
    Forall (λ w, (DepsDevRun.PublishedAt w ≤ DepsDevRun.PublishedAt v)%Z) post.
Proof.
  induction versions as [|x versions IH] using rev_ind; [left; by split|].
  rewrite foldl_app. cbn [foldl].
  destruct IH as [[-> Hall]|(pre & v & post & -> & -> & Hpos & Hpre & Hpost)];
    unfold DepsDevRun.latestStep.
  - destruct (Z.ltb_spec 0 (DepsDevRun.PublishedAt x)) as [Hlt|Hge].
    + right. exists versions, x, []. split; [done|]. split; [done|]. split; [done|].
      split; [|done]. eapply Forall_impl; [exact Hall|]. simpl. intros w Hw. lia.
    + left. split; [done|]. apply Forall_app. split; [done|]. by constructor.
  - destruct (Z.ltb_spec (DepsDevRun.PublishedAt v) (DepsDevRun.PublishedAt x)) as [Hlt|Hge].
    + right. exists (pre ++ v :: post), x, []. split; [done|]. split; [done|].
      split; [lia|]. split; [|done]. apply Forall_app. split.
      * eapply Forall_impl; [exact Hpre|]. simpl. intros w Hw. lia.
      * constructor; [done|]. eapply Forall_impl; [exact Hpost|]. simpl. intros w Hw. lia.
    + right. exists pre, v, (post ++ [x]). split; [by rewrite <- app_assoc|].
      split; [done|]. split; [done|]. split; [done|].
      apply Forall_app. split; [done|]. by constructor.
Qed.

(** X15.  [getLatestVersion] returns the version published last: of the
    versions deps.dev lists, the first one whose publication instant is
    the greatest, provided that instant lies after the zero time.  When
    the request fails, when no version is listed, or when no listed
    version is published after the zero time, it returns the empty
    string (and [Run] skips the link). *)
Theorem getLatestVersion_picks_latest :
  DepsDevRun.getLatestVersion None = "" ∧
  ∀ versions,
    (Forall (λ w, (DepsDevRun.PublishedAt w ≤ 0)%Z) versions ∧
     DepsDevRun.getLatestVersion (Some versions) = "") ∨
    ∃ pre v post,
      versions = pre ++ v :: post ∧
      DepsDevRun.getLatestVersion (Some versions) = DepsDevRun.Version v ∧
      (0 < DepsDevRun.PublishedAt v)%Z ∧
      Forall (λ w, (DepsDevRun.PublishedAt w < DepsDevRun.PublishedAt v)%Z) pre ∧
      Forall (λ w, (DepsDevRun.PublishedAt w ≤ DepsDevRun.PublishedAt v)%Z) post.
Proof.
  split; [done|]. intros versions. unfold DepsDevRun.getLatestVersion.
  destruct (latest_invariant versions)
    as [[-> Hall]|(pre & v & post & Hsplit & -> & Hrest)].
  - by left.
  - right. by exists pre, v, post.
Qed.

(** X16.  The project type is decided by the first marker file in the
    order of the listing: files before it that are no marker files, and
    all files after it, do not matter. *)
Theorem classify_first_marker (names1 names2 : list (option string)) :
  DepsDev.classify (names1 ++ names2)
  = if String.eqb (DepsDev.classify names1) "" then DepsDev.classify names2
    else DepsDev.classify names1.
Proof.
  induction names1 as [|[name|] names1 IH]; cbn [app DepsDev.classify]; [done| |done].
  repeat (destruct (String.eqb name _); [done|]). done.
Qed.

Section EnricherRun.
Variable contents : string → string → list DepsDev.Contents.
Variable packageVersions : string → string → option (list DepsDevRun.VersionInfo).
Variable dependentCount : string → string → string → option Z.

Lemma runLink_rows link (t t' : gmap string Z) :
  DepsDevRun.runLink contents packageVersions dependentCount link t = Some t' →
  dom t' = dom t ∧
  ∀ k, k ≠ link ∨ DepsDevRun.linkTarget k = None → t' !! k = t !! k.
Proof.
  unfold DepsDevRun.runLink.
  destruct (DepsDevRun.linkTarget link) as [[owner repo]|] eqn:Et; [|by intros [= <-]].
  destruct (DepsDev.getProjectType _) as [[projectType evs]|]; [|done].
  destruct (negb (String.eqb projectType "")); [|by intros [= <-]].
  destruct (negb (String.eqb _ "")); [|by intros [= <-]].
  unfold DepsDevRun.queryDepsDev, DepsDevRun.updateDatabase.
  destruct (dependentCount _ _ _) as [count|]; intros [= <-]; [|done].
  split; [apply dom_alter_L|].
  intros k [Hk|Hk]; [by rewrite lookup_alter_ne|].
  destruct (decide (k = link)) as [->|Hne]; [congruence|by rewrite lookup_alter_ne].
Qed.

Lemma runLink_returns link (t : gmap string Z) :
  (∀ owner repo, is_Some (DepsDev.getProjectType (contents owner repo))) →
  is_Some (DepsDevRun.runLink contents packageVersions dependentCount link t).
Proof.
  intros Hends. unfold DepsDevRun.runLink.
  destruct (DepsDevRun.linkTarget link) as [[owner repo]|]; [|done].
  destruct (Hends owner repo) as [[projectType evs] ->].
  destruct (negb (String.eqb projectType "")); [|done].
  by destruct (negb (String.eqb _ "")).
Qed.

Lemma for_range_runLink links : ∀ (t : gmap string Z),
  (∀ owner repo, is_Some (DepsDev.getProjectType (contents owner repo))) →
  ∃ t', for_range (DepsDevRun.runLink contents packageVersions dependentCount) links t
        = Some t' ∧
        dom t' = dom t ∧
        ∀ k, DepsDevRun.linkTarget k = None → t' !! k = t !! k.
Proof.
  intros t Hends. revert t.
  induction links as [|link links IH]; intros t; cbn [for_range]; [by exists t|].
  destruct (runLink_returns link t Hends) as [t1 Hstep]. rewrite Hstep.
  apply runLink_rows in Hstep as [Hdom Hrows].
  destruct (IH t1) as (t' & Hrun & Hdom' & Hrows').
  exists t'. split; [done|]. split; [congruence|].
  intros k Hk. rewrite Hrows' by done. apply Hrows. by right.
Qed.

(** X17.  When every call of [getProjectType] comes to an end, [Run]
    comes to an end, and it neither adds nor deletes a row of
    [git_metrics]; the row of a link that is not of the form
    [https://github.com/<owner>/<repo>...] is left as it is. *)
Theorem depsdev_Run_keeps_rows (git_metrics : gmap string Z) :
  (∀ owner repo, is_Some (DepsDev.getProjectType (contents owner repo))) →
  ∃ git_metrics',
    DepsDevRun.Run contents packageVersions dependentCount git_metrics
    = Some git_metrics' ∧
    dom git_metrics' = dom git_metrics ∧
    ∀ k, DepsDevRun.linkTarget k = None → git_metrics' !! k = git_metrics !! k.
Proof. intros Hends. by apply for_range_runLink. Qed.

End EnricherRun.

Lemma depsdev_Run_on_one_row :
  ∃ git_metrics',
    DepsDevRun.Run goContents twoVersions sevenDependents oneRow = Some git_metrics' ∧
    dom git_metrics' = dom oneRow ∧
    ∀ k, DepsDevRun.linkTarget k = None → git_metrics' !! k = oneRow !! k.
Proof.
  apply (depsdev_Run_keeps_rows goContents twoVersions sevenDependents oneRow).
  intros owner repo. vm_compute. by eexists.
Defined.

(** ** The GitHub enricher *)

Lemma requests_app evs1 evs2 : requests (evs1 ++ evs2) = requests evs1 + requests evs2.
Proof. unfold requests. by rewrite List.filter_app, length_app. Qed.

Lemma sleeps_app evs1 evs2 : sleeps (evs1 ++ evs2) = sleeps evs1 + sleeps evs2.
Proof. unfold sleeps. by rewrite List.filter_app, length_app. Qed.

Lemma updates_app evs1 evs2 : updates (evs1 ++ evs2) = updates evs1 + updates evs2.
Proof. unfold updates. by rewrite List.filter_app, length_app. Qed.

Lemma fetch_trace {A : Type} (first second : GithubMetrics.GhError + A) :
  requests (GithubMetrics.fetch first second).2
  = 1 + sleeps (GithubMetrics.fetch first second).2 ∧
  sleeps (GithubMetrics.fetch first second).2 ≤ 1 ∧
  updates (GithubMetrics.fetch first second).2 = 0.
Proof.
  pose proof (fetch_cases first second) as Hc.
  destruct first as [[wait|]|v]; [destruct (0 <? wait)%Z|..]; rewrite Hc;
    vm_compute; lia.
Qed.

(** X18.  One [githubmetrics.Run] sends three requests and one more for
    each time it sleeps, sleeps at most three times, and writes the row
    once, as its last step, whatever GitHub answers. *)
Theorem github_Run_trace (a : GithubMetrics.Answers) :
  requests (GithubMetrics.Run a).2 = 3 + sleeps (GithubMetrics.Run a).2 ∧
  sleeps (GithubMetrics.Run a).2 ≤ 3 ∧
  updates (GithubMetrics.Run a).2 = 1 ∧
  last (GithubMetrics.Run a).2 = Some EvUpdate.
Proof.
  unfold GithubMetrics.Run.
  pose proof (fetch_trace (GithubMetrics.repo1 a) (GithubMetrics.repo2 a)) as H1.
  pose proof (fetch_trace (GithubMetrics.contributors1 a) (GithubMetrics.contributors2 a)) as H2.
  pose proof (fetch_trace (GithubMetrics.commits1 a) (GithubMetrics.commits2 a)) as H3.
  destruct (GithubMetrics.fetch (GithubMetrics.repo1 a) _) as [[?|?] ev1];
  destruct (GithubMetrics.fetch (GithubMetrics.contributors1 a) _) as [[?|?] ev2];
  destruct (GithubMetrics.fetch (GithubMetrics.commits1 a) _) as [[?|?] ev3];
  cbn [fst snd] in *;
  rewrite ?requests_app, ?sleeps_app, ?updates_app, ?app_assoc, ?last_snoc;
  change (requests [EvUpdate]) with 0; change (sleeps [EvUpdate]) with 0;
  change (updates [EvUpdate]) with 1; change (requests [EvPrint]) with 0;
  change (sleeps [EvPrint]) with 0; change (updates [EvPrint]) with 0;
  (split; [lia|]; split; [lia|]; split; [lia|done]).
Qed.

(** X28.  After an answer with status 403 whose message announces
    [rate reset in <m>m<s>s], with at most eight digits for the minutes
    and for the seconds, [getProjectType] sleeps for just that time,
    [60 m + s] seconds, and then starts over: its result is the result of
    the next attempt. *)
Theorem rate_limit_sleep_is_the_announced_time
    (message : string) (rest : list DepsDev.Contents) (minutes seconds : string) :
  DepsDev.findReset message = Some (minutes, seconds) →
  String.length minutes ≤ 8 → String.length seconds ≤ 8 →
  DepsDev.getProjectType (DepsDev.ContentsErr (Some 403%Z) message :: rest)
  = match DepsDev.getProjectType rest with
    | Some (type, evs) =>
        Some (type,
              [EvRequest; EvPrint; EvPrint;
               EvSleep ((DepsDev.Atoi minutes * 60 + DepsDev.Atoi seconds) * 10 ^ 9)]
              ++ evs)
    | None => None
    end.
Proof.
  intros Hfind Hm Hs. cbn [DepsDev.getProjectType]. rewrite Hfind.
  change (403 =? 403)%Z with true. cbn beta iota.
  apply findReset_digits in Hfind as [Hdm Hds].
  rewrite waitTime_small by (by apply Atoi_small).
  by destruct (DepsDev.getProjectType rest) as [[type evs]|].
Qed.

Lemma rate_limit_sleep_instance :
  DepsDev.getProjectType
    (DepsDev.ContentsErr (Some 403%Z) "403 API rate limit exceeded [rate reset in 1m2s]"
       :: [DepsDev.ContentsOk [Some "go.mod"]])
  = match DepsDev.getProjectType [DepsDev.ContentsOk [Some "go.mod"]] with
    | Some (type, evs) =>
        Some (type,
              [EvRequest; EvPrint; EvPrint;
               EvSleep ((DepsDev.Atoi "1" * 60 + DepsDev.Atoi "2") * 10 ^ 9)]
              ++ evs)
    | None => None
    end.
Proof.
  apply (rate_limit_sleep_is_the_announced_time
           "403 API rate limit exceeded [rate reset in 1m2s]"
           [DepsDev.ContentsOk [Some "go.mod"]] "1" "2").
  - vm_compute. reflexivity.
  - simpl. lia.
  - simpl. lia.
Defined.

(** ** The package tables *)

Section Upsert.
Variable accepts : PackageTable.Row → bool.
Context {PackageInfo : Type}.
Variable toRow : string → PackageInfo → PackageTable.Row.
Hypothesis toRow_package : ∀ k p, PackageTable.package (toRow k p) = k.

Lemma selectExists_spec (t : PackageTable.Table) k :
  PackageTable.selectExists t k = true ↔ ∃ r, r ∈ t ∧ PackageTable.package r = k.
Proof.
  unfold PackageTable.selectExists. rewrite existsb_exists. split.
  - intros (r & Hin & Heq). exists r. split; [by apply list_elem_of_In|].
    by apply String.eqb_eq.
  - intros (r & Hin & Heq). exists r. split; [by apply list_elem_of_In|].
    by apply String.eqb_eq.
Qed.

Lemma selectExists_false (t : PackageTable.Table) k :
  PackageTable.selectExists t k = false → k ∉ PackageTable.package <$> t.
Proof.
  intros Hex Hin. apply list_elem_of_fmap in Hin as (r & -> & Hin).
  assert (PackageTable.selectExists t (PackageTable.package r) = true) as Ht
    by (apply selectExists_spec; eauto).
  congruence.
Qed.

Lemma update_elem (t : PackageTable.Table) row r :
  r ∈ (λ r0, if String.eqb (PackageTable.package r0) (PackageTable.package row)
             then row else r0) <$> t ↔
  (r = row ∧ ∃ r0, r0 ∈ t ∧ PackageTable.package r0 = PackageTable.package row) ∨
  (r ∈ t ∧ PackageTable.package r ≠ PackageTable.package row).
Proof.
  rewrite list_elem_of_fmap. split.
  - intros (r0 & -> & Hin).
    destruct (String.eqb_spec (PackageTable.package r0) (PackageTable.package row)); eauto.
  - intros [[-> (r0 & Hin & Heq)]|[Hin Hne]].
    + exists r0. split; [|done]. by rewrite (proj2 (String.eqb_eq _ _) Heq).
    + exists r. split; [|done]. by rewrite (proj2 (String.eqb_neq _ _) Hne).
Qed.

Lemma upsert_other (t : PackageTable.Table) k p r :
  PackageTable.package r ≠ k →
  r ∈ (PackageTable.upsert accepts toRow t k p).1 ↔ r ∈ t.
Proof.
  intros Hr. unfold PackageTable.upsert, PackageTable.execInsert, PackageTable.execUpdate.
  destruct (PackageTable.selectExists t k); cbn [negb].
  - destruct (_ && _); cbn [fst]; [done|]. rewrite update_elem, toRow_package. split.
    + intros [[-> _]|[? _]]; [|done]. by rewrite toRow_package in Hr.
    + intros Hin. by right.
  - destruct (accepts _); cbn [fst]; [|done].
    rewrite elem_of_app, list_elem_of_singleton. split; [|by left].
    intros [?| ->]; [done|]. by rewrite toRow_package in Hr.
Qed.

Lemma upsert_keys (t : PackageTable.Table) k p :
  NoDup (PackageTable.package <$> t) →
  NoDup (PackageTable.package <$> (PackageTable.upsert accepts toRow t k p).1).
Proof.
  intros Hnd. unfold PackageTable.upsert, PackageTable.execInsert, PackageTable.execUpdate.
  destruct (PackageTable.selectExists t k) eqn:Ex; cbn [negb].
  - destruct (_ && _); cbn [fst]; [done|].
    rewrite <- list_fmap_compose.
    erewrite list_fmap_ext; [exact Hnd|]. intros i r _. simpl.
    by destruct (String.eqb_spec (PackageTable.package r)
                   (PackageTable.package (toRow k p))).
  - destruct (accepts _); cbn [fst]; [|done].
    rewrite fmap_app. apply NoDup_app. split; [done|]. split; [|apply NoDup_singleton].
    intros x Hx [= ->]%list_elem_of_singleton. rewrite toRow_package in Hx.
    by apply selectExists_false in Ex.
Qed.

Lemma upsert_success (t t1 : PackageTable.Table) k p :
  PackageTable.upsert accepts toRow t k p = (t1, None) →
  accepts (toRow k p) = true ∧ toRow k p ∈ t1 ∧
  ∀ r, r ∈ t1 → PackageTable.package r = k → r = toRow k p.
Proof.
  unfold PackageTable.upsert, PackageTable.execInsert, PackageTable.execUpdate.
  destruct (PackageTable.selectExists t k) eqn:Ex; cbn [negb].
  - assert (PackageTable.selectExists t (PackageTable.package (toRow k p)) = true) as ->
      by (by rewrite toRow_package).
    cbn [andb]. destruct (accepts (toRow k p)); cbn [negb]; [|done]. intros [= <-].
    split; [done|]. apply selectExists_spec in Ex as (r0 & Hin & Hk). split.
    + apply update_elem. left. split; [done|]. exists r0. by rewrite toRow_package.
    + intros r [[-> _]|[_ Hne]]%update_elem Hr; [done|]. by rewrite toRow_package in Hne.
  - destruct (accepts (toRow k p)); [|done]. intros [= <-]. split; [done|]. split.
    + apply elem_of_app. right. left.
    + intros r [Hin| ->%list_elem_of_singleton]%elem_of_app Hr; [|done].
      exfalso. assert (PackageTable.selectExists t k = true) as Ht
        by (apply selectExists_spec; eauto).
      congruence.
Qed.

Lemma upsert_again (t : PackageTable.Table) k p :
  accepts (toRow k p) = true → toRow k p ∈ t →
  (∀ r, r ∈ t → PackageTable.package r = k → r = toRow k p) →
  PackageTable.upsert accepts toRow t k p = (t, None).
Proof.
  intros Hacc Hin Hrows.
  unfold PackageTable.upsert, PackageTable.execInsert, PackageTable.execUpdate.
  assert (PackageTable.selectExists t k = true) as ->.
  { apply selectExists_spec. exists (toRow k p). by rewrite toRow_package. }
  cbn [negb]. rewrite Hacc, andb_false_r. f_equal.
  rewrite <- (list_fmap_id t) at 2. apply list_fmap_ext. intros i r Hr. simpl.
  destruct (String.eqb_spec (PackageTable.package r) (PackageTable.package (toRow k p)))
    as [Heq|]; [|done].
  symmetry. apply Hrows; [by eapply list_elem_of_lookup_2|]. by rewrite Heq, toRow_package.
Qed.

Lemma updateOrInsert_other entries : ∀ (t : PackageTable.Table) r,
  PackageTable.package r ∉ entries.*1 →
  r ∈ (PackageTable.updateOrInsertDatabase accepts toRow t entries).1 ↔ r ∈ t.
Proof.
  induction entries as [|[k p] entries IH]; intros t r Hr;
    cbn [PackageTable.updateOrInsertDatabase]; [done|].
  assert (PackageTable.package r ≠ k) as Hk by (intros <-; apply Hr; left).
  rewrite <- (upsert_other t k p r Hk).
  destruct (PackageTable.upsert accepts toRow t k p) as [t1 [err|]]; [done|].
  apply IH. intros Hin. apply Hr. by right.
Qed.

Lemma updateOrInsert_keys entries : ∀ (t : PackageTable.Table),
  NoDup (PackageTable.package <$> t) →
  NoDup (PackageTable.package <$>
           (PackageTable.updateOrInsertDatabase accepts toRow t entries).1).
Proof.
  induction entries as [|[k p] entries IH]; intros t Hnd;
    cbn [PackageTable.updateOrInsertDatabase]; [done|].
  pose proof (upsert_keys t k p Hnd) as Hnd1.
  destruct (PackageTable.upsert accepts toRow t k p) as [t1 [err|]]; [done|].
  by apply IH.
Qed.

Lemma updateOrInsert_success entries : ∀ (t t' : PackageTable.Table),
  NoDup entries.*1 →
  PackageTable.updateOrInsertDatabase accepts toRow t entries = (t', None) →
  ∀ k p, (k, p) ∈ entries →
    accepts (toRow k p) = true ∧ toRow k p ∈ t' ∧
    ∀ r, r ∈ t' → PackageTable.package r = k → r = toRow k p.
Proof.
  induction entries as [|[k0 p0] entries IH]; intros t t' Hnd;
    cbn [PackageTable.updateOrInsertDatabase].
  - intros _ k p Hin. by apply elem_of_nil in Hin.
  - apply NoDup_cons in Hnd as [Hk0 Hnd].
    destruct (PackageTable.upsert accepts toRow t k0 p0) as [t1 [err|]] eqn:E; [done|].
    intros Hrun k p Hin. apply elem_of_cons in Hin as [[= -> ->]|Hin]; [|by eapply IH].
    apply upsert_success in E as (Hacc & Hrow & Hrows). split; [done|].
    assert (∀ r, PackageTable.package r = k0 → r ∈ t' ↔ r ∈ t1) as Hsame.
    { intros r Hr. replace t' with
        (PackageTable.updateOrInsertDatabase accepts toRow t1 entries).1 by (by rewrite Hrun).
      apply updateOrInsert_other. by rewrite Hr. }
    split.
    + apply Hsame; [apply toRow_package|done].
    + intros r Hr Hkr. apply Hrows; [|done]. by apply Hsame.
Qed.

Lemma updateOrInsert_again entries : ∀ (t : PackageTable.Table),
  (∀ k p, (k, p) ∈ entries →
     accepts (toRow k p) = true ∧ toRow k p ∈ t ∧
     ∀ r, r ∈ t → PackageTable.package r = k → r = toRow k p) →
  PackageTable.updateOrInsertDatabase accepts toRow t entries = (t, None).
Proof.
  induction entries as [|[k p] entries IH]; intros t Hrows;
    cbn [PackageTable.updateOrInsertDatabase]; [done|].
  destruct (Hrows k p) as (Hacc & Hin & Hk); [left|].
  rewrite upsert_again by done. apply IH. intros k' p' Hin'. apply Hrows. by right.
Qed.

(** What a run of [updateOrInsertDatabase] that returns no error leaves in
    the table, for the entries of a map. *)
Lemma updateOrInsert_map (m : gmap string PackageInfo) (t t' : PackageTable.Table) :
  PackageTable.updateOrInsertDatabase accepts toRow t (map_to_list m) = (t', None) →
  (∀ k p, m !! k = Some p →
     toRow k p ∈ t' ∧ ∀ r, r ∈ t' → PackageTable.package r = k → r = toRow k p) ∧
  PackageTable.updateOrInsertDatabase accepts toRow t' (map_to_list m) = (t', None).
Proof.
  intros Hrun.
  pose proof (updateOrInsert_success (map_to_list m) t t'
                (NoDup_fst_map_to_list m) Hrun) as Hrows.
  split.
  - intros k p Hk. apply elem_of_map_to_list in Hk.
    by destruct (Hrows k p Hk) as (_ & ? & ?).
  - by apply updateOrInsert_again.
Qed.

Lemma updateOrInsert_map_other (m : gmap string PackageInfo) (t : PackageTable.Table) :
  (∀ r, m !! PackageTable.package r = None →
     r ∈ (PackageTable.updateOrInsertDatabase accepts toRow t (map_to_list m)).1 ↔ r ∈ t) ∧
  (NoDup (PackageTable.package <$> t) →
   NoDup (PackageTable.package <$>
            (PackageTable.updateOrInsertDatabase accepts toRow t (map_to_list m)).1)).
Proof.
  split; [|apply updateOrInsert_keys].
  intros r Hr. apply updateOrInsert_other. rewrite map_keys_elem, Hr. by intros [? ?].
Qed.

End Upsert.

(** X20.  When [updateOrInsertDatabase] returns no error, every package of
    the index has a row with the values of its record, each row of that
    package holds these values, and a second run over the same index
    changes nothing.  This holds for both collectors, whatever rows the
    table held before and whatever rows it accepts. *)
Theorem updateOrInsertDatabase_writes_the_index :
  (∀ accepts (m : gmap string Alpine.PackageInfo) t t',
     PackageTable.updateOrInsertDatabase accepts PackageTable.alpineRow t (map_to_list m)
     = (t', None) →
     (∀ k p, m !! k = Some p →
        PackageTable.alpineRow k p ∈ t' ∧
        ∀ r, r ∈ t' → PackageTable.package r = k → r = PackageTable.alpineRow k p) ∧
     PackageTable.updateOrInsertDatabase accepts PackageTable.alpineRow t' (map_to_list m)
     = (t', None))
  ∧
  (∀ accepts (m : gmap string Centos.PackageInfo) t t',
     PackageTable.updateOrInsertDatabase accepts PackageTable.centosRow t (map_to_list m)
     = (t', None) →
     (∀ k p, m !! k = Some p →
        PackageTable.centosRow k p ∈ t' ∧
        ∀ r, r ∈ t' → PackageTable.package r = k → r = PackageTable.centosRow k p) ∧
     PackageTable.updateOrInsertDatabase accepts PackageTable.centosRow t' (map_to_list m)
     = (t', None)).
Proof.
  split; intros accepts m t t'; by apply updateOrInsert_map.
Qed.

Lemma updateOrInsertDatabase_on_cycle :
  (∀ k p, alpineCycle !! k = Some p →
     PackageTable.alpineRow k p ∈ cycleRows ∧
     ∀ r, r ∈ cycleRows → PackageTable.package r = k → r = PackageTable.alpineRow k p) ∧
  PackageTable.updateOrInsertDatabase acceptAll PackageTable.alpineRow cycleRows
    (map_to_list alpineCycle)
  = (cycleRows, None).
Proof.
  apply (proj1 updateOrInsertDatabase_writes_the_index acceptAll alpineCycle []).
  vm_compute. reflexivity.
Defined.

(** X21.  Whether it returns an error or not, [updateOrInsertDatabase]
    leaves the rows of packages outside the index as they are, and a table
    with one row per package keeps one row per package. *)
Theorem updateOrInsertDatabase_keeps_other_rows :
  (∀ accepts (m : gmap string Alpine.PackageInfo) t,
     (∀ r, m !! PackageTable.package r = None →
        r ∈ (PackageTable.updateOrInsertDatabase accepts PackageTable.alpineRow t
               (map_to_list m)).1 ↔ r ∈ t) ∧
     (NoDup (PackageTable.package <$> t) →
      NoDup (PackageTable.package <$>
               (PackageTable.updateOrInsertDatabase accepts PackageTable.alpineRow t
                  (map_to_list m)).1)))
  ∧
  (∀ accepts (m : gmap string Centos.PackageInfo) t,
     (∀ r, m !! PackageTable.package r = None →
        r ∈ (PackageTable.updateOrInsertDatabase accepts PackageTable.centosRow t
               (map_to_list m)).1 ↔ r ∈ t) ∧
     (NoDup (PackageTable.package <$> t) →
      NoDup (PackageTable.package <$>
               (PackageTable.updateOrInsertDatabase accepts PackageTable.centosRow t
                  (map_to_list m)).1))).
Proof.
  split; intros accepts m t; by apply updateOrInsert_map_other.
Qed.

(** ** The database migrator *)

Lemma takeDigits_spec n : ∀ s digits rest,
  Migrator.takeDigits n s = Some (digits, rest) →
  s = digits +:+ rest ∧ String.length digits = n ∧
  all_bytes DepsDev.isDigit digits = true.
Proof.
  induction n as [|n IH]; intros s digits rest; cbn [Migrator.takeDigits].
  - by intros [= <- <-].
  - destruct s as [|c s]; [done|]. destruct (DepsDev.isDigit c) eqn:Ec; [|done].
    destruct (Migrator.takeDigits n s) as [[d r]|] eqn:E; [|done].
    intros [= <- <-]. destruct (IH _ _ _ E) as (-> & Hlen & Hd).
    split; [by rewrite append_cons|]. split; [simpl; by rewrite Hlen|].
    simpl. by rewrite Ec, Hd.
Qed.

Lemma matchName_spec name version rest :
  Migrator.matchName name = Some (version, rest) →
  name = version +:+ "_" +:+ rest ∧ String.length version = 13 ∧
  rest ≠ "" ∧ no_byte (ascii_of_nat 10) rest = true.
Proof.
  unfold Migrator.matchName.
  destruct (Migrator.takeDigits 4 name) as [[year r1]|] eqn:E1; [|done].
  destruct (strip_prefix "_" r1) as [r2|] eqn:P1; [|done].
  destruct (Migrator.takeDigits 2 r2) as [[month r3]|] eqn:E2; [|done].
  destruct (strip_prefix "_" r3) as [r4|] eqn:P2; [|done].
  destruct (Migrator.takeDigits 2 r4) as [[day r5]|] eqn:E3; [|done].
  destruct (strip_prefix "_" r5) as [r6|] eqn:P3; [|done].
  destruct (Migrator.takeDigits 2 r6) as [[number r7]|] eqn:E4; [|done].
  destruct (strip_prefix "_" r7) as [rest'|] eqn:P4; [|done].
  destruct (String.eqb_spec rest' "") as [|Hne]; [done|]. cbn [negb andb].
  destruct (no_byte (ascii_of_nat 10) rest') eqn:Hnl; [|done].
  intros [= <- <-].
  apply takeDigits_spec in E1 as (-> & L1 & _). apply strip_prefix_spec in P1 as ->.
  apply takeDigits_spec in E2 as (-> & L2 & _). apply strip_prefix_spec in P2 as ->.
  apply takeDigits_spec in E3 as (-> & L3 & _). apply strip_prefix_spec in P3 as ->.
  apply takeDigits_spec in E4 as (-> & L4 & _). apply strip_prefix_spec in P4 as ->.
  split; [|split; [|done]].
  - by rewrite !str_append_assoc.
  - rewrite !length_append, L1, L2, L3, L4. reflexivity.
Qed.

(** X22.  A directory name that [main] takes for a migration is its
    version, an underscore and its name: the version has 13 bytes, the
    name is not empty and holds no line feed, and the file read is
    [migrations/<directory>/migration.sql]; entries that are no
    directories or hold no such file give no migration. *)
Theorem migration_names_round_trip (file : Migrator.DirEntry)
    (migration : Migrator.MigrationItem) :
  Migrator.migrationOf file = Some migration →
  Migrator.EntryName file = Migrator.Version migration +:+ "_" +:+ Migrator.Name migration ∧
  String.length (Migrator.Version migration) = 13 ∧
  Migrator.Name migration ≠ "" ∧
  no_byte (ascii_of_nat 10) (Migrator.Name migration) = true ∧
  Migrator.FileName migration
  = "migrations/" +:+ Migrator.EntryName file +:+ "/migration.sql" ∧
  Migrator.IsDir file = true ∧ Migrator.hasMigrationFile file = true.
Proof.
  unfold Migrator.migrationOf.
  destruct (Migrator.IsDir file); [|done].
  destruct (Migrator.hasMigrationFile file); [|done]. cbn [negb].
  destruct (Migrator.matchName _) as [[version name]|] eqn:E; [|done].
  intros [= <-]. cbn [Migrator.Version Migrator.Name Migrator.FileName].
  apply matchName_spec in E as (? & ? & ? & ?). done.
Qed.

Lemma migration_names_round_trip_instance :
  "2024_01_01_01_init" = "2024_01_01_01" +:+ "_" +:+ "init" ∧
  String.length "2024_01_01_01" = 13 ∧
  "init" ≠ "" ∧
  no_byte (ascii_of_nat 10) "init" = true ∧
  "migrations/2024_01_01_01_init/migration.sql"
  = "migrations/" +:+ "2024_01_01_01_init" +:+ "/migration.sql" ∧
  true = true ∧ true = true.
Proof.
  apply (migration_names_round_trip
           (Migrator.mkDirEntry "2024_01_01_01_init" true true)
           (Migrator.mkMigrationItem "2024_01_01_01" "init"
              "migrations/2024_01_01_01_init/migration.sql")).
  vm_compute. reflexivity.
Defined.


Lemma findFrom_absent migrations lastVersion : ∀ i,
  lastVersion ∉ Migrator.Version <$> migrations →
  Migrator.findFrom i migrations lastVersion = 0.
Proof.
  induction migrations as [|m migrations IH]; intros i Hv; cbn [Migrator.findFrom]; [done|].
  rewrite fmap_cons, not_elem_of_cons in Hv. destruct Hv as [Hne Hv].
  rewrite (proj2 (String.eqb_neq _ _)) by done. by apply IH.
Qed.


Section MigratorRuns.
Variable readFile : string → option string.
Variable execOk : string → bool.
Variable recordOk : Migrator.MigrationItem → bool.

(** What the loop over the pending migrations does to the database. *)
Lemma applyMigrations_spec todo : ∀ (db : Migrator.Db),
  ∃ recorded executed,
    Migrator.applyMigrations readFile execOk recordOk todo db
    = (db.1 ++ (historyRow <$> recorded), db.2 ++ (Migrator.FileName <$> executed)) ∧
    recorded `prefix_of` executed ∧ executed `prefix_of` todo ∧
    length executed ≤ length recorded + 1.
Proof.
  induction todo as [|m todo IH]; intros db; cbn [Migrator.applyMigrations].
  - exists [], []. simpl. rewrite !app_nil_r.
    split; [by destruct db|]. split; [done|]. split; [done|lia].
  - destruct (readFile (Migrator.FileName m)) as [file|].
    + destruct (execOk file).
      * destruct (recordOk m).
        -- destruct (IH (db.1 ++ [(Migrator.Version m, Migrator.Name m)],
                         db.2 ++ [Migrator.FileName m]))
             as (recorded & executed & Hrun & Hre & Hex & Hlen).
           exists (m :: recorded), (m :: executed). cbn [fst snd] in *.
           rewrite Hrun, !fmap_cons, <- !app_assoc. split; [done|].
           split; [by apply prefix_cons|]. split; [by apply prefix_cons|].
           cbn [length]. lia.
        -- exists [], [m]. cbn [fst snd fmap list_fmap]. rewrite app_nil_r.
           split; [done|]. split; [apply prefix_nil|]. split; [|simpl; lia].
           apply prefix_cons, prefix_nil.
      * exists [], []. simpl. rewrite !app_nil_r.
        split; [by destruct db|]. split; [done|]. split; [apply prefix_nil|lia].
    + exists [], []. simpl. rewrite !app_nil_r.
      split; [by destruct db|]. split; [done|]. split; [apply prefix_nil|lia].
Qed.


(** X23.  What the migrator does to the database: it appends rows to the
    history and never changes the rows that were there; the files it
    executes are, in order, a run of the migrations that follow the first
    migration of the last recorded version; every recorded migration was
    executed, and at most one executed migration, the last, is not
    recorded.  Nothing is executed unless the user types [y], and nothing
    when the last recorded version is the version of no migration. *)
Theorem migrator_applies_pending_migrations
    (migrations : list Migrator.MigrationItem) (history : Migrator.History)
    (confirm : string) :
  (∃ recorded executed,
     Migrator.main readFile execOk recordOk migrations history confirm
     = (history ++ (historyRow <$> recorded), Migrator.FileName <$> executed) ∧
     recorded `prefix_of` executed ∧
     executed `prefix_of`
       drop (Migrator.findFrom 0 migrations (Migrator.lastVersionOf history)) migrations ∧
     length executed ≤ length recorded + 1) ∧
  (confirm ≠ "y" →
   Migrator.main readFile execOk recordOk migrations history confirm = (history, [])) ∧
  (Migrator.lastVersionOf history ≠ "" →
   Migrator.lastVersionOf history ∉ Migrator.Version <$> migrations →
   Migrator.main readFile execOk recordOk migrations history confirm = (history, [])).
Proof.
  unfold Migrator.main. split; [|split].
  - destruct (_ && _); [|destruct (_ =? _); [|destruct (negb _)]];
      try (exists [], []; simpl; rewrite app_nil_r;
           split; [done|]; split; [done|]; split; [apply prefix_nil|lia]).
    destruct (applyMigrations_spec
                (drop (Migrator.findFrom 0 migrations (Migrator.lastVersionOf history))
                      migrations) (history, []))
      as (recorded & executed & Hrun & Hre & Hex & Hlen).
    exists recorded, executed. by rewrite Hrun.
  - intros Hconfirm. destruct (_ && _); [done|]. destruct (_ =? _); [done|].
    by rewrite (proj2 (String.eqb_neq _ _) Hconfirm).
  - intros Hlast Habsent. rewrite findFrom_absent by done.
    by rewrite (proj2 (String.eqb_neq _ _) Hlast).
Qed.



End MigratorRuns.


(** ** The dependency graph in DOT *)

Section DotGraphProofs.
Context {PackageInfo : Type}.
Variable Depends : PackageInfo → list string.
Variable Description : PackageInfo → string.

(** The first loop numbers the entries from [index] on and writes one
    node line for each. *)
Lemma nodes_loop (entries : list (string * PackageInfo)) :
  ∀ (packageIndices : gmap string Z) (index : Z) (out : list string),
    NoDup entries.*1 → (0 ≤ index)%Z →
    (index + Z.of_nat (length entries) < 2 ^ 63)%Z →
    ∃ packageIndices',
      foldl (DotGraph.nodeStep Description) (packageIndices, index, out) entries
      = (packageIndices', (index + Z.of_nat (length entries))%Z,
         out ++ imap (λ i e, DotGraph.nodeLine Description (index + Z.of_nat i) e.1 e.2)
                     entries) ∧
      (∀ i e, entries !! i = Some e →
              packageIndices' !! e.1 = Some (index + Z.of_nat i)%Z) ∧
      (∀ k, k ∉ entries.*1 → packageIndices' !! k = packageIndices !! k).
Proof.
  induction entries as [|e entries IH]; intros packageIndices index out Hnd Hge Hlt.
  - exists packageIndices. cbn [foldl length imap]. rewrite Z.add_0_r, app_nil_r.
    split; [done|]. split; [|done]. intros i e Hi. by rewrite lookup_nil in Hi.
  - rewrite fmap_cons in Hnd. apply NoDup_cons in Hnd as [He Hnd].
    cbn [length] in Hlt. cbn [foldl DotGraph.nodeStep].
    rewrite int_incr_small by lia.
    destruct (IH (<[e.1 := index]> packageIndices) (index + 1)%Z
                 (out ++ [DotGraph.nodeLine Description index e.1 e.2]))
      as (packageIndices' & Hrun & Hidx & Hother); [done|lia|lia|].
    exists packageIndices'. split; [|split].
    + rewrite Hrun. f_equal; [f_equal; cbn [length]; lia|].
      rewrite <- app_assoc. f_equal. cbn [imap app]. rewrite Z.add_0_r. f_equal.
      apply imap_ext. intros i x _. simpl. f_equal. lia.
    + intros [|i] x Hi.
      * injection Hi as ->. rewrite Hother by done.
        by rewrite lookup_insert_eq, Z.add_0_r.
      * rewrite (Hidx i x Hi). f_equal. lia.
    + intros k Hk. rewrite fmap_cons, not_elem_of_cons in Hk. destruct Hk as [Hne Hk].
      rewrite Hother by done. by rewrite lookup_insert_ne.
Qed.

(** The inner loop of the second loop writes one edge line for each
    depends token that has an index. *)
Lemma edges_inner (m : gmap string PackageInfo) (packageIndices : gmap string Z)
    (pkgIndex : Z) (deps : list string) :
  (∀ d, is_Some (packageIndices !! d) ↔ is_Some (m !! d)) →
  ∀ out,
    foldl (λ out depName,
             match packageIndices !! depName with
             | Some depIndex => out ++ [DotGraph.edgeLine pkgIndex depIndex]
             | None => out
             end) out deps
    = out ++ ((λ d, DotGraph.edgeLine pkgIndex (int_at packageIndices d))
                <$> List.filter (exists_in m) deps).
Proof.
  intros Hdom. induction deps as [|d deps IH]; intros out; cbn [foldl List.filter].
  - by rewrite app_nil_r.
  - rewrite IH. destruct (exists_in m d) eqn:Ex; unfold exists_in in Ex.
    + assert (is_Some (packageIndices !! d)) as [depIndex E].
      { apply Hdom. by apply bool_decide_eq_true in Ex. }
      assert (int_at packageIndices d = depIndex) as Hd
        by (unfold int_at; by rewrite E).
      by rewrite E, fmap_cons, Hd, <- app_assoc.
    + assert (packageIndices !! d = None) as ->; [|done].
      apply eq_None_not_Some. rewrite Hdom. by apply bool_decide_eq_false in Ex.
Qed.

Lemma edges_loop (m : gmap string PackageInfo) (packageIndices : gmap string Z)
    (entries : list (string * PackageInfo)) :
  (∀ d, is_Some (packageIndices !! d) ↔ is_Some (m !! d)) →
  ∀ out,
    foldl (DotGraph.edgeStep Depends packageIndices) out entries
    = out ++ flat_map (λ e, (λ d, DotGraph.edgeLine (int_at packageIndices e.1)
                                                   (int_at packageIndices d))
                              <$> List.filter (exists_in m) (Depends e.2)) entries.
Proof.
  intros Hdom. induction entries as [|e entries IH]; intros out; cbn [foldl flat_map].
  - by rewrite app_nil_r.
  - rewrite IH. unfold DotGraph.edgeStep. rewrite (edges_inner m) by done.
    by rewrite <- app_assoc.
Qed.

(** X25.  Whatever the orders in which the two loops range over the map,
    the DOT file declares one node for each package of the index,
    numbered from 0 in steps of 1 in the order of the first loop, and
    draws, in the order of the second loop, one edge for each depends
    token that is a package of the index (a token listed twice is drawn
    twice), between the numbers the first loop gave; tokens that are no
    packages of the index are left out. *)
Theorem generateDependencyGraph_draws_index_edges (m : gmap string PackageInfo)
    (nodeOrder edgeOrder : list (string * PackageInfo)) :
  nodeOrder ≡ₚ map_to_list m → edgeOrder ≡ₚ map_to_list m →
  (Z.of_nat (size m) < 2 ^ 63)%Z →
  ∃ index : string → Z,
    (∀ i e, nodeOrder !! i = Some e → index e.1 = Z.of_nat i) ∧
    DotGraph.generateDependencyGraph Depends Description nodeOrder edgeOrder
    = ["digraph {" +:+ lineFeed] ++
      ((λ e, DotGraph.nodeLine Description (index e.1) e.1 e.2) <$> nodeOrder) ++
      flat_map (λ e, (λ d, DotGraph.edgeLine (index e.1) (index d))
                       <$> List.filter (exists_in m) (Depends e.2)) edgeOrder ++
      ["}" +:+ lineFeed].
Proof.
  intros Hnodes Hedges Hsize. unfold DotGraph.generateDependencyGraph.
  destruct (nodes_loop nodeOrder ∅ 0 ["digraph {" +:+ lineFeed])
    as (packageIndices & Hrun & Hidx & Hother).
  { rewrite Hnodes. apply NoDup_fst_map_to_list. }
  { done. }
  { by rewrite Hnodes, length_map_to_list. }
  rewrite Hrun. exists (int_at packageIndices).
  assert (∀ i e, nodeOrder !! i = Some e → int_at packageIndices e.1 = Z.of_nat i)
    as Hindex.
  { intros i e Hi. unfold int_at. by rewrite (Hidx i e Hi). }
  split; [done|].
  rewrite (edges_loop m).
  - rewrite <- !app_assoc. f_equal. f_equal.
    rewrite <- (imap_const (λ e, DotGraph.nodeLine Description (int_at packageIndices e.1)
                                   e.1 e.2)).
    apply imap_ext. intros i e Hi. simpl. by rewrite (Hindex i e Hi).
  - intros d. split.
    + intros Hd. destruct (decide (d ∈ nodeOrder.*1)) as [Hin|Hout].
      * rewrite Hnodes in Hin. by apply map_keys_elem.
      * rewrite Hother, lookup_empty in Hd by done. by destruct Hd.
    + intros Hd. apply map_keys_elem in Hd. rewrite <- Hnodes in Hd.
      apply list_elem_of_fmap in Hd as (e & -> & He).
      apply list_elem_of_lookup in He as [i Hi]. rewrite (Hidx i e Hi). eauto.
Qed.

End DotGraphProofs.

(** The cycle of S2, the second loop ranging in the opposite order of the
    first. *)
Lemma generateDependencyGraph_on_cycle :
  ∃ index : string → Z,
    (∀ i e, map_to_list alpineCycle !! i = Some e → index e.1 = Z.of_nat i) ∧
    DotGraph.generateDependencyGraph Alpine.Depends Alpine.Description
      (map_to_list alpineCycle) (reverse (map_to_list alpineCycle))
    = ["digraph {" +:+ lineFeed] ++
      ((λ e, DotGraph.nodeLine Alpine.Description (index e.1) e.1 e.2)
         <$> map_to_list alpineCycle) ++
      flat_map (λ e, (λ d, DotGraph.edgeLine (index e.1) (index d))
                       <$> List.filter (exists_in alpineCycle) (Alpine.Depends e.2))
               (reverse (map_to_list alpineCycle)) ++
      ["}" +:+ lineFeed].
Proof.
  apply (generateDependencyGraph_draws_index_edges Alpine.Depends Alpine.Description
           alpineCycle).
  - done.
  - apply reverse_Permutation.
  - vm_compute. reflexivity.
Defined.

(** ** The inner XML of a CentOS package *)

Lemma Join_length_first first rest sep :
  String.length first ≤ String.length (CentosXml.Join (first :: rest) sep).
Proof.
  unfold CentosXml.Join. revert first.
  induction rest as [|elem rest IH]; intros first; cbn [foldl]; [done|].
  etrans; [|apply IH]. rewrite !length_append. lia.
Qed.

Lemma Join_length_second first second rest sep :
  String.length sep ≤ String.length (CentosXml.Join (first :: second :: rest) sep).
Proof.
  unfold CentosXml.Join. cbn [foldl].
  etrans; [|apply (Join_length_first (first +:+ sep +:+ second) rest sep)].
  rewrite !length_append. lia.
Qed.

Lemma trimLine_not_empty line : line ≠ "" → CentosXml.trimLine line ≠ "".
Proof.
  intros Hline. unfold CentosXml.trimLine.
  destruct (Nat.ltb_spec 2 (String.length line)) as [Hlt|]; [|done].
  destruct line as [|a [|b [|c line]]]; simpl in Hlt; try lia. done.
Qed.

Lemma length_not_empty s : s ≠ "" → 1 ≤ String.length s.
Proof. destruct s; [done|]. simpl. lia. Qed.

(** Slicing from 1 on panics exactly on the empty inner XML. *)
Lemma trimPackageXML_None (xml : string) :
  CentosXml.trimPackageXML xml = None ↔ xml = "".
Proof.
  split; [|by intros ->].
  unfold CentosXml.trimPackageXML, Split, lineFeed.
  destruct (index_from_single (ascii_of_nat 10) xml 0) as [[_ Hno]|(a & b & -> & Ha & _)];
    [lia|..].
  - rewrite (split_aux_last _ xml) by done. rewrite append_nil.
    destruct (String.eqb_spec xml "") as [|Hne]; [done|].
    cbn [fmap list_fmap CentosXml.Join foldl].
    pose proof (length_not_empty _ (trimLine_not_empty xml Hne)) as Hlen.
    by rewrite (proj2 (Nat.leb_le _ _) Hlen).
  - rewrite (split_aux_piece _ a b) by done.
    destruct (split_aux (String (ascii_of_nat 10) EmptyString) 0 EmptyString b)
      as [|second rest] eqn:Es.
    + exfalso. clear -Es. revert Es. generalize EmptyString at 2.
      induction b as [|c b IH]; intros cur; cbn [split_aux]; [done|].
      destruct (strip_prefix _ _); [done|]. apply IH.
    + rewrite !fmap_cons.
      pose proof (Join_length_second (CentosXml.trimLine (EmptyString +:+ a))
                    (CentosXml.trimLine second) (CentosXml.trimLine <$> rest)
                    (String (ascii_of_nat 10) EmptyString)) as Hlen.
      cbn [String.length] in Hlen.
      by rewrite (proj2 (Nat.leb_le _ _) Hlen).
Qed.

(** X29.  [getDependencies] panics on a package of type [rpm] whose inner
    XML is empty, and on no other: cutting the lines and joining them
    leaves a non-empty text exactly when the inner XML is not empty, and
    [trimmedXML[1:]] is taken without a test. *)
Theorem trimPackageXML_panics_on_empty_xml (xml : string) :
  CentosXml.trimPackageXML xml = None ↔ xml = "".
Proof. apply trimPackageXML_None. Qed.

(** ** How [getDependencies] ends *)

Lemma decodes_spec toks :
  decodes toks = true ↔ is_Some (Centos.parsePackageXML toks).
Proof.
  unfold Centos.parsePackageXML.
  rewrite <- not_eq_None_Some, (parseTokens_fails toks Centos.zeroPackageInfo []).
  unfold decodes. induction toks as [|tok toks IH]; cbn [forallb].
  - split; [|done]. intros _ Hin. by apply elem_of_nil in Hin.
  - rewrite not_elem_of_cons, andb_true_iff, IH.
    destruct tok; split; try (intros [_ ?]; by split); try (by intros [? _]).
Qed.

Lemma getDependencies_pass tok doc PkgInfoMap :
  passes tok = true →
  ∃ PkgInfoMap', Centos.getDependencies PkgInfoMap (tok :: doc)
                 = Centos.getDependencies PkgInfoMap' doc.
Proof.
  intros Hpass. destruct tok as [type xml toks| | |]; try done;
    cbn [Centos.getDependencies]; [|by eexists].
  cbn [passes] in Hpass. destruct (String.eqb type "rpm"); [|by eexists].
  cbn [negb orb] in Hpass. apply andb_true_iff in Hpass as [Hxml Htoks].
  destruct (CentosXml.trimPackageXML xml) eqn:Et.
  - apply decodes_spec in Htoks as [pkgInfo ->]. by eexists.
  - apply trimPackageXML_None in Et as ->. done.
Qed.

Lemma getDependencies_stop tok doc PkgInfoMap :
  passes tok = false →
  Centos.getDependencies PkgInfoMap (tok :: doc) = endsAt tok.
Proof.
  intros Hstop. destruct tok as [type xml toks| | |]; try done.
  cbn [Centos.getDependencies endsAt]. cbn [passes] in Hstop.
  destruct (String.eqb type "rpm"); [|done]. cbn [negb orb] in Hstop.
  destruct (String.eqb_spec xml "") as [->|Hne]; [done|]. cbn [negb andb] in Hstop.
  destruct (CentosXml.trimPackageXML xml) eqn:Et.
  - destruct (Centos.parsePackageXML toks) eqn:Ep; [|done].
    assert (decodes toks = true) by (apply decodes_spec; eauto). congruence.
  - by apply trimPackageXML_None in Et.
Qed.

Lemma getDependencies_read read : ∀ doc PkgInfoMap,
  forallb passes read = true →
  ∃ PkgInfoMap', Centos.getDependencies PkgInfoMap (read ++ doc)
                 = Centos.getDependencies PkgInfoMap' doc.
Proof.
  induction read as [|tok read IH]; intros doc PkgInfoMap Hread; [by eexists|].
  cbn [forallb] in Hread. apply andb_true_iff in Hread as [Htok Hread].
  destruct (getDependencies_pass tok (read ++ doc) PkgInfoMap Htok) as [m1 Hstep].
  destruct (IH doc m1 Hread) as [m2 Hrest]. exists m2.
  cbn [app]. by rewrite Hstep.
Qed.

Lemma first_stop (doc : list Centos.DocToken) :
  forallb passes doc = false →
  ∃ read tok rest, doc = read ++ tok :: rest ∧
                   forallb passes read = true ∧ passes tok = false.
Proof.
  induction doc as [|tok doc IH]; [done|]. cbn [forallb].
  destruct (passes tok) eqn:Etok.
  - intros (read & tok' & rest & -> & Hread & Hstop)%IH.
    exists (tok :: read), tok', rest. cbn [forallb]. by rewrite Etok.
  - intros _. by exists [], tok, doc.
Qed.

Lemma endsAt_no_index tok m : endsAt tok ≠ Centos.Returns m.
Proof.
  destruct tok as [type xml toks| | |]; try done.
  cbn [endsAt]. by destruct (String.eqb xml "").
Qed.

(** X10.  [getDependencies] reads the document up to the first token at
    which it cannot go on: an error of the outer decoder, a [package]
    element of any type that [DecodeElement] fails on, or a package of
    type [rpm] whose inner XML is empty or makes the decoder of
    [parsePackageXML] fail.  There it ends, with a panic for the empty
    inner XML and with the error otherwise, and what comes after is not
    read.  It returns an index exactly when the document has no such
    token. *)
Theorem getDependencies_ends_at_first_failure :
  (∀ PkgInfoMap doc,
     forallb passes doc = true ↔
     ∃ m, Centos.getDependencies PkgInfoMap doc = Centos.Returns m)
  ∧
  (∀ PkgInfoMap read tok rest,
     forallb passes read = true → passes tok = false →
     Centos.getDependencies PkgInfoMap (read ++ tok :: rest) = endsAt tok).
Proof.
  assert (∀ PkgInfoMap read tok rest,
            forallb passes read = true → passes tok = false →
            Centos.getDependencies PkgInfoMap (read ++ tok :: rest) = endsAt tok) as Hstop.
  { intros PkgInfoMap read tok rest Hread Htok.
    destruct (getDependencies_read read (tok :: rest) PkgInfoMap Hread) as [m ->].
    by apply getDependencies_stop. }
  split; [|exact Hstop].
  intros PkgInfoMap doc. split.
  - intros Hall. destruct (getDependencies_read doc [] PkgInfoMap Hall) as [m Hrun].
    exists m. by rewrite app_nil_r in Hrun.
  - intros [m Hrun]. destruct (forallb passes doc) eqn:Hall; [done|].
    apply first_stop in Hall as (read & tok & rest & -> & Hread & Htok).
    rewrite Hstop in Hrun by done. by apply endsAt_no_index in Hrun.
Qed.
